(** * Chess Tournament Manager: pairing engine and tournament state

    A shallow embedding of [src/models/tournament.py],
    [src/controllers/pairing.py] and the result/round operations of
    [src/controllers/tournament.py].

    Modelling conventions.
    - Player IDs are Python strings ([Id := string]); [None] is [option].
      Python truthiness of an ID is "non-empty string".
    - Scores are Python floats that only ever take values in
      {0, 0.5, 1, 1.5, ...}; they are represented exactly as integers counting
      half points (a win is 2, a draw is 1).
    - [random.random()] returns [k / 2^53] for a 53-bit integer [k]; the
      random source is an infinite sequence [rnd] of such [k], consumed through
      a counter threaded through the code.  [random.random() < a/b] is then
      exactly [k * b < a * 2^53] for the thresholds used (0.5, 0.45, 0.55).
    - [datetime.now().isoformat()] is the string [now] of the environment;
      [Player.load(id)] is [player_lookup id] (the rating of the player
      record, [None] when there is no record). *)

From Stdlib Require Import List ZArith String Bool Lia Permutation Sorted.
Import ListNotations.
Open Scope Z_scope.

(* ------------------------------------------------------------------ *)
(** ** Data model ([models/tournament.py]) *)

Definition Id := string.

Inductive Result :=
| WHITE_WIN | BLACK_WIN | DRAW | FORFEIT_WHITE | FORFEIT_BLACK
| DOUBLE_FORFEIT | ONGOING.

(** [Result.value]; the aliases PLAYER1_WIN, PLAYER2_WIN and NOT_PLAYED
    share the values of WHITE_WIN, BLACK_WIN and ONGOING and so are the same
    enum members. *)
Definition result_value (r : Result) : string :=
  match r with
  | WHITE_WIN => "1-0" | BLACK_WIN => "0-1" | DRAW => "1/2-1/2"
  | FORFEIT_WHITE => "1-0F" | FORFEIT_BLACK => "0-1F"
  | DOUBLE_FORFEIT => "0-0F" | ONGOING => "*"
  end%string.

(** [Result(value)]: lookup by value, [None] standing for [ValueError]. *)
Definition result_of_string (s : string) : option Result :=
  if String.eqb s "1-0" then Some WHITE_WIN
  else if String.eqb s "0-1" then Some BLACK_WIN
  else if String.eqb s "1/2-1/2" then Some DRAW
  else if String.eqb s "1-0F" then Some FORFEIT_WHITE
  else if String.eqb s "0-1F" then Some FORFEIT_BLACK
  else if String.eqb s "0-0F" then Some DOUBLE_FORFEIT
  else if String.eqb s "*" then Some ONGOING
  else None.

Record Pairing := mkPairing {
  white_id : option Id;
  black_id : option Id;
  board_number : option Z;
  result : Result
}.

Record Round := mkRound {
  number : Z;
  pairings : list Pairing;
  start_time : option string;
  end_time : option string
}.

Inductive TournamentType := SWISS | ROUND_ROBIN | KNOCKOUT.

Record Tournament := mkTournament {
  tournament_id : string;
  name : string;
  tournament_type : TournamentType;
  num_rounds : Z;
  location : string;
  start_date : string;
  end_date : option string;
  description : string;
  created_at : string;
  updated_at : string;
  players : list Id;
  rounds : list Round;
  current_round : Z;
  is_finished : bool
}.

(** The ambient world the Python code reads: the clock, the player store and
    the random generator. *)
Record Env := mkEnv {
  now : string;
  player_lookup : Id -> option Z;
  rnd : nat -> Z
}.

(** Exceptions raised by the pairing strategies. *)
Inductive PyError := IndexError | ValueError.

(** Outcome of a strategy call: a round and the advanced random counter, or
    a raised exception. *)
Inductive Outcome :=
| Generated (r : Round) (k : nat)
| Raised (e : PyError).

(* ------------------------------------------------------------------ *)
(** ** Helpers for Python idioms *)

Definition truthy (o : option Id) : bool :=
  match o with Some s => negb (String.eqb s "") | None => false end.

Definition opt_list (o : option Id) : list Id :=
  match o with Some s => [s] | None => [] end.

Definition opt_eqb (o : option Id) (s : Id) : bool :=
  match o with Some x => String.eqb x s | None => false end.

Definition mem (x : Id) (l : list Id) : bool := existsb (String.eqb x) l.

(** [list.remove(x)]: removes the first occurrence. *)
Fixpoint remove_first (x : Id) (l : list Id) : list Id :=
  match l with
  | [] => []
  | y :: ys => if String.eqb x y then ys else y :: remove_first x ys
  end.

Fixpoint sumZ (l : list Z) : Z :=
  match l with [] => 0 | x :: xs => x + sumZ xs end.

(** [random.random()] at counter [k]. *)
Definition random (e : Env) (k : nat) : Z * nat := (rnd e k, S k).

(** [random.random() < num/den]. *)
Definition rand_lt (x num den : Z) : bool := x * den <? num * 2 ^ 53.

(** Python's [list.sort(key=..., reverse=True)]: a stable sort by descending
    key, as insertion sort. *)
Fixpoint insert_desc {A} (key : A -> Z) (x : A) (l : list A) : list A :=
  match l with
  | [] => [x]
  | y :: ys => if key x <=? key y then y :: insert_desc key x ys else x :: l
  end.

Definition sort_desc {A} (key : A -> Z) (l : list A) : list A :=
  fold_left (fun acc x => insert_desc key x acc) l [].

(** [sorted(..., key=...)]: a stable sort by ascending key. *)
Fixpoint insert_asc {A} (key : A -> Z) (x : A) (l : list A) : list A :=
  match l with
  | [] => [x]
  | y :: ys => if key y <=? key x then y :: insert_asc key x ys else x :: l
  end.

Definition sort_asc {A} (key : A -> Z) (l : list A) : list A :=
  fold_left (fun acc x => insert_asc key x acc) l [].

(** The IDs a pairing mentions, white first. *)
Definition pairing_ids (p : Pairing) : list Id :=
  opt_list (white_id p) ++ opt_list (black_id p).

Definition round_ids (r : Round) : list Id := flat_map pairing_ids (pairings r).

(* ------------------------------------------------------------------ *)
(** ** Scores and history ([Tournament.get_player_score],
    [Tournament.get_player_opponents]) *)

(** Points (in half points) a single pairing gives [pid]: the body of the
    inner loop of [get_player_score]. *)
Definition pairing_points (p : Pairing) (pid : Id) : Z :=
  if opt_eqb (white_id p) pid then
    match result p with
    | WHITE_WIN | FORFEIT_WHITE => 2
    | DRAW => 1
    | _ => 0
    end
  else if opt_eqb (black_id p) pid then
    match result p with
    | BLACK_WIN | FORFEIT_BLACK => 2
    | DRAW => 1
    | _ => 0
    end
  else 0.

(** The contribution of one round to [get_player_score]. *)
Definition round_points (r : Round) (pid : Id) : Z :=
  sumZ (map (fun p => pairing_points p pid) (pairings r)).

Definition get_player_score (t : Tournament) (pid : Id) : Z :=
  sumZ (map (fun r => round_points r pid) (rounds t)).

Definition pairing_opponent (p : Pairing) (pid : Id) : list Id :=
  if opt_eqb (white_id p) pid && truthy (black_id p) then opt_list (black_id p)
  else if opt_eqb (black_id p) pid && truthy (white_id p) then opt_list (white_id p)
  else [].

Definition get_player_opponents (t : Tournament) (pid : Id) : list Id :=
  flat_map (fun r => flat_map (fun p => pairing_opponent p pid) (pairings r))
    (rounds t).

(* ------------------------------------------------------------------ *)
(** ** Tournament methods that mutate state *)

Definition set_updated_at (t : Tournament) (u : string) : Tournament :=
  mkTournament (tournament_id t) (name t) (tournament_type t) (num_rounds t)
    (location t) (start_date t) (end_date t) (description t) (created_at t)
    u (players t) (rounds t) (current_round t) (is_finished t).

Definition set_rounds (t : Tournament) (rs : list Round) : Tournament :=
  mkTournament (tournament_id t) (name t) (tournament_type t) (num_rounds t)
    (location t) (start_date t) (end_date t) (description t) (created_at t)
    (updated_at t) (players t) rs (current_round t) (is_finished t).

(** [Tournament.save]: stamps [updated_at]; the file write itself is not
    modelled. *)
Definition save (e : Env) (t : Tournament) : Tournament := set_updated_at t (now e).

(** [Tournament.finish_tournament]. *)
Definition finish_tournament (e : Env) (t : Tournament) : Tournament :=
  save e
    (mkTournament (tournament_id t) (name t) (tournament_type t) (num_rounds t)
       (location t) (start_date t) (Some (now e)) (description t) (created_at t)
       (updated_at t) (players t) (rounds t) (current_round t) true).

(** [Tournament.add_round]. *)
Definition add_round (e : Env) (t : Tournament) (r : Round) : Tournament :=
  save e (set_rounds t (rounds t ++ [r])).

(** Mutating the first element of a list that satisfies [f]: what the
    [for ...: if ...: x = ...; break] searches of the controller followed by
    an in-place update of the found object amount to. *)
Fixpoint update_first {A} (f : A -> bool) (g : A -> A) (l : list A) : list A :=
  match l with
  | [] => []
  | x :: xs => if f x then g x :: xs else x :: update_first f g xs
  end.

Definition set_result (res : Result) (p : Pairing) : Pairing :=
  mkPairing (white_id p) (black_id p) (board_number p) res.

Definition set_pairings (r : Round) (ps : list Pairing) : Round :=
  mkRound (number r) ps (start_time r) (end_time r).

Definition board_is (bn : Z) (p : Pairing) : bool :=
  match board_number p with Some b => Z.eqb b bn | None => false end.

(** [controllers/tournament.py: update_result], after the tournament has
    been loaded; returns the Python return value and the tournament state
    afterwards.  A [Round] or [Pairing] object is always truthy. *)
Definition update_result (e : Env) (t : Tournament) (round_number board_number0 : Z)
    (res : string) : bool * Tournament :=
  match find (fun r => Z.eqb (number r) round_number) (rounds t) with
  | None => (false, t)
  | Some r =>
      match find (board_is board_number0) (pairings r) with
      | None => (false, t)
      | Some _ =>
          match result_of_string res with
          | None => (false, t)
          | Some v =>
              (true,
               save e (set_rounds t
                 (update_first (fun r => Z.eqb (number r) round_number)
                    (fun r => set_pairings r
                       (update_first (board_is board_number0) (set_result v)
                          (pairings r)))
                    (rounds t))))
          end
      end
  end.

(* ------------------------------------------------------------------ *)
(** ** Pairing strategies ([controllers/pairing.py]) *)

(** "Set board numbers for all pairings except byes": the pairings whose
    [black_id] is not [None] get [1, 2, ...] in order. *)
Fixpoint renumber (i : Z) (ps : list Pairing) : list Pairing :=
  match ps with
  | [] => []
  | p :: rest =>
      match black_id p with
      | Some _ => mkPairing (white_id p) (black_id p) (Some i) (result p)
                    :: renumber (i + 1) rest
      | None => p :: renumber i rest
      end
  end.

Definition bye_pairing (pid : option Id) : Pairing :=
  mkPairing pid None None WHITE_WIN.

(** *** Swiss *)

(** [next((score for pid, score in player_scores if pid == x), 0)] *)
Fixpoint lookup_score (ps : list (Id * Z)) (x : Id) : Z :=
  match ps with
  | [] => 0
  | (pid, s) :: rest => if String.eqb pid x then s else lookup_score rest x
  end.

(** The scan of lines 98-108: [best] is [None] while [best_score_diff] is
    [inf], and [Some (opponent, diff)] afterwards. *)
Fixpoint scan_best (prev : list Id) (ps : list (Id * Z)) (cur : Id)
    (cands : list Id) (best : option (Id * Z)) : option (Id * Z) :=
  match cands with
  | [] => best
  | c :: cs =>
      if mem c prev then scan_best prev ps cur cs best
      else
        let d := Z.abs (lookup_score ps cur - lookup_score ps c) in
        let best' := match best with
                     | None => Some (c, d)
                     | Some (_, bd) => if d <? bd then Some (c, d) else best
                     end in
        scan_best prev ps cur cs best'
  end.

(** Lines 94-114: the opponent chosen for [cur] among [unpaired]. *)
Definition choose_opponent (prev : list Id) (ps : list (Id * Z)) (cur : Id)
    (unpaired : list Id) : option Id :=
  match scan_best prev ps cur unpaired None with
  | Some (b, _) => Some b
  | None => hd_error unpaired
  end.

(** Rating used for the colour bias (lines 121-131). *)
Definition swiss_ratings (e : Env) (cur opp : Id) : Z * Z :=
  match player_lookup e cur, player_lookup e opp with
  | Some rc, Some ro => (rc, ro)
  | _, _ => (0, 0)
  end.

(** The [while len(unpaired) >= 2] loop; [fuel] bounds the iterations (each
    iteration removes at least one player, so [length unpaired] suffices). *)
Fixpoint swiss_loop (e : Env) (t : Tournament) (ps : list (Id * Z))
    (fuel : nat) (unpaired : list Id) (board : Z) (k : nat) (acc : list Pairing)
    : list Pairing * list Id * nat :=
  match fuel with
  | O => (acc, unpaired, k)
  | S fuel' =>
      match unpaired with
      | cur :: ((_ :: _) as rest) =>
          match choose_opponent (get_player_opponents t cur) ps cur rest with
          | Some b =>
              if truthy (Some b) then
                let '(rc, ro) := swiss_ratings e cur b in
                let '(x, k') := random e k in
                let swap := if rc <? ro then rand_lt x 55 100 else rand_lt x 45 100 in
                let '(w, bl) := if swap then (b, cur) else (cur, b) in
                swiss_loop e t ps fuel' (remove_first b rest) (board + 1) k'
                  (acc ++ [mkPairing (Some w) (Some bl) (Some board) ONGOING])
              else swiss_loop e t ps fuel' rest board k acc
          | None => swiss_loop e t ps fuel' rest board k acc
          end
      | _ => (acc, unpaired, k)
      end
  end.

(** Players who ever had a bye (lines 62-68). *)
Definition players_with_byes (t : Tournament) : list Id :=
  flat_map (fun r => flat_map (fun p =>
      if truthy (white_id p) && negb (truthy (black_id p)) then opt_list (white_id p)
      else if truthy (black_id p) && negb (truthy (white_id p)) then opt_list (black_id p)
      else []) (pairings r)) (rounds t).

(** The bye recipient (lines 58-77). *)
Definition swiss_bye_player (t : Tournament) (player_scores : list (Id * Z))
    : option Id :=
  let bye_candidates := sort_asc snd player_scores in
  let pwb := players_with_byes t in
  let bye_player := match find (fun ps => negb (mem (fst ps) pwb)) bye_candidates with
                    | Some (pid, _) => Some pid
                    | None => None
                    end in
  if negb (truthy bye_player) then
    match bye_candidates with
    | (pid, _) :: _ => Some pid
    | [] => bye_player
    end
  else bye_player.

(** [player_scores] of the Swiss strategy, sorted. *)
Definition swiss_table (t : Tournament) : list (Id * Z) :=
  sort_desc snd (map (fun pid => (pid, get_player_score t pid)) (players t)).

(** [SwissPairingStrategy.generate_pairings]. *)
Definition swiss_generate_pairings (e : Env) (t : Tournament) (round_number : Z) (k : nat)
    : Outcome :=
  let player_scores := swiss_table t in
  let players0 := map fst player_scores in
  let '(byes, players1) :=
    if Nat.odd (List.length players0) then
      let bp := swiss_bye_player t player_scores in
      if truthy bp then
        match bp with
        | Some b => ([bye_pairing (Some b)], remove_first b players0)
        | None => ([], players0)
        end
      else ([], players0)
    else ([], players0) in
  let '(acc, unpaired, k') :=
    swiss_loop e t player_scores (List.length players1) players1 1 k byes in
  let ps := acc ++ map (fun pid => bye_pairing (Some pid)) unpaired in
  Generated (mkRound round_number (renumber 1 ps) (Some (now e)) None) k'.

(** *** Round Robin *)

(** [rotation = [rotation[-1]] + rotation[:-1]]; [None] is the [IndexError]
    of [rotation[-1]] on an empty list. *)
Definition rotate_right {A} (l : list A) : option (list A) :=
  match rev l with
  | [] => None
  | x :: r => Some (x :: rev r)
  end.

Fixpoint rotate_times {A} (n : nat) (l : list A) : option (list A) :=
  match n with
  | O => Some l
  | S n' =>
      match rotate_right l with
      | None => None
      | Some l' => rotate_times n' l'
      end
  end.

(** The [for i in range(n // 2)] loop of lines 212-236, over the remaining
    indices [idx]. *)
Fixpoint rr_loop (rotated : list (option Id)) (n : nat) (adjusted : Z)
    (idx : list nat) (board : Z) : list Pairing :=
  match idx with
  | [] => []
  | i :: is =>
      let w := nth i rotated None in
      let b := nth (n - 1 - i) rotated None in
      match w, b with
      | Some _, Some _ =>
          let '(w', b') :=
            if Z.eqb ((Z.of_nat i + adjusted) mod 2) 0 then (b, w) else (w, b) in
          mkPairing w' b' (Some board) ONGOING
            :: rr_loop rotated n adjusted is (board + 1)
      | _, _ =>
          bye_pairing (match w with Some _ => w | None => b end)
            :: rr_loop rotated n adjusted is board
      end
  end.

(** [RoundRobinPairingStrategy.generate_pairings]. *)
Definition round_robin_generate_pairings (e : Env) (t : Tournament)
    (round_number : Z) (k : nat) : Outcome :=
  let players0 := map Some (players t) in
  let pl := if Nat.odd (List.length players0) then players0 ++ [None] else players0 in
  let n := List.length pl in
  let adjusted := round_number - 1 in
  match pl with
  | [] => Raised IndexError
  | p0 :: rest =>
      match rotate_times (Z.to_nat adjusted) rest with
      | None => Raised IndexError
      | Some rotation =>
          let rotated := p0 :: rotation in
          Generated
            (mkRound round_number
               (renumber 1 (rr_loop rotated n adjusted (seq 0 (n / 2)) 1))
               (Some (now e)) None) k
      end
  end.

(** *** Knockout *)

(** [player.rating if player else 0] *)
Definition ko_rating (e : Env) (pid : Id) : Z :=
  match player_lookup e pid with Some r => r | None => 0 end.

(** [while (len(players) & (len(players) - 1)) != 0: players.append(None)];
    [fuel] bounds the iterations ([length l] suffices). *)
Fixpoint ko_pad (fuel : nat) (l : list (option Id)) : list (option Id) :=
  let len := Z.of_nat (List.length l) in
  if negb (Z.eqb (Z.land len (len - 1)) 0) then
    match fuel with
    | O => l
    | S fuel' => ko_pad fuel' (l ++ [None])
    end
  else l.

(** The first-round loop of lines 282-306. *)
Fixpoint ko_loop1 (e : Env) (padded : list (option Id)) (n : nat)
    (idx : list nat) (board : Z) (k : nat) : list Pairing * nat :=
  match idx with
  | [] => ([], k)
  | i :: is =>
      let w := nth i padded None in
      let b := nth (n - 1 - i) padded None in
      match w, b with
      | Some _, Some _ =>
          let '(x, k1) := random e k in
          let '(w', b') := if rand_lt x 1 2 then (b, w) else (w, b) in
          let '(rest, k2) := ko_loop1 e padded n is (board + 1) k1 in
          (mkPairing w' b' (Some board) ONGOING :: rest, k2)
      | _, _ =>
          let '(rest, k2) := ko_loop1 e padded n is board k in
          (bye_pairing (match w with Some _ => w | None => b end) :: rest, k2)
      end
  end.

(** The winners of the previous round (lines 319-332). *)
Fixpoint ko_winners (e : Env) (ps : list Pairing) (k : nat)
    : list (option Id) * nat :=
  match ps with
  | [] => ([], k)
  | p :: rest =>
      match result p with
      | WHITE_WIN | FORFEIT_WHITE =>
          let '(ws, k') := ko_winners e rest k in (white_id p :: ws, k')
      | BLACK_WIN | FORFEIT_BLACK =>
          let '(ws, k') := ko_winners e rest k in (black_id p :: ws, k')
      | DRAW =>
          let '(x, k1) := random e k in
          let w := if rand_lt x 1 2 then white_id p else black_id p in
          let '(ws, k') := ko_winners e rest k1 in (w :: ws, k')
      | DOUBLE_FORFEIT | ONGOING => ko_winners e rest k
      end
  end.

(** Pairing the winners two by two (lines 338-362). *)
Fixpoint ko_pair_winners (e : Env) (ws : list (option Id)) (board : Z) (k : nat)
    : list Pairing * nat :=
  match ws with
  | w1 :: w2 :: rest =>
      let '(x, k1) := random e k in
      let '(a, b) := if rand_lt x 1 2 then (w2, w1) else (w1, w2) in
      let '(ps, k2) := ko_pair_winners e rest (board + 1) k1 in
      (mkPairing a b (Some board) ONGOING :: ps, k2)
  | [w] => ([bye_pairing w], k)
  | [] => ([], k)
  end.

(** [KnockoutPairingStrategy.generate_pairings]. *)
Definition knockout_generate_pairings (e : Env) (t : Tournament)
    (round_number : Z) (k : nat) : Outcome :=
  if Z.eqb round_number 1 then
    let player_ratings :=
      sort_desc snd (map (fun pid => (pid, ko_rating e pid)) (players t)) in
    let pl := map (fun x => Some (fst x)) player_ratings in
    let padded := ko_pad (List.length pl) pl in
    let n := List.length padded in
    let '(ps, k') := ko_loop1 e padded n (seq 0 (n / 2)) 1 k in
    Generated (mkRound round_number (renumber 1 ps) (Some (now e)) None) k'
  else
    match find (fun r => Z.eqb (number r) (round_number - 1)) (rounds t) with
    | None => Raised ValueError
    | Some prev =>
        let '(ws, k1) := ko_winners e (pairings prev) k in
        let '(ps, k2) := ko_pair_winners e ws 1 k1 in
        Generated (mkRound round_number (renumber 1 ps) (Some (now e)) None) k2
    end.

(** [get_pairing_strategy]. *)
Definition get_pairing_strategy (tt : TournamentType)
    : Env -> Tournament -> Z -> nat -> Outcome :=
  match tt with
  | SWISS => swiss_generate_pairings
  | ROUND_ROBIN => round_robin_generate_pairings
  | KNOCKOUT => knockout_generate_pairings
  end.

(** The module-level [generate_pairings], after the tournament has been
    loaded: the Python return value, the tournament afterwards and the random
    counter afterwards.  An exception of the strategy is caught and reported
    as [False] before [add_round] runs. *)
Definition generate_pairings (e : Env) (t : Tournament) (round_number : option Z)
    (k : nat) : bool * Tournament * nat :=
  let rn := match round_number with Some n => n | None => current_round t end in
  if existsb (fun r => Z.eqb (number r) rn) (rounds t) then (false, t, k)
  else
    match get_pairing_strategy (tournament_type t) e t rn k with
    | Generated r k' => (true, add_round e t r, k')
    | Raised _ => (false, t, k)
    end.

(* ------------------------------------------------------------------ *)
(** ** Observations used by the statements *)

(** The pairings of a generated round, if any. *)
Definition outcome_pairings (o : Outcome) : option (list Pairing) :=
  match o with Generated r _ => Some (pairings r) | Raised _ => None end.

Definition is_real (p : Pairing) : bool :=
  match white_id p, black_id p with Some _, Some _ => true | _, _ => false end.

Definition is_bye (p : Pairing) : bool :=
  match black_id p with None => true | Some _ => false end.

Definition count_real (ps : list Pairing) : nat := List.length (filter is_real ps).
Definition count_byes (ps : list Pairing) : nat := List.length (filter is_bye ps).

(** Sum over the players appearing in a round of the round's contribution to
    [get_player_score], in half points. *)
Definition round_score_sum (r : Round) : Z :=
  sumZ (map (round_points r) (round_ids r)).

(** Every field except [end_date] and [updated_at] agrees. *)
Definition same_but_stamps (t1 t2 : Tournament) : Prop :=
  tournament_id t1 = tournament_id t2 /\ name t1 = name t2 /\
  tournament_type t1 = tournament_type t2 /\ num_rounds t1 = num_rounds t2 /\
  location t1 = location t2 /\ start_date t1 = start_date t2 /\
  description t1 = description t2 /\ created_at t1 = created_at t2 /\
  players t1 = players t2 /\ rounds t1 = rounds t2 /\
  current_round t1 = current_round t2 /\ is_finished t1 = is_finished t2.

(** Two sample tournaments, instants and a player store used by the concrete
    statements below. *)
Definition env_at (clock : string) : Env :=
  mkEnv clock (fun _ => None) (fun _ => 0).

Definition finished_sample : Tournament :=
  mkTournament "t1"%string "Open"%string SWISS 5 "Paris"%string "2024-01-01T10:00:00"%string
    (Some "2024-01-05T18:00:00"%string) ""%string "2023-12-01T09:00:00"%string
    "2024-01-05T18:00:00"%string ["p1"%string; "p2"%string] [] 1 true.

(** A knockout tournament whose round 1 is not stored. *)
Definition ko_without_round1 : Tournament :=
  mkTournament "t2"%string "Cup"%string KNOCKOUT 3 ""%string ""%string None ""%string
    ""%string ""%string ["p1"; "p2"; "p3"; "p4"]%string [] 2 false.

(** A finished round with one double forfeit. *)
Definition double_forfeit_round : Round :=
  mkRound 1 [mkPairing (Some "p1"%string) (Some "p2"%string) (Some 1) DOUBLE_FORFEIT]
    None None.

Definition is_double_forfeit (p : Pairing) : bool :=
  match result p with DOUBLE_FORFEIT => true | _ => false end.

Definition count_double_forfeits (ps : list Pairing) : nat :=
  List.length (filter (fun p => is_real p && is_double_forfeit p) ps).

(** What one pairing adds to [round_score_sum]. *)
Definition pairing_value (p : Pairing) : Z :=
  sumZ (map (pairing_points p) (pairing_ids p)).

(** A finished round with a decisive game, a draw, a double forfeit and a bye. *)
Definition finished_round : Round :=
  mkRound 2
    [mkPairing (Some "p1"%string) (Some "p2"%string) (Some 1) WHITE_WIN;
     mkPairing (Some "p3"%string) (Some "p4"%string) (Some 2) DRAW;
     mkPairing (Some "p5"%string) (Some "p6"%string) (Some 3) DOUBLE_FORFEIT;
     bye_pairing (Some "p7"%string)] None None.

(** The token strings [Result(...)] accepts. *)
Definition canonical_tokens : list string :=
  ["1-0"; "0-1"; "1/2-1/2"; "1-0F"; "0-1F"; "0-0F"; "*"]%string.

(** A tournament with one stored round of two boards and a bye. *)
Definition running_sample : Tournament :=
  set_rounds ko_without_round1
    [mkRound 1 [mkPairing (Some "p1"%string) (Some "p4"%string) (Some 1) ONGOING;
                mkPairing (Some "p2"%string) (Some "p3"%string) (Some 2) ONGOING]
       None None].

(** The score difference the Swiss scan minimises. *)
Definition dist (ps : list (Id * Z)) (cur c : Id) : Z :=
  Z.abs (lookup_score ps cur - lookup_score ps c).

(** A Swiss tournament after one decided round: p1 beat p2, p3 beat p4. *)
Definition swiss_history : Tournament :=
  mkTournament "t3"%string "Swiss"%string SWISS 3 ""%string ""%string None ""%string
    ""%string ""%string ["p1"; "p2"; "p3"; "p4"]%string
    [mkRound 1 [mkPairing (Some "p1"%string) (Some "p2"%string) (Some 1) WHITE_WIN;
                mkPairing (Some "p3"%string) (Some "p4"%string) (Some 2) WHITE_WIN]
       None None] 2 false.

(** A knockout tournament whose round 1 has a decided game, an unfinished
    game, a draw and a double forfeit. *)
Definition ko_after_round1 : Tournament :=
  set_rounds ko_without_round1
    [mkRound 1 [mkPairing (Some "p1"%string) (Some "p8"%string) (Some 1) BLACK_WIN;
                mkPairing (Some "p2"%string) (Some "p7"%string) (Some 2) ONGOING;
                mkPairing (Some "p3"%string) (Some "p6"%string) (Some 3) DRAW;
                mkPairing (Some "p4"%string) (Some "p5"%string) (Some 4) DOUBLE_FORFEIT]
       None None].

(** The IDs of the two slots [i] and [n - 1 - i] of a seating list. *)
Definition slot_ids (L : list (option Id)) (n i : nat) : list Id :=
  opt_list (nth i L None) ++ opt_list (nth (n - 1 - i) L None).

(** A knockout tournament with six registered players and no round yet. *)
Definition ko_six : Tournament :=
  mkTournament "t3"%string "Cup"%string KNOCKOUT 3 ""%string ""%string None ""%string
    ""%string ""%string ["p1"; "p2"; "p3"; "p4"; "p5"; "p6"]%string [] 1 false.

Definition has_id (o : option Id) : bool := match o with Some _ => true | None => false end.

(** Whether both slots [i] and [n - 1 - i] of a seating list are occupied. *)
Definition slot_real (L : list (option Id)) (n i : nat) : bool :=
  has_id (nth i L None) && has_id (nth (n - 1 - i) L None).

(** Observations on a round-robin schedule: whether a pairing opposes [x]
    and [y] (in either colour), whether it is a bye of [x], and the number of
    such pairings over the rounds [1 .. R] generated for the tournament. *)
Definition meets (x y : Id) (p : Pairing) : bool :=
  (opt_eqb (white_id p) x && opt_eqb (black_id p) y) ||
  (opt_eqb (white_id p) y && opt_eqb (black_id p) x).

Definition has_bye_of (x : Id) (p : Pairing) : bool :=
  opt_eqb (white_id p) x && negb (has_id (black_id p)).

Definition rr_count (f : Pairing -> bool) (e : Env) (t : Tournament) (k R : nat) : nat :=
  list_sum (map (fun rn =>
    match round_robin_generate_pairings e t (Z.of_nat rn) k with
    | Generated r _ => List.length (filter f (pairings r))
    | Raised _ => 0%nat
    end) (seq 1 R)).

Definition oeqb (o1 o2 : option Id) : bool :=
  match o1, o2 with
  | Some a, Some b => String.eqb a b
  | None, None => true
  | _, _ => false
  end.

(** Whether the seats [w] and [b] hold [u] and [v], in either order. *)
Definition slot_is (u v w b : option Id) : bool :=
  (oeqb w u && oeqb b v) || (oeqb w v && oeqb b u).

(** Seat, in the rotated list of round [s + 1], of the entry at index [j] of
    the initial seating list; [m] is the length of the rotated tail. *)
Definition rr_seat (m s j : nat) : nat :=
  match j with
  | O => O
  | S a => S ((a + s) mod m)
  end.

(** A round-robin tournament with five registered players and no round yet. *)
Definition rr_five : Tournament :=
  mkTournament "t4"%string "League"%string ROUND_ROBIN 5 ""%string ""%string None ""%string
    ""%string ""%string ["p1"; "p2"; "p3"; "p4"; "p5"]%string [] 1 false.

(* ------------------------------------------------------------------ *)
(** ** Stored state: player records and tournament files *)

(** [models/player.py: Player]. *)
Record Player := mkPlayer {
  player_id : Id;
  first_name : string;
  last_name : string;
  rating : Z;
  federation : string;
  email : string;
  phone : string;
  player_created_at : string;
  player_updated_at : string;
  tournaments : list string
}.

(** The files under [data/players] and [data/tournaments]: [Player.load] and
    [Tournament.load] are lookups, [None] when the file does not exist.  A
    tournament file is kept as the object it loads back to; the round trip
    through [to_dict] and [from_dict] is modelled separately below. *)
Record World := mkWorld {
  player_file : Id -> option Player;
  tournament_file : string -> option Tournament
}.

(** Writing (or, with [None], deleting) the file named [k]. *)
Definition upd {A} (f : string -> option A) (k : string) (v : option A) : string -> option A :=
  fun k' => if String.eqb k' k then v else f k'.

Definition set_tournaments (p : Player) (ts : list string) : Player :=
  mkPlayer (player_id p) (first_name p) (last_name p) (rating p) (federation p)
    (email p) (phone p) (player_created_at p) (player_updated_at p) ts.

(** [Player.save]: stamps [updated_at] and writes [<player_id>.json]. *)
Definition player_save (e : Env) (w : World) (p : Player) : World :=
  let p' := mkPlayer (player_id p) (first_name p) (last_name p) (rating p) (federation p)
              (email p) (phone p) (player_created_at p) (now e) (tournaments p) in
  mkWorld (upd (player_file w) (player_id p) (Some p')) (tournament_file w).

(** [Player.add_tournament]. *)
Definition player_add_tournament (e : Env) (w : World) (p : Player) (tid : string) : World :=
  if mem tid (tournaments p) then w
  else player_save e w (set_tournaments p (tournaments p ++ [tid])).

(** [Tournament.save] on the store: the stamped object is written to the file
    named after its [tournament_id]. *)
Definition tournament_save (e : Env) (w : World) (t : Tournament) : World * Tournament :=
  let t' := save e t in
  (mkWorld (player_file w) (upd (tournament_file w) (tournament_id t) (Some t')), t').

Definition set_players (t : Tournament) (ps : list Id) : Tournament :=
  mkTournament (tournament_id t) (name t) (tournament_type t) (num_rounds t)
    (location t) (start_date t) (end_date t) (description t) (created_at t)
    (updated_at t) ps (rounds t) (current_round t) (is_finished t).

Definition set_current_round (t : Tournament) (c : Z) : Tournament :=
  mkTournament (tournament_id t) (name t) (tournament_type t) (num_rounds t)
    (location t) (start_date t) (end_date t) (description t) (created_at t)
    (updated_at t) (players t) (rounds t) c (is_finished t).

(** [Tournament.add_player]: the Python return value, the store and the
    object afterwards. *)
Definition tournament_add_player (e : Env) (w : World) (t : Tournament) (pid : Id)
    : bool * World * Tournament :=
  if mem pid (players t) then (false, w, t)
  else
    let t1 := set_players t (players t ++ [pid]) in
    let w1 := match player_file w pid with
              | Some p => player_add_tournament e w p (tournament_id t1)
              | None => w
              end in
    let '(w2, t2) := tournament_save e w1 t1 in
    (true, w2, t2).

(** [Tournament.remove_player]. *)
Definition tournament_remove_player (e : Env) (w : World) (t : Tournament) (pid : Id)
    : bool * World * Tournament :=
  if mem pid (players t) then
    let '(w1, t1) := tournament_save e w (set_players t (remove_first pid (players t))) in
    (true, w1, t1)
  else (false, w, t).

(** [Tournament.start_tournament]. *)
Definition tournament_start (e : Env) (w : World) (t : Tournament) : bool * World * Tournament :=
  if negb (is_finished t) && Z.eqb (current_round t) 0 then
    let '(w1, t1) := tournament_save e w (set_current_round t 1) in (true, w1, t1)
  else (false, w, t).

(** [controllers/tournament.py: start_tournament]. *)
Definition start_tournament_ctl (e : Env) (w : World) (tid : string) : bool * World :=
  match tournament_file w tid with
  | None => (false, w)
  | Some t => let '(b, w1, _) := tournament_start e w t in (b, w1)
  end.

(** [controllers/tournament.py: add_player_to_tournament]. *)
Definition add_player_to_tournament (e : Env) (w : World) (tid : string) (pid : Id)
    : bool * World :=
  match tournament_file w tid with
  | None => (false, w)
  | Some t =>
      if 0 <? current_round t then (false, w)
      else
        match player_file w pid with
        | None => (false, w)
        | Some _ => let '(b, w1, _) := tournament_add_player e w t pid in (b, w1)
        end
  end.

(** [controllers/tournament.py: remove_player_from_tournament]. *)
Definition remove_player_from_tournament (e : Env) (w : World) (tid : string) (pid : Id)
    : bool * World :=
  match tournament_file w tid with
  | None => (false, w)
  | Some t =>
      if 0 <? current_round t then (false, w)
      else let '(b, w1, _) := tournament_remove_player e w t pid in (b, w1)
  end.

(** [controllers/pairing.py: generate_pairings] on the store: the tournament
    is loaded from its file and, when a round was added, written back by
    [add_round]. *)
Definition generate_pairings_ctl (e : Env) (w : World) (tid : string)
    (round_number : option Z) (k : nat) : bool * World * nat :=
  match tournament_file w tid with
  | None => (false, w, k)
  | Some t =>
      let '(b, t1, k1) := generate_pairings e t round_number k in
      if b then
        (true, mkWorld (player_file w) (upd (tournament_file w) (tournament_id t1) (Some t1)), k1)
      else (false, w, k1)
  end.

(** [controllers/tournament.py: start_next_round]. *)
Definition start_next_round (e : Env) (w : World) (tid : string) (k : nat) : bool * World * nat :=
  match tournament_file w tid with
  | None => (false, w, k)
  | Some t =>
      if is_finished t then (false, w, k)
      else if Z.eqb (current_round t) 0 then
        let '(b, w1, _) := tournament_start e w t in
        if b then generate_pairings_ctl e w1 tid None k else (false, w1, k)
      else
        let '(w1, _) := tournament_save e w (set_current_round t (current_round t + 1)) in
        generate_pairings_ctl e w1 tid None k
  end.

(** One iteration of the loop of [delete_tournament] over the players. *)
Definition unlink_player (e : Env) (tid : string) (w : World) (pid : Id) : World :=
  match player_file w pid with
  | Some p =>
      if mem tid (tournaments p) then
        player_save e w (set_tournaments p (remove_first tid (tournaments p)))
      else w
  | None => w
  end.

(** [controllers/tournament.py: delete_tournament]; the file exists since it
    was just loaded. *)
Definition delete_tournament (e : Env) (w : World) (tid : string) : bool * World :=
  match tournament_file w tid with
  | None => (false, w)
  | Some t =>
      let w1 := fold_left (unlink_player e tid) (players t) w in
      (true, mkWorld (player_file w1) (upd (tournament_file w1) tid None))
  end.

(** *** Standings and reports *)

(** A row of [get_standings]. *)
Record Standing := mkStanding {
  st_player_id : Id;
  st_name : string;
  st_rating : Z;
  st_score : Z
}.

(** The loop of [Tournament.get_standings]: [Player] has [first_name] and
    [last_name] but no [name] attribute, so [player.name] raises
    [AttributeError] ([None]) at the first player with a stored record. *)
Fixpoint standings_loop (w : World) (pids : list Id) : option (list Standing) :=
  match pids with
  | [] => Some []
  | pid :: rest =>
      match player_file w pid with
      | None => standings_loop w rest
      | Some _ => None
      end
  end.

(** Stable insertion sort for a boolean order [le]. *)
Fixpoint insert_by {A} (le : A -> A -> bool) (x : A) (l : list A) : list A :=
  match l with
  | [] => [x]
  | y :: ys => if le y x then y :: insert_by le x ys else x :: l
  end.

Definition sort_by {A} (le : A -> A -> bool) (l : list A) : list A :=
  fold_left (fun acc x => insert_by le x acc) l [].

(** The key [(-score, -rating)] of [get_standings], compared
    lexicographically. *)
Definition standing_le (a b : Standing) : bool :=
  (st_score b <? st_score a) || ((st_score a =? st_score b) && (st_rating b <=? st_rating a)).

(** [Tournament.get_standings]; [None] is the [AttributeError]. *)
Definition get_standings (w : World) (t : Tournament) : option (list Standing) :=
  match standings_loop w (players t) with
  | None => None
  | Some l => Some (sort_by standing_le l)
  end.

Definition tt_value (tt : TournamentType) : string :=
  match tt with
  | SWISS => "Swiss" | ROUND_ROBIN => "Round Robin" | KNOCKOUT => "Knockout"
  end%string.

Record ReportInfo := mkReportInfo {
  ri_id : string;
  ri_name : string;
  ri_type : string;
  ri_rounds : Z;
  ri_location : string;
  ri_start_date : string;
  ri_end_date : option string;
  ri_description : string;
  ri_current_round : Z;
  ri_is_finished : bool
}.

Record ReportGame := mkReportGame {
  rg_board : option Z;
  rg_white : string;
  rg_black : string;
  rg_result : string
}.

Record ReportRound := mkReportRound {
  rep_number : Z;
  rep_games : list ReportGame;
  rep_start_time : option string;
  rep_end_time : option string
}.

Record Report := mkReport {
  rep_tournament : ReportInfo;
  rep_players : nat;
  rep_standings : list Standing;
  rep_rounds : list ReportRound
}.

(** The [players] dictionary of [get_tournament_report] (ID, name, rating,
    federation); as in [get_standings], [player.name] raises at the first
    player with a stored record. *)
Fixpoint report_players (w : World) (pids : list Id)
    : option (list (Id * (string * Z * string))) :=
  match pids with
  | [] => Some []
  | pid :: rest =>
      match player_file w pid with
      | None => report_players w rest
      | Some _ => None
      end
  end.

(** [players.get(pid, {}).get('name', 'Unknown')]. *)
Definition report_name (pd : list (Id * (string * Z * string))) (o : option Id) : string :=
  match o with
  | Some pid =>
      match find (fun kv => String.eqb (fst kv) pid) pd with
      | Some (_, (nm, _, _)) => nm
      | None => "Unknown"%string
      end
  | None => "Unknown"%string
  end.

Definition report_round (pd : list (Id * (string * Z * string))) (r : Round) : ReportRound :=
  mkReportRound (number r)
    (map (fun p => mkReportGame (board_number p) (report_name pd (white_id p))
                     (report_name pd (black_id p)) (result_value (result p)))
       (filter (fun p => truthy (white_id p) && truthy (black_id p)) (pairings r)))
    (start_time r) (end_time r).

Definition report_info (t : Tournament) : ReportInfo :=
  mkReportInfo (tournament_id t) (name t) (tt_value (tournament_type t)) (num_rounds t)
    (location t) (start_date t) (end_date t) (description t) (current_round t)
    (is_finished t).

(** [controllers/tournament.py: get_tournament_report]; an exception is
    caught and reported as [None]. *)
Definition get_tournament_report (w : World) (tid : string) : option Report :=
  match tournament_file w tid with
  | None => None
  | Some t =>
      match report_players w (players t) with
      | None => None
      | Some pd =>
          match get_standings w t with
          | None => None
          | Some st =>
              Some (mkReport (report_info t) (List.length pd) st
                      (map (report_round pd) (rounds t)))
          end
      end
  end.

(** [utils/helpers.py: export_tournament_to_csv]: the returned path.  The
    default file name, built from the tournament name and the date, is
    [default_path]; the CSV rows written are not modelled. *)
Definition export_tournament_to_csv (w : World) (tid : string) (output_path : option string)
    (default_path : string) : option string :=
  match get_tournament_report w tid with
  | None => None
  | Some rep =>
      match rep_standings rep with
      | [] => None
      | _ :: _ =>
          Some (match output_path with
                | Some p => if String.eqb p "" then default_path else p
                | None => default_path
                end)
      end
  end.

(** *** Serialisation ([to_dict] / [from_dict]) *)

(** The JSON values [json.dump] writes and [json.load] reads back. *)
#[warnings="-register-all"]
Inductive json :=
| JNull
| JBool (b : bool)
| JInt (z : Z)
| JStr (s : string)
| JList (l : list json)
| JDict (kv : list (string * json)).

(** [data[k]]: [json.load] keeps the last binding of a repeated key;
    [None] is the [KeyError]. *)
Definition jget (k : string) (kv : list (string * json)) : option json :=
  match find (fun p => String.eqb (fst p) k) (rev kv) with
  | Some (_, v) => Some v
  | None => None
  end.

(** [data.get(k, d)]. *)
Definition jget_or (k : string) (kv : list (string * json)) (d : json) : json :=
  match jget k kv with Some v => v | None => d end.

Definition jopt_str (o : option string) : json :=
  match o with Some s => JStr s | None => JNull end.

Definition jopt_int (o : option Z) : json :=
  match o with Some z => JInt z | None => JNull end.

(** Reading a value back into a field of the typed record; values of a type
    the field cannot hold give [None]. *)
Definition opt_str (j : json) : option (option string) :=
  match j with JNull => Some None | JStr s => Some (Some s) | _ => None end.

Definition opt_int (j : json) : option (option Z) :=
  match j with JNull => Some None | JInt z => Some (Some z) | _ => None end.

Fixpoint map_opt {A B} (f : A -> option B) (l : list A) : option (list B) :=
  match l with
  | [] => Some []
  | x :: xs =>
      match f x, map_opt f xs with
      | Some y, Some ys => Some (y :: ys)
      | _, _ => None
      end
  end.

Definition str_of (j : json) : option string :=
  match j with JStr s => Some s | _ => None end.

(** [TournamentType(value)]. *)
Definition tt_of_string (s : string) : option TournamentType :=
  if String.eqb s "Swiss" then Some SWISS
  else if String.eqb s "Round Robin" then Some ROUND_ROBIN
  else if String.eqb s "Knockout" then Some KNOCKOUT
  else None.

(** [Pairing.to_dict]; an enum member is always truthy. *)
Definition pairing_to_dict (p : Pairing) : json :=
  JDict [("white_id", jopt_str (white_id p)); ("black_id", jopt_str (black_id p));
         ("board_number", jopt_int (board_number p));
         ("result", JStr (result_value (result p)))]%string.

(** [Pairing.from_dict]; [None] for an exception. *)
Definition pairing_from_dict (j : json) : option Pairing :=
  match j with
  | JDict kv =>
      match opt_str (jget_or "white_id" kv JNull), opt_str (jget_or "black_id" kv JNull),
            opt_int (jget_or "board_number" kv JNull), jget_or "result" kv (JStr "*") with
      | Some w, Some b, Some bn, JStr r =>
          match result_of_string r with
          | Some v => Some (mkPairing w b bn v)
          | None => None
          end
      | _, _, _, _ => None
      end
  | _ => None
  end%string.

Definition round_to_dict (r : Round) : json :=
  JDict [("number", JInt (number r)); ("pairings", JList (map pairing_to_dict (pairings r)));
         ("start_time", jopt_str (start_time r)); ("end_time", jopt_str (end_time r))]%string.

Definition round_from_dict (j : json) : option Round :=
  match j with
  | JDict kv =>
      match jget "number" kv, opt_str (jget_or "start_time" kv JNull),
            opt_str (jget_or "end_time" kv JNull), jget_or "pairings" kv (JList []) with
      | Some (JInt n), Some st, Some en, JList ps =>
          match map_opt pairing_from_dict ps with
          | Some ps' => Some (mkRound n ps' st en)
          | None => None
          end
      | _, _, _, _ => None
      end
  | _ => None
  end%string.

Definition tournament_to_dict (t : Tournament) : json :=
  JDict [("tournament_id", JStr (tournament_id t)); ("name", JStr (name t));
         ("tournament_type", JStr (tt_value (tournament_type t)));
         ("num_rounds", JInt (num_rounds t)); ("location", JStr (location t));
         ("start_date", JStr (start_date t)); ("end_date", jopt_str (end_date t));
         ("description", JStr (description t)); ("created_at", JStr (created_at t));
         ("updated_at", JStr (updated_at t)); ("players", JList (map JStr (players t)));
         ("rounds", JList (map round_to_dict (rounds t)));
         ("current_round", JInt (current_round t)); ("is_finished", JBool (is_finished t))]%string.

(** [Tournament.from_dict]: [now0] is [datetime.now().isoformat()] and
    [uuid0] is [str(uuid.uuid4())], used by the constructor for a falsy
    [start_date] or [tournament_id]. *)
Definition tournament_from_dict (now0 uuid0 : string) (j : json) : option Tournament :=
  match j with
  | JDict kv =>
      match jget "name" kv, jget "tournament_type" kv, jget "num_rounds" kv,
            jget "location" kv, jget "start_date" kv, jget "end_date" kv,
            jget "description" kv, jget "tournament_id" kv with
      | Some (JStr nm), Some (JStr tts), Some (JInt nr), Some (JStr loc),
        Some sdj, Some edj, Some (JStr desc), Some tidj =>
          match opt_str tidj, tt_of_string tts, opt_str sdj, opt_str edj with
          | Some tid, Some ty, Some sd, Some ed =>
              let tid' := match tid with
                          | Some s => if String.eqb s "" then uuid0 else s
                          | None => uuid0
                          end in
              let sd' := match sd with
                         | Some s => if String.eqb s "" then now0 else s
                         | None => now0
                         end in
              match jget "created_at" kv, jget "updated_at" kv,
                    jget_or "players" kv (JList []), jget_or "rounds" kv (JList []),
                    jget_or "current_round" kv (JInt 0), jget_or "is_finished" kv (JBool false) with
              | Some (JStr ca), Some (JStr ua), JList pls, JList rs, JInt cr, JBool fin =>
                  match map_opt str_of pls, map_opt round_from_dict rs with
                  | Some pls', Some rs' =>
                      Some (mkTournament tid' nm ty nr loc sd' ed desc ca ua pls' rs' cr fin)
                  | _, _ => None
                  end
              | _, _, _, _, _, _ => None
              end
          | _, _, _, _ => None
          end
      | _, _, _, _, _, _, _, _ => None
      end
  | _ => None
  end%string.

(** A player file exists for [pid]. *)
Definition has_record (w : World) (pid : Id) : bool :=
  match player_file w pid with Some _ => true | None => false end.

(** A pairing with a black player, i.e. not a bye. *)
Definition has_black (p : Pairing) : bool := has_id (black_id p).

(** *** Python string operations

    A [string] is read as a sequence of code points below 256, so the
    Unicode tables of [str.isspace] and [str.lower] restricted to that
    range are written out in full. *)

(** [str.isspace] on one code point: 0x09-0x0D, 0x1C-0x20, 0x85, 0xA0. *)
Definition is_space (c : Ascii.ascii) : bool :=
  let n := Ascii.nat_of_ascii c in
  ((9 <=? n) && (n <=? 13))%nat || ((28 <=? n) && (n <=? 32))%nat
  || (n =? 133)%nat || (n =? 160)%nat.

(** [str.lower] on one code point: A-Z and 0xC0-0xDE except 0xD7. *)
Definition lower_char (c : Ascii.ascii) : Ascii.ascii :=
  let n := Ascii.nat_of_ascii c in
  if ((65 <=? n) && (n <=? 90))%nat || ((192 <=? n) && (n <=? 222) && negb (n =? 215))%nat
  then Ascii.ascii_of_nat (n + 32) else c.

(** [s.lower()]. *)
Fixpoint py_lower (s : string) : string :=
  match s with
  | EmptyString => EmptyString
  | String c s' => String (lower_char c) (py_lower s')
  end.

(** [needle in hay] for two strings. *)
Fixpoint contains (needle hay : string) : bool :=
  String.prefix needle hay ||
  match hay with
  | EmptyString => false
  | String _ h => contains needle h
  end.


Fixpoint drop_space (s : string) : string :=
  match s with
  | EmptyString => EmptyString
  | String c s' => if is_space c then drop_space s' else s
  end.

Fixpoint take_word (s : string) : string * string :=
  match s with
  | EmptyString => (EmptyString, EmptyString)
  | String c s' =>
      if is_space c then (EmptyString, s)
      else let '(w, r) := take_word s' in (String c w, r)
  end.

(** [s.split(maxsplit=1)]: leading white space is skipped, the first word
    is cut at the next white space, and the rest, after its leading white
    space, is kept as it is (trailing white space included). *)
Definition split1 (s : string) : list string :=
  match drop_space s with
  | EmptyString => []
  | s1 =>
      let '(w, r) := take_word s1 in
      match drop_space r with
      | EmptyString => [w]
      | r' => [w; r']
      end
  end.

(** *** Players ([models/player.py], [controllers/player.py]) *)

Definition json_truthy (j : json) : bool :=
  match j with
  | JNull => false
  | JBool b => b
  | JInt z => negb (Z.eqb z 0)
  | JStr s => negb (String.eqb s "")
  | JList l => match l with [] => false | _ => true end
  | JDict kv => match kv with [] => false | _ => true end
  end.

(** [k in data]. *)
Definition jhas (k : string) (kv : list (string * json)) : bool :=
  match jget k kv with Some _ => true | None => false end.

(** [Player.to_dict]. *)
Definition player_to_dict (p : Player) : json :=
  JDict [("player_id", JStr (player_id p)); ("first_name", JStr (first_name p));
         ("last_name", JStr (last_name p)); ("rating", JInt (rating p));
         ("federation", JStr (federation p)); ("email", JStr (email p));
         ("phone", JStr (phone p)); ("created_at", JStr (player_created_at p));
         ("updated_at", JStr (player_updated_at p));
         ("tournaments", JList (map JStr (tournaments p)))]%string.

(** [x or d] for a string field: a falsy value gives [d]. *)
Definition str_or (j : json) (d : string) : option string :=
  match j with
  | JStr s => Some (if String.eqb s "" then d else s)
  | _ => if json_truthy j then None else Some d
  end.

(** [rating or 0]. *)
Definition int_or_zero (j : json) : option Z :=
  match j with
  | JInt z => Some z
  | _ => if json_truthy j then None else Some 0
  end.

(** The two names [from_dict] starts from: the old format with a single
    [name] is split once on white space. *)
Definition player_names (kv : list (string * json)) : option (string * string) :=
  if jhas "name" kv && negb (jhas "first_name" kv) && negb (jhas "last_name" kv) then
    match jget "name" kv with
    | Some (JStr s) =>
        match split1 s with
        | [] => Some (""%string, ""%string)
        | [a] => Some (a, ""%string)
        | a :: b :: _ => Some (a, b)
        end
    | _ => None
    end
  else
    match jget_or "first_name" kv (JStr ""), jget_or "last_name" kv (JStr "") with
    | JStr a, JStr b => Some (a, b)
    | _, _ => None
    end.

(** [Player.from_dict]: [now0] is [datetime.now().isoformat()] and [uuid0]
    is [str(uuid.uuid4())], used by the constructor for a falsy
    [player_id]; [None] stands for an exception or a value of a type the
    field cannot hold. *)
Definition player_from_dict (now0 uuid0 : string) (j : json) : option Player :=
  match j with
  | JDict kv =>
      match player_names kv, int_or_zero (jget_or "rating" kv (JInt 0)),
            str_or (jget_or "federation" kv (JStr "")) "",
            str_or (jget_or "email" kv (JStr "")) "",
            str_or (jget_or "phone" kv (JStr "")) "",
            str_or (jget_or "player_id" kv (JStr "")) uuid0 with
      | Some (a, b), Some r, Some fed, Some em, Some ph, Some pid =>
          match jget_or "created_at" kv (JStr now0) with
          | JStr ca =>
              match jget_or "updated_at" kv (JStr ca), jget_or "tournaments" kv (JList []) with
              | JStr ua, JList ts =>
                  match map_opt str_of ts with
                  | Some ts' => Some (mkPlayer pid a b r fed em ph ca ua ts')
                  | None => None
                  end
              | _, _ => None
              end
          | _ => None
          end
      | _, _, _, _, _, _ => None
      end
  | _ => None
  end%string.

(** The filter of [controllers/player.py: search_players]; a falsy query or
    federation is no filter. *)
Definition search_match (query federation0 : option string) (min_rating max_rating : option Z)
    (p : Player) : bool :=
  match query with
  | Some q =>
      if String.eqb q "" then true
      else contains (py_lower q) (py_lower (String.append (first_name p)
                                             (String.append " " (last_name p))))
  | None => true
  end &&
  match federation0 with
  | Some f =>
      if String.eqb f "" then true
      else negb (String.eqb (federation p) "") && contains (py_lower f) (py_lower (federation p))
  | None => true
  end &&
  match min_rating with Some m => negb (rating p <? m) | None => true end &&
  match max_rating with Some m => negb (m <? rating p) | None => true end.

(** [controllers/player.py: search_players] over [all_players], the list
    [Player.get_all()] returns. *)
Definition search_players (all_players : list Player) (query federation0 : option string)
    (min_rating max_rating : option Z) : list json :=
  map player_to_dict (filter (search_match query federation0 min_rating max_rating) all_players).

(** [controllers/player.py: delete_player]; [Player.delete] removes the file
    named after the loaded [player_id]. *)
Definition delete_player (w : World) (pid : Id) : bool * World :=
  match player_file w pid with
  | None => (false, w)
  | Some p =>
      match player_file w (player_id p) with
      | Some _ => (true, mkWorld (upd (player_file w) (player_id p) None) (tournament_file w))
      | None => (false, w)
      end
  end.

Definition tournament_summary (t : Tournament) : json :=
  JDict [("tournament_id", JStr (tournament_id t)); ("name", JStr (name t));
         ("tournament_type", JStr (tt_value (tournament_type t)));
         ("start_date", JStr (start_date t)); ("is_finished", JBool (is_finished t))]%string.

(** [controllers/player.py: get_player_tournaments]. *)
Definition get_player_tournaments (w : World) (pid : Id) : list json :=
  match player_file w pid with
  | None => []
  | Some p =>
      flat_map (fun tid => match tournament_file w tid with
                           | Some t => [tournament_summary t]
                           | None => []
                           end) (tournaments p)
  end.

(** *** Creating tournaments and exporting reports *)

(** The [for tt in TournamentType] search of [create_tournament]. *)
Definition resolve_type (s : string) : option TournamentType :=
  find (fun ty => String.eqb (py_lower (tt_value ty)) (py_lower s)) [SWISS; ROUND_ROBIN; KNOCKOUT].

(** [controllers/tournament.py: create_tournament]; [uuid0] is the
    [str(uuid.uuid4())] of the constructor. *)
Definition create_tournament (e : Env) (uuid0 : string) (w : World) (nm ty_s : string)
    (nr : Z) (loc : string) (sd ed : option string) (desc : string) : option (Id * World) :=
  match resolve_type ty_s with
  | None => None
  | Some ty =>
      let sd' := match sd with
                 | Some s => if String.eqb s "" then now e else s
                 | None => now e
                 end in
      let t := mkTournament uuid0 nm ty nr loc sd' ed desc (now e) (now e) [] [] 0 false in
      let '(w1, t1) := tournament_save e w t in Some (tournament_id t1, w1)
  end.


(** White space only, no white space, and a first character that is not
    white space: the shapes [split1] cuts a string into. *)
Fixpoint all_space (s : string) : bool :=
  match s with
  | EmptyString => true
  | String c s' => is_space c && all_space s'
  end.

Fixpoint no_space (s : string) : bool :=
  match s with
  | EmptyString => true
  | String c s' => negb (is_space c) && no_space s'
  end.

Definition starts_word (s : string) : bool :=
  match s with
  | EmptyString => false
  | String c _ => negb (is_space c)
  end.

(** A previous knockout pairing that sends a player on, and a drawn one
    (which costs a random draw). *)
Definition ko_decided (p : Pairing) : bool :=
  match result p with DOUBLE_FORFEIT | ONGOING => false | _ => true end.

Definition is_draw (p : Pairing) : bool :=
  match result p with DRAW => true | _ => false end.

(** A knockout tournament registered but not started yet. *)
Definition fresh_cup : Tournament :=
  mkTournament "t4"%string "Cup"%string KNOCKOUT 3 ""%string ""%string None ""%string
    ""%string ""%string ["p1"; "p2"]%string [] 0 false.

Definition sample_player : Player :=
  mkPlayer "p1"%string "Ann"%string "Lee"%string 1500 "FRA"%string ""%string ""%string
    ""%string ""%string ["t4"%string].

(** A store with player [p1] (registered in [t4]) and the tournaments [t2]
    and [t4]. *)
Definition sample_world : World :=
  mkWorld (fun q => if String.eqb q "p1" then Some sample_player else None)
    (fun k => if String.eqb k "t2" then Some running_sample
              else if String.eqb k "t4" then Some fresh_cup else None).


Definition legacy_player : Player :=
  mkPlayer "U"%string "Ann"%string "Lee Smith"%string 0 ""%string ""%string ""%string
    "N"%string "N"%string [].

Definition empty_open : Tournament :=
  mkTournament "t5"%string "Open"%string SWISS 3 ""%string ""%string None ""%string
    ""%string ""%string [] [] 1 false.

(* ------------------------------------------------------------------ *)
(** ** General lemmas *)

Lemma find_none_forall {A} (f : A -> bool) (l : list A) :
  (forall x, In x l -> f x = false) -> find f l = None.
Proof.
  induction l as [|x l IH]; intros H; simpl; [reflexivity|].
  rewrite (H x (or_introl eq_refl)). apply IH. intros y Hy. apply H. now right.
Qed.

Lemma sumZ_app (l1 l2 : list Z) : sumZ (l1 ++ l2) = sumZ l1 + sumZ l2.
Proof. induction l1; simpl; lia. Qed.

Lemma sumZ_map_zero {A} (f : A -> Z) (l : list A) :
  (forall x, In x l -> f x = 0) -> sumZ (map f l) = 0.
Proof.
  induction l as [|x l IH]; intros H; simpl; [reflexivity|].
  rewrite H by now left. rewrite IH; [lia|]. intros y Hy. apply H. now right.
Qed.

Lemma sumZ_map_add {A} (f g : A -> Z) (l : list A) :
  sumZ (map (fun x => f x + g x) l) = sumZ (map f l) + sumZ (map g l).
Proof. induction l; simpl; lia. Qed.

Lemma sumZ_map_ext {A} (f g : A -> Z) (l : list A) :
  (forall x, In x l -> f x = g x) -> sumZ (map f l) = sumZ (map g l).
Proof.
  intros H. f_equal. apply map_ext_in. exact H.
Qed.

Lemma opt_eqb_true (o : option Id) (s : Id) : opt_eqb o s = true <-> o = Some s.
Proof.
  destruct o as [x|]; simpl; split; intros H; try discriminate.
  - apply String.eqb_eq in H. now subst.
  - inversion H. apply String.eqb_refl.
Qed.

(* ------------------------------------------------------------------ *)
(** ** Tournament.finish_tournament *)

(** [finish_tournament] keeps everything but the two stamps and sets the
    flag. *)
Lemma finish_tournament_fields (e : Env) (t : Tournament) :
  let t' := finish_tournament e t in
  is_finished t' = true /\ end_date t' = Some (now e) /\ updated_at t' = now e /\
  tournament_id t' = tournament_id t /\ name t' = name t /\
  tournament_type t' = tournament_type t /\ num_rounds t' = num_rounds t /\
  location t' = location t /\ start_date t' = start_date t /\
  description t' = description t /\ created_at t' = created_at t /\
  players t' = players t /\ rounds t' = rounds t /\
  current_round t' = current_round t.
Proof. simpl. repeat split. Qed.

(** C9 (as stated, refuted): a second [finish_tournament] on a finished
    tournament is not a no-op: it restamps the end date with the time of the
    second call. *)
Lemma finish_tournament_not_noop :
  ~ (forall (e : Env) (t : Tournament),
       is_finished t = true -> finish_tournament e t = t).
Proof.
  intros H.
  specialize (H (env_at "2024-02-01T12:00:00"%string) finished_sample eq_refl).
  unfold finish_tournament, finished_sample in H. simpl in H.
  inversion H.
Qed.

(** C9 (amended): calling [finish_tournament] on a finished tournament keeps
    [is_finished = true] and every field other than [end_date] and
    [updated_at]; those two are restamped with the time of the call. *)
Theorem finish_tournament_repeat (e : Env) (t : Tournament) :
  is_finished t = true ->
  same_but_stamps (finish_tournament e t) t /\
  is_finished (finish_tournament e t) = true /\
  end_date (finish_tournament e t) = Some (now e) /\
  updated_at (finish_tournament e t) = now e.
Proof.
  intros Hf. unfold same_but_stamps. simpl. rewrite Hf. repeat split.
Qed.

Lemma finish_tournament_repeat_witness :
  is_finished finished_sample = true /\
  same_but_stamps (finish_tournament (env_at "2024-02-01T12:00:00"%string) finished_sample)
    finished_sample.
Proof.
  split; [reflexivity|].
  apply (finish_tournament_repeat (env_at "2024-02-01T12:00:00"%string) finished_sample).
  reflexivity.
Defined.

(* ------------------------------------------------------------------ *)
(** ** Knockout without a previous round *)

(** C8: for a knockout round number [rn > 1] with no stored round [rn - 1],
    the strategy raises [ValueError] and [generate_pairings] returns [False]
    with the tournament (and its round list) unchanged. *)
Theorem knockout_missing_previous_round (e : Env) (t : Tournament)
    (rno : option Z) (k : nat) :
  let rn := match rno with Some n => n | None => current_round t end in
  tournament_type t = KNOCKOUT -> 1 < rn ->
  (forall r, In r (rounds t) -> number r <> rn - 1) ->
  knockout_generate_pairings e t rn k = Raised ValueError /\
  generate_pairings e t rno k = (false, t, k).
Proof.
  intros rn Htype Hgt Hnone.
  assert (Hko : knockout_generate_pairings e t rn k = Raised ValueError).
  { unfold knockout_generate_pairings.
    destruct (Z.eqb_spec rn 1) as [Heq|_]; [lia|].
    rewrite find_none_forall; [reflexivity|].
    intros r Hr. apply Z.eqb_neq. now apply Hnone. }
  split; [exact Hko|].
  unfold generate_pairings. fold rn.
  destruct (existsb (fun r => Z.eqb (number r) rn) (rounds t)); [reflexivity|].
  rewrite Htype. simpl. rewrite Hko. reflexivity.
Qed.

Lemma knockout_missing_previous_round_witness :
  knockout_generate_pairings (env_at "T"%string) ko_without_round1 2 0 = Raised ValueError /\
  generate_pairings (env_at "T"%string) ko_without_round1 None 0 = (false, ko_without_round1, 0%nat).
Proof.
  apply (knockout_missing_previous_round (env_at "T"%string) ko_without_round1 None 0%nat).
  - reflexivity.
  - simpl. lia.
  - intros r Hr. simpl in Hr. contradiction.
Defined.

(* ------------------------------------------------------------------ *)
(** ** Round Robin determinism *)

(** C6: the Round Robin pairings depend only on the registered player list
    and the round number: not on the clock, the player store, the random
    source, the stored rounds or any other field. *)
Theorem round_robin_deterministic (e1 e2 : Env) (t1 t2 : Tournament) (rn : Z)
    (k1 k2 : nat) :
  players t1 = players t2 ->
  outcome_pairings (round_robin_generate_pairings e1 t1 rn k1) =
  outcome_pairings (round_robin_generate_pairings e2 t2 rn k2).
Proof.
  intros Hp. unfold round_robin_generate_pairings. rewrite Hp.
  destruct (if Nat.odd _ then _ else _) as [|p0 rest]; [reflexivity|].
  destruct (rotate_times _ rest); reflexivity.
Qed.

Lemma round_robin_deterministic_witness :
  outcome_pairings (round_robin_generate_pairings (env_at "T1"%string)
                      ko_without_round1 3 0) =
  outcome_pairings (round_robin_generate_pairings
                      (mkEnv "T2"%string (fun _ => Some 2000) (fun n => Z.of_nat n))
                      (set_rounds ko_without_round1 [mkRound 1 [] None None]) 3 7).
Proof.
  apply round_robin_deterministic. reflexivity.
Defined.

(* ------------------------------------------------------------------ *)
(** ** Score conservation *)

Lemma nodup_app_disjoint {A} (l1 l2 : list A) (x : A) :
  NoDup (l1 ++ l2) -> In x l1 -> ~ In x l2.
Proof.
  induction l1 as [|y l1 IH]; simpl; intros Hnd Hin; [contradiction|].
  inversion Hnd as [|? ? Hy Hnd']; subst.
  destruct Hin as [<-|Hin].
  - intros H2. apply Hy. apply in_or_app. now right.
  - now apply IH.
Qed.

Lemma pairing_points_absent (p : Pairing) (x : Id) :
  ~ In x (pairing_ids p) -> pairing_points p x = 0.
Proof.
  unfold pairing_points, pairing_ids. intros Hn.
  destruct (opt_eqb (white_id p) x) eqn:Hw.
  { apply opt_eqb_true in Hw. exfalso. apply Hn. rewrite Hw. simpl. now left. }
  destruct (opt_eqb (black_id p) x) eqn:Hb; [|reflexivity].
  apply opt_eqb_true in Hb. exfalso. apply Hn. rewrite Hb. apply in_or_app. right.
  simpl. now left.
Qed.

(** Swapping the two sums: with no player twice, the sum over players is the
    sum over pairings of what each pairing hands out. *)
Lemma score_sum_by_pairings (ps : list Pairing) :
  NoDup (flat_map pairing_ids ps) ->
  sumZ (map (fun x => sumZ (map (fun p => pairing_points p x) ps))
          (flat_map pairing_ids ps)) =
  sumZ (map pairing_value ps).
Proof.
  induction ps as [|a ps IH]; intros Hnd; [reflexivity|].
  simpl flat_map in *. rewrite map_app, sumZ_app. simpl map.
  rewrite !sumZ_map_add. simpl.
  rewrite (sumZ_map_zero (fun x => sumZ (map (fun p => pairing_points p x) ps))
             (pairing_ids a)).
  2:{ intros x Hx. apply sumZ_map_zero. intros q Hq. apply pairing_points_absent.
      intros Hxq. eapply nodup_app_disjoint; [exact Hnd|exact Hx|].
      apply in_flat_map. now exists q. }
  rewrite (sumZ_map_zero (pairing_points a) (flat_map pairing_ids ps)).
  2:{ intros x Hx. apply pairing_points_absent. intros Hxa.
      eapply nodup_app_disjoint; [exact Hnd|exact Hxa|exact Hx]. }
  rewrite IH by (eapply NoDup_app_remove_l; exact Hnd).
  unfold pairing_value. lia.
Qed.

Lemma pairing_value_cases (p : Pairing) :
  NoDup (pairing_ids p) -> white_id p <> None -> result p <> ONGOING ->
  (is_bye p = true -> result p = WHITE_WIN) ->
  pairing_value p =
    2 * ((if is_real p then 1 else 0) + (if is_bye p then 1 else 0)
         - (if is_real p && is_double_forfeit p then 1 else 0)).
Proof.
  destruct p as [[w|] [b|] bn res]; simpl; intros Hnd Hw Hres Hbye;
    try (exfalso; now apply Hw).
  - unfold pairing_value, pairing_ids, pairing_points. simpl.
    assert (Hwb : w <> b).
    { inversion Hnd as [|? ? Hn]; subst. intros ->. apply Hn. now left. }
    rewrite String.eqb_refl.
    destruct (String.eqb_spec w b) as [|_]; [contradiction|].
    rewrite String.eqb_refl.
    destruct res; simpl; try reflexivity. contradiction.
  - specialize (Hbye eq_refl). subst res.
    unfold pairing_value, pairing_ids, pairing_points. simpl.
    rewrite String.eqb_refl. reflexivity.
Qed.

(** C3 (as stated, refuted): a finished round whose only game is a double
    forfeit has one real game but hands out no point. *)
Lemma score_conservation_fails :
  ~ (forall r : Round,
       (forall p, In p (pairings r) -> result p <> ONGOING) ->
       round_score_sum r =
       2 * Z.of_nat (count_real (pairings r) + count_byes (pairings r))).
Proof.
  intros H.
  assert (Hr : round_score_sum double_forfeit_round = 0) by reflexivity.
  assert (Hc : count_real (pairings double_forfeit_round) = 1%nat) by reflexivity.
  specialize (H double_forfeit_round).
  rewrite Hr, Hc in H. simpl in H.
  discriminate H. intros p [<-|[]]. discriminate.
Qed.

Lemma sumZ_pairing_value (ps : list Pairing) :
  (forall p, In p ps ->
     pairing_value p =
       2 * ((if is_real p then 1 else 0) + (if is_bye p then 1 else 0)
            - (if is_real p && is_double_forfeit p then 1 else 0))) ->
  sumZ (map pairing_value ps) =
  2 * (Z.of_nat (count_real ps) + Z.of_nat (count_byes ps)
       - Z.of_nat (count_double_forfeits ps)).
Proof.
  unfold count_real, count_byes, count_double_forfeits.
  induction ps as [|p ps IH]; intros H; [reflexivity|].
  cbn [map sumZ filter]. rewrite H by now left.
  rewrite IH by (intros q Hq; apply H; now right).
  destruct (is_real p), (is_bye p), (is_double_forfeit p);
    cbn [andb List.length]; rewrite ?Nat2Z.inj_succ; lia.
Qed.

(** C3 (amended): in a round where each player appears once, every pairing
    has a white player, no result is ONGOING and every bye still carries its
    creation result WHITE_WIN, the round hands out [k + b - d] points
    (counted here in half points), [d] being the number of real games ended
    by a double forfeit, which awards no point. *)
Theorem score_conservation (r : Round) :
  NoDup (round_ids r) ->
  (forall p, In p (pairings r) -> white_id p <> None) ->
  (forall p, In p (pairings r) -> result p <> ONGOING) ->
  (forall p, In p (pairings r) -> is_bye p = true -> result p = WHITE_WIN) ->
  round_score_sum r =
  2 * (Z.of_nat (count_real (pairings r)) + Z.of_nat (count_byes (pairings r))
       - Z.of_nat (count_double_forfeits (pairings r))).
Proof.
  intros Hnd Hw Hres Hbye.
  unfold round_score_sum, round_points, round_ids in *.
  rewrite score_sum_by_pairings by exact Hnd.
  apply sumZ_pairing_value. intros p Hp.
  apply pairing_value_cases; auto.
  apply in_split in Hp. destruct Hp as [l1 [l2 Heq]]. rewrite Heq in Hnd.
  rewrite flat_map_app in Hnd. simpl in Hnd.
  apply NoDup_app_remove_l in Hnd. eapply NoDup_app_remove_r. exact Hnd.
Qed.

Lemma score_conservation_witness :
  round_score_sum finished_round = 2 * (3 + 1 - 1).
Proof.
  apply (score_conservation finished_round).
  - vm_compute.
    repeat constructor; simpl; intros H; repeat destruct H as [H|H];
      try discriminate H; exact H.
  - intros p Hp. simpl in Hp. intuition (subst; discriminate).
  - intros p Hp. simpl in Hp. intuition (subst; discriminate).
  - intros p Hp Hb. simpl in Hp.
    repeat destruct Hp as [<-|Hp]; try discriminate Hb; try reflexivity.
    contradiction.
Defined.

(* ------------------------------------------------------------------ *)
(** ** update_result *)

Lemma result_of_string_none (s : string) :
  ~ In s canonical_tokens -> result_of_string s = None.
Proof.
  intros Hn. unfold result_of_string.
  repeat match goal with
  | |- context [String.eqb s ?c] =>
      destruct (String.eqb_spec s c) as [->|_];
      [exfalso; apply Hn; simpl; tauto|]
  end.
  reflexivity.
Qed.

Lemma result_of_string_some (s : string) :
  In s canonical_tokens -> exists v, result_of_string s = Some v /\ result_value v = s.
Proof.
  simpl. intros H. repeat destruct H as [<-|H];
    [exists WHITE_WIN | exists BLACK_WIN | exists DRAW | exists FORFEIT_WHITE
    | exists FORFEIT_BLACK | exists DOUBLE_FORFEIT | exists ONGOING | contradiction];
    split; reflexivity.
Qed.

Lemma find_middle {A} (f : A -> bool) (pre post : list A) (x : A) :
  (forall y, In y pre -> f y = false) -> f x = true ->
  find f (pre ++ x :: post) = Some x.
Proof.
  induction pre as [|y pre IH]; intros Hpre Hx; simpl.
  - now rewrite Hx.
  - rewrite Hpre by now left. apply IH; auto. intros z Hz. apply Hpre. now right.
Qed.

Lemma update_first_middle {A} (f : A -> bool) (g : A -> A) (pre post : list A) (x : A) :
  (forall y, In y pre -> f y = false) -> f x = true ->
  update_first f g (pre ++ x :: post) = pre ++ g x :: post.
Proof.
  induction pre as [|y pre IH]; intros Hpre Hx; simpl.
  - now rewrite Hx.
  - rewrite Hpre by now left. f_equal. apply IH; auto.
    intros z Hz. apply Hpre. now right.
Qed.

Lemma board_is_false (bn : Z) (p : Pairing) :
  board_number p <> Some bn -> board_is bn p = false.
Proof.
  unfold board_is. destruct (board_number p) as [b|]; [|reflexivity].
  intros H. apply Z.eqb_neq. intros ->. now apply H.
Qed.

(** C7: [update_result] fails, leaving the tournament untouched, when no
    stored round has the number, when that round has no pairing with the
    board number, or when the token is not canonical; with a valid round,
    board and token it sets the result of exactly that pairing (the first
    with that board number in the first round with that number) and
    succeeds. *)
Theorem update_result_spec (e : Env) (t : Tournament) (rn bn : Z) (res : string) :
  ((forall r, In r (rounds t) -> number r <> rn) ->
     update_result e t rn bn res = (false, t)) /\
  (forall r, find (fun r => Z.eqb (number r) rn) (rounds t) = Some r ->
     (forall p, In p (pairings r) -> board_number p <> Some bn) ->
     update_result e t rn bn res = (false, t)) /\
  (~ In res canonical_tokens -> update_result e t rn bn res = (false, t)) /\
  (forall pre r post pp p pq,
     rounds t = pre ++ r :: post ->
     (forall r', In r' pre -> number r' <> rn) -> number r = rn ->
     pairings r = pp ++ p :: pq ->
     (forall p', In p' pp -> board_number p' <> Some bn) ->
     board_number p = Some bn ->
     In res canonical_tokens ->
     exists v, result_value v = res /\
       update_result e t rn bn res =
       (true, save e (set_rounds t
                (pre ++ set_pairings r (pp ++ set_result v p :: pq) :: post)))).
Proof.
  split; [|split; [|split]].
  - intros Hnone. unfold update_result.
    rewrite find_none_forall; [reflexivity|].
    intros r Hr. apply Z.eqb_neq. now apply Hnone.
  - intros r Hfind Hnob. unfold update_result. rewrite Hfind.
    rewrite find_none_forall; [reflexivity|].
    intros p Hp. apply board_is_false. now apply Hnob.
  - intros Htok. unfold update_result.
    destruct (find _ (rounds t)); [|reflexivity].
    destruct (find _ (pairings r)); [|reflexivity].
    now rewrite result_of_string_none.
  - intros pre r post pp p pq Hrs Hpre Hr Hps Hpp Hp Htok.
    destruct (result_of_string_some res Htok) as [v [Hv Hval]].
    exists v. split; [exact Hval|].
    assert (Hfr : forall r', In r' pre -> Z.eqb (number r') rn = false).
    { intros r' Hr'. apply Z.eqb_neq. now apply Hpre. }
    assert (Hfp : forall p', In p' pp -> board_is bn p' = false).
    { intros p' Hp'. apply board_is_false. now apply Hpp. }
    assert (Hr' : Z.eqb (number r) rn = true) by (apply Z.eqb_eq; exact Hr).
    assert (Hp' : board_is bn p = true) by (unfold board_is; rewrite Hp; apply Z.eqb_refl).
    unfold update_result. rewrite Hrs.
    rewrite (find_middle _ pre post r Hfr Hr').
    rewrite Hps, (find_middle _ pp pq p Hfp Hp'), Hv.
    rewrite (update_first_middle _ _ pre post r Hfr Hr'). simpl.
    rewrite Hps, (update_first_middle _ _ pp pq p Hfp Hp'). reflexivity.
Qed.

Lemma update_result_spec_witness :
  update_result (env_at "T"%string) running_sample 5 1 "1-0"%string = (false, running_sample) /\
  update_result (env_at "T"%string) running_sample 1 7 "1-0"%string = (false, running_sample) /\
  update_result (env_at "T"%string) running_sample 1 2 "2-0"%string = (false, running_sample) /\
  exists v, result_value v = "1/2-1/2"%string /\
    update_result (env_at "T"%string) running_sample 1 2 "1/2-1/2"%string =
    (true, save (env_at "T"%string) (set_rounds running_sample
       [set_pairings (hd (mkRound 0 [] None None) (rounds running_sample))
          [mkPairing (Some "p1"%string) (Some "p4"%string) (Some 1) ONGOING;
           set_result v (mkPairing (Some "p2"%string) (Some "p3"%string) (Some 2) ONGOING)]])).
Proof.
  split; [|split; [|split]].
  - destruct (update_result_spec (env_at "T"%string) running_sample 5 1 "1-0"%string)
      as [Ha _].
    apply Ha. intros r Hr. simpl in Hr. destruct Hr as [<-|[]]. simpl. lia.
  - destruct (update_result_spec (env_at "T"%string) running_sample 1 7 "1-0"%string)
      as [_ [Hb _]].
    apply Hb with (r := hd (mkRound 0 [] None None) (rounds running_sample)).
    + reflexivity.
    + intros p Hp. simpl in Hp. destruct Hp as [<-|[<-|[]]]; simpl; congruence.
  - destruct (update_result_spec (env_at "T"%string) running_sample 1 2 "2-0"%string)
      as [_ [_ [Hc _]]].
    apply Hc. simpl. intros H. repeat destruct H as [H|H]; try discriminate H. exact H.
  - destruct (update_result_spec (env_at "T"%string) running_sample 1 2
      "1/2-1/2"%string) as [_ [_ [_ Hd]]].
    apply (Hd [] (hd (mkRound 0 [] None None) (rounds running_sample)) []
      [mkPairing (Some "p1"%string) (Some "p4"%string) (Some 1) ONGOING]
      (mkPairing (Some "p2"%string) (Some "p3"%string) (Some 2) ONGOING) []).
    + reflexivity.
    + intros r' [].
    + reflexivity.
    + reflexivity.
    + intros p' [<-|[]]. simpl. congruence.
    + reflexivity.
    + simpl. tauto.
Defined.

(* ------------------------------------------------------------------ *)
(** ** Sorting *)

Lemma insert_desc_perm {A} (key : A -> Z) (x : A) (l : list A) :
  Permutation (insert_desc key x l) (x :: l).
Proof.
  induction l as [|y l IH]; simpl; [reflexivity|].
  destruct (key x <=? key y); [|reflexivity].
  rewrite IH. apply perm_swap.
Qed.

Lemma sort_desc_perm {A} (key : A -> Z) (l : list A) :
  Permutation (sort_desc key l) l.
Proof.
  unfold sort_desc.
  assert (H : forall acc, Permutation (fold_left (fun acc x => insert_desc key x acc) l acc)
                                      (acc ++ l)).
  { induction l as [|x l IH]; intros acc; simpl.
    - now rewrite app_nil_r.
    - rewrite IH, insert_desc_perm. apply Permutation_middle. }
  apply H.
Qed.

Lemma insert_asc_perm {A} (key : A -> Z) (x : A) (l : list A) :
  Permutation (insert_asc key x l) (x :: l).
Proof.
  induction l as [|y l IH]; simpl; [reflexivity|].
  destruct (key y <=? key x); [|reflexivity].
  rewrite IH. apply perm_swap.
Qed.

Lemma sort_asc_perm {A} (key : A -> Z) (l : list A) :
  Permutation (sort_asc key l) l.
Proof.
  unfold sort_asc.
  assert (H : forall acc, Permutation (fold_left (fun acc x => insert_asc key x acc) l acc)
                                      (acc ++ l)).
  { induction l as [|x l IH]; intros acc; simpl.
    - now rewrite app_nil_r.
    - rewrite IH, insert_asc_perm. apply Permutation_middle. }
  apply H.
Qed.

(** The score table of the Swiss strategy answers each player's score. *)
Lemma lookup_score_table (f : Id -> Z) (l : list (Id * Z)) (x : Id) :
  (forall q s, In (q, s) l -> s = f q) -> In x (map fst l) -> lookup_score l x = f x.
Proof.
  induction l as [|[q s] l IH]; simpl; intros Hl Hx; [contradiction|].
  destruct (String.eqb_spec q x) as [->|Hne].
  - now apply Hl; left.
  - apply IH; [intros q' s' H; apply Hl; now right|].
    destruct Hx as [->|Hx]; [contradiction|exact Hx].
Qed.

Lemma swiss_table_score (t : Tournament) (x : Id) :
  In x (players t) -> lookup_score (swiss_table t) x = get_player_score t x.
Proof.
  intros Hx. apply lookup_score_table.
  - intros q s Hin. unfold swiss_table in Hin.
    apply (Permutation_in _ (sort_desc_perm _ _)) in Hin.
    apply in_map_iff in Hin. destruct Hin as [y [Heq _]]. now inversion Heq.
  - unfold swiss_table.
    apply (Permutation_in _ (Permutation_map fst (Permutation_sym (sort_desc_perm _ _)))).
    rewrite map_map. simpl. now rewrite map_id.
Qed.

(* ------------------------------------------------------------------ *)
(** ** Swiss: choice of the opponent *)

Lemma mem_In (x : Id) (l : list Id) : mem x l = true <-> In x l.
Proof.
  unfold mem. rewrite existsb_exists. split.
  - intros [y [Hy Heq]]. apply String.eqb_eq in Heq. now subst.
  - intros H. exists x. split; [exact H|]. apply String.eqb_refl.
Qed.

Lemma mem_notin (x : Id) (l : list Id) : mem x l = false <-> ~ In x l.
Proof.
  rewrite <- mem_In. destruct (mem x l); split; congruence.
Qed.

Section Scan.
Variables (prev : list Id) (ps : list (Id * Z)) (cur : Id).

Lemma scan_best_spec (cands : list Id) (best : option (Id * Z)) :
  (forall b d, best = Some (b, d) -> d = dist ps cur b /\ mem b prev = false) ->
  match scan_best prev ps cur cands best with
  | None => best = None /\ (forall c, In c cands -> mem c prev = true)
  | Some (b, d) =>
      d = dist ps cur b /\ mem b prev = false /\ (In b cands \/ best = Some (b, d)) /\
      (forall c, In c cands -> mem c prev = false -> d <= dist ps cur c) /\
      (forall b0 d0, best = Some (b0, d0) -> d <= d0)
  end.
Proof.
  revert best. induction cands as [|c cs IH]; intros best Hinv; simpl.
  - destruct best as [[b d]|].
    + destruct (Hinv b d eq_refl) as [Hd Hm].
      split; [exact Hd|]. split; [exact Hm|]. split; [now right|].
      split; [intros c []|]. intros b0 d0 Heq. inversion Heq. lia.
    + split; [reflexivity|]. intros c [].
  - destruct (mem c prev) eqn:Hm.
    + specialize (IH best Hinv).
      destruct (scan_best prev ps cur cs best) as [[b d]|].
      * destruct IH as (H1 & H2 & H3 & H4 & H5).
        split; [exact H1|]. split; [exact H2|]. split.
        { destruct H3; [left; now right|now right]. }
        split; [|exact H5].
        intros c' [<-|Hc'] Hm'; [congruence|now apply H4].
      * destruct IH as [H1 H2]. split; [exact H1|].
        intros c' [<-|Hc']; [exact Hm|now apply H2].
    + fold (dist ps cur c).
      assert (Hnew : forall b' d', Some (c, dist ps cur c) = Some (b', d') ->
                       d' = dist ps cur b' /\ mem b' prev = false).
      { intros b' d' Heq. inversion Heq. now subst. }
      destruct best as [[b0 d0]|].
      * destruct (Hinv b0 d0 eq_refl) as [Hd0 Hm0].
        destruct (Z.ltb_spec (dist ps cur c) d0) as [Hlt|Hge].
        -- specialize (IH (Some (c, dist ps cur c)) Hnew).
           destruct (scan_best prev ps cur cs (Some (c, dist ps cur c))) as [[b d]|].
           ++ destruct IH as (H1 & H2 & H3 & H4 & H5).
              assert (Hdc : d <= dist ps cur c) by (now apply (H5 c)).
              split; [exact H1|]. split; [exact H2|]. split.
              { destruct H3 as [H3|H3]; [left; now right|].
                inversion H3; subst. left; now left. }
              split.
              ** intros c' [<-|Hc'] Hm'; [exact Hdc|now apply H4].
              ** intros b1 d1 Heq. inversion Heq; subst. lia.
           ++ destruct IH as [H1 _]. discriminate.
        -- specialize (IH (Some (b0, d0)) Hinv).
           destruct (scan_best prev ps cur cs (Some (b0, d0))) as [[b d]|].
           ++ destruct IH as (H1 & H2 & H3 & H4 & H5).
              assert (Hd : d <= d0) by (now apply (H5 b0)).
              split; [exact H1|]. split; [exact H2|]. split.
              { destruct H3; [left; now right|now right]. }
              split; [|exact H5].
              intros c' [<-|Hc'] Hm'; [lia|now apply H4].
           ++ destruct IH as [H1 _]. discriminate.
      * specialize (IH (Some (c, dist ps cur c)) Hnew).
        destruct (scan_best prev ps cur cs (Some (c, dist ps cur c))) as [[b d]|].
        -- destruct IH as (H1 & H2 & H3 & H4 & H5).
           assert (Hdc : d <= dist ps cur c) by (now apply (H5 c)).
           split; [exact H1|]. split; [exact H2|]. split.
           { destruct H3 as [H3|H3]; [left; now right|].
             inversion H3; subst. left; now left. }
           split.
           ++ intros c' [<-|Hc'] Hm'; [exact Hdc|now apply H4].
           ++ intros b1 d1 Heq. discriminate.
        -- destruct IH as [H1 _]. discriminate.
Qed.

Lemma choose_opponent_spec (unpaired : list Id) :
  unpaired <> [] ->
  exists b, choose_opponent prev ps cur unpaired = Some b /\ In b unpaired /\
    ((exists c, In c unpaired /\ mem c prev = false) ->
       mem b prev = false /\
       forall c, In c unpaired -> mem c prev = false -> dist ps cur b <= dist ps cur c) /\
    ((forall c, In c unpaired -> mem c prev = true) -> Some b = hd_error unpaired).
Proof.
  intros Hne. unfold choose_opponent.
  pose proof (scan_best_spec unpaired None) as Hs.
  destruct (scan_best prev ps cur unpaired None) as [[b d]|].
  - destruct Hs as (H1 & H2 & H3 & H4 & _); [intros; discriminate|].
    exists b. split; [reflexivity|]. split.
    { destruct H3; [assumption|discriminate]. }
    split.
    + intros _. split; [exact H2|]. intros c Hc Hm. subst d. now apply H4.
    + intros Hall. exfalso. destruct H3 as [H3|H3]; [|discriminate].
      rewrite (Hall b H3) in H2. discriminate.
  - destruct Hs as [_ Hall]; [intros; discriminate|].
    destruct unpaired as [|u us]; [contradiction|].
    exists u. split; [reflexivity|]. split; [now left|]. split.
    + intros [c [Hc Hm]]. rewrite (Hall c Hc) in Hm. discriminate.
    + intros _. reflexivity.
Qed.

End Scan.

(** C4: each step of the Swiss greedy loop chooses, for the next unpaired
    player [cur], an opponent [b] among the remaining players [rest]: when
    some remaining player is not a previous opponent of [cur] (per
    [get_player_opponents] over all stored rounds), [b] is not one either
    and has the smallest absolute cumulative-score difference among those;
    when all are previous opponents, [b] is the first remaining player.  The
    loop then pairs [cur] with [b] and removes [b] (IDs are truthy). *)
Theorem swiss_greedy_choice (e : Env) (t : Tournament) (fuel : nat) (cur : Id)
    (rest : list Id) (board : Z) (k : nat) (acc : list Pairing) :
  In cur (players t) -> (forall c, In c rest -> In c (players t)) -> rest <> [] ->
  exists b,
    choose_opponent (get_player_opponents t cur) (swiss_table t) cur rest = Some b /\
    In b rest /\
    ((exists c, In c rest /\ ~ In c (get_player_opponents t cur)) ->
       ~ In b (get_player_opponents t cur) /\
       forall c, In c rest -> ~ In c (get_player_opponents t cur) ->
         Z.abs (get_player_score t cur - get_player_score t b) <=
         Z.abs (get_player_score t cur - get_player_score t c)) /\
    ((forall c, In c rest -> In c (get_player_opponents t cur)) ->
       Some b = hd_error rest) /\
    (truthy (Some b) = true ->
     exists w bl k',
       ((w, bl) = (cur, b) \/ (w, bl) = (b, cur)) /\
       swiss_loop e t (swiss_table t) (S fuel) (cur :: rest) board k acc =
       swiss_loop e t (swiss_table t) fuel (remove_first b rest) (board + 1) k'
         (acc ++ [mkPairing (Some w) (Some bl) (Some board) ONGOING])).
Proof.
  intros Hcur Hrest Hne.
  destruct (choose_opponent_spec (get_player_opponents t cur) (swiss_table t) cur rest Hne)
    as [b (Hc & Hin & Hmin & Hhd)].
  exists b. split; [exact Hc|]. split; [exact Hin|]. split; [|split].
  - intros [c [Hc1 Hc2]].
    destruct Hmin as [Hb Hle]; [exists c; split; [exact Hc1|]; now apply mem_notin|].
    split; [now apply mem_notin|].
    intros c' Hc' Hnc'. specialize (Hle c' Hc' (proj2 (mem_notin _ _) Hnc')).
    unfold dist in Hle. rewrite !swiss_table_score in Hle; auto.
  - intros Hall. apply Hhd. intros c Hc'. apply mem_In. now apply Hall.
  - intros Htr. destruct rest as [|r1 rs]; [contradiction|].
    cbn [swiss_loop]. rewrite Hc, Htr.
    destruct (swiss_ratings e cur b) as [rc ro].
    destruct (random e k) as [x k'].
    exists (if (if rc <? ro then rand_lt x 55 100 else rand_lt x 45 100) then b else cur),
           (if (if rc <? ro then rand_lt x 55 100 else rand_lt x 45 100) then cur else b), k'.
    destruct (if rc <? ro then rand_lt x 55 100 else rand_lt x 45 100);
      split; auto.
Qed.

Lemma swiss_greedy_choice_witness :
  exists b,
    choose_opponent (get_player_opponents swiss_history "p1"%string)
      (swiss_table swiss_history) "p1"%string ["p3"; "p2"; "p4"]%string = Some b /\
    ~ In b (get_player_opponents swiss_history "p1"%string).
Proof.
  destruct (swiss_greedy_choice (env_at "T"%string) swiss_history 2 "p1"%string
              ["p3"; "p2"; "p4"]%string 1 0 [])
    as [b (Hc & _ & Hmin & _)].
  - simpl. tauto.
  - intros c Hc. simpl in *. tauto.
  - discriminate.
  - exists b. split; [exact Hc|].
    apply Hmin. exists "p3"%string. split; [simpl; tauto|].
    vm_compute. intros [H|H]; [discriminate H|exact H].
Defined.

(* ------------------------------------------------------------------ *)
(** ** Knockout advancement *)

Lemma renumber_ids (i : Z) (ps : list Pairing) :
  flat_map pairing_ids (renumber i ps) = flat_map pairing_ids ps.
Proof.
  revert i. induction ps as [|p ps IH]; intros i; simpl; [reflexivity|].
  destruct (black_id p) eqn:Hb; simpl; rewrite IH; [|reflexivity].
  unfold pairing_ids. simpl. now rewrite Hb.
Qed.

Lemma flat_map_unique {A B} (f : A -> list B) (l : list A) (p q : A) (x : B) :
  NoDup (flat_map f l) -> In p l -> In q l -> In x (f p) -> In x (f q) -> p = q.
Proof.
  induction l as [|a l IH]; simpl; intros Hnd Hp Hq Hxp Hxq; [contradiction|].
  destruct Hp as [<-|Hp], Hq as [<-|Hq]; try reflexivity.
  - exfalso. eapply nodup_app_disjoint; [exact Hnd|exact Hxp|].
    apply in_flat_map. now exists q.
  - exfalso. eapply nodup_app_disjoint; [exact Hnd|exact Hxq|].
    apply in_flat_map. now exists p.
  - apply IH; auto. eapply NoDup_app_remove_l. exact Hnd.
Qed.

(** Every winner is a player of a decided or drawn pairing, and the winners
    are distinct when the pairings mention each player once. *)
Lemma ko_winners_spec (e : Env) (ps : list Pairing) (k : nat) :
  forall ws k', ko_winners e ps k = (ws, k') ->
  (forall x, In x (flat_map opt_list ws) ->
     exists p, In p ps /\ In x (pairing_ids p) /\
       ((result p = WHITE_WIN \/ result p = FORFEIT_WHITE) /\ white_id p = Some x \/
        (result p = BLACK_WIN \/ result p = FORFEIT_BLACK) /\ black_id p = Some x \/
        result p = DRAW)) /\
  (NoDup (flat_map pairing_ids ps) -> NoDup (flat_map opt_list ws)).
Proof.
  revert k. induction ps as [|p ps IH]; intros k ws k' Hw.
  - simpl in Hw. inversion Hw; subst. split; [intros x []|intros _; constructor].
  - assert (Hstep : forall w ws0 k0 k1,
               ko_winners e ps k0 = (ws0, k1) -> ws = w :: ws0 ->
               (forall x, In x (opt_list w) ->
                  In x (pairing_ids p) /\
                  ((result p = WHITE_WIN \/ result p = FORFEIT_WHITE) /\ white_id p = Some x \/
                   (result p = BLACK_WIN \/ result p = FORFEIT_BLACK) /\ black_id p = Some x \/
                   result p = DRAW)) ->
               (forall x, In x (flat_map opt_list ws) ->
                  exists q, In q (p :: ps) /\ In x (pairing_ids q) /\
                    ((result q = WHITE_WIN \/ result q = FORFEIT_WHITE) /\ white_id q = Some x \/
                     (result q = BLACK_WIN \/ result q = FORFEIT_BLACK) /\ black_id q = Some x \/
                     result q = DRAW)) /\
               (NoDup (flat_map pairing_ids (p :: ps)) -> NoDup (flat_map opt_list ws))).
    { intros w ws0 k0 k1 Hrec -> Hw0.
      destruct (IH k0 ws0 k1 Hrec) as [Hin Hnd].
      split.
      - intros x Hx. simpl in Hx. apply in_app_or in Hx. destruct Hx as [Hx|Hx].
        + destruct (Hw0 x Hx) as [H1 H2]. exists p. split; [now left|]. auto.
        + destruct (Hin x Hx) as [q (Hq & H1 & H2)]. exists q. split; [now right|]. auto.
      - intros Hnd0. simpl in Hnd0 |- *.
        apply NoDup_app.
        + destruct w; simpl; repeat constructor; auto.
        + apply Hnd. eapply NoDup_app_remove_l. exact Hnd0.
        + intros x Hx Hx'. destruct (Hw0 x Hx) as [Hxp _].
          destruct (Hin x Hx') as [q (Hq & Hxq & _)].
          eapply nodup_app_disjoint; [exact Hnd0|exact Hxp|].
          apply in_flat_map. now exists q. }
    simpl in Hw. destruct (result p) eqn:Hr.
    + destruct (ko_winners e ps k) as [ws0 k1] eqn:Hrec. inversion Hw; subst.
      apply (Hstep (white_id p) ws0 k k'); auto.
      intros x Hx. destruct (white_id p) eqn:Hwp; simpl in Hx; [|contradiction].
      destruct Hx as [<-|[]]. unfold pairing_ids. rewrite Hwp. simpl. auto.
    + destruct (ko_winners e ps k) as [ws0 k1] eqn:Hrec. inversion Hw; subst.
      apply (Hstep (black_id p) ws0 k k'); auto.
      intros x Hx. destruct (black_id p) eqn:Hbp; simpl in Hx; [|contradiction].
      destruct Hx as [<-|[]]. unfold pairing_ids. rewrite Hbp.
      split; [apply in_or_app; right; now left|]. auto.
    + destruct (ko_winners e ps (S k)) as [ws0 k1] eqn:Hrec. inversion Hw; subst.
      apply (Hstep (if rand_lt (rnd e k) 1 2 then white_id p else black_id p)
               ws0 (S k) k'); auto.
      intros x Hx. split; [|auto].
      unfold pairing_ids.
      destruct (rand_lt (rnd e k) 1 2); apply in_or_app; [left|right]; exact Hx.
    + destruct (ko_winners e ps k) as [ws0 k1] eqn:Hrec. inversion Hw; subst.
      apply (Hstep (white_id p) ws0 k k'); auto.
      intros x Hx. destruct (white_id p) eqn:Hwp; simpl in Hx; [|contradiction].
      destruct Hx as [<-|[]]. unfold pairing_ids. rewrite Hwp. simpl. auto.
    + destruct (ko_winners e ps k) as [ws0 k1] eqn:Hrec. inversion Hw; subst.
      apply (Hstep (black_id p) ws0 k k'); auto.
      intros x Hx. destruct (black_id p) eqn:Hbp; simpl in Hx; [|contradiction].
      destruct Hx as [<-|[]]. unfold pairing_ids. rewrite Hbp.
      split; [apply in_or_app; right; now left|]. auto.
    + destruct (IH k ws k' Hw) as [Hin Hnd]. split.
      * intros x Hx. destruct (Hin x Hx) as [q (Hq & H)]. exists q. split; [now right|exact H].
      * intros Hnd0. apply Hnd. eapply NoDup_app_remove_l. exact Hnd0.
    + destruct (IH k ws k' Hw) as [Hin Hnd]. split.
      * intros x Hx. destruct (Hin x Hx) as [q (Hq & H)]. exists q. split; [now right|exact H].
      * intros Hnd0. apply Hnd. eapply NoDup_app_remove_l. exact Hnd0.
Qed.

(** Pairing the winners two by two mentions exactly the winners. *)
Lemma ko_pair_winners_ids (e : Env) (ws : list (option Id)) (board : Z) (k : nat) :
  Permutation (flat_map pairing_ids (fst (ko_pair_winners e ws board k)))
              (flat_map opt_list ws).
Proof.
  assert (H : forall n ws board k, (List.length ws <= n)%nat ->
    Permutation (flat_map pairing_ids (fst (ko_pair_winners e ws board k)))
                (flat_map opt_list ws)).
  { induction n as [|n IH]; intros ws0 board0 k0 Hlen.
    - destruct ws0; [reflexivity|simpl in Hlen; lia].
    - destruct ws0 as [|w1 [|w2 rest]].
      + reflexivity.
      + simpl. unfold pairing_ids. simpl. now rewrite app_nil_r.
      + simpl.
        destruct (ko_pair_winners e rest (board0 + 1) (S k0)) as [ps k2] eqn:Hrec.
        assert (IHr := IH rest (board0 + 1) (S k0) ltac:(simpl in Hlen; lia)).
        rewrite Hrec in IHr. simpl in IHr |- *. unfold pairing_ids. simpl.
        destruct (rand_lt (rnd e k0) 1 2); simpl.
        * rewrite app_assoc. apply Permutation_app; [|exact IHr].
          destruct w1, w2; simpl; try reflexivity. apply perm_swap.
        * rewrite app_assoc. apply Permutation_app; [reflexivity|exact IHr]. }
  apply (H (List.length ws)). lia.
Qed.

Lemma knockout_later_round (e : Env) (t : Tournament) (rn : Z) (k : nat) (prev : Round) :
  rn <> 1 ->
  find (fun r => Z.eqb (number r) (rn - 1)) (rounds t) = Some prev ->
  exists ws k1 r k',
    ko_winners e (pairings prev) k = (ws, k1) /\
    knockout_generate_pairings e t rn k = Generated r k' /\
    Permutation (round_ids r) (flat_map opt_list ws).
Proof.
  intros Hrn Hfind. unfold knockout_generate_pairings.
  destruct (Z.eqb_spec rn 1) as [|_]; [contradiction|]. rewrite Hfind.
  destruct (ko_winners e (pairings prev) k) as [ws k1] eqn:Hw.
  pose proof (ko_pair_winners_ids e ws 1 k1) as Hperm.
  destruct (ko_pair_winners e ws 1 k1) as [ps k2].
  eexists ws, k1, _, k2. split; [reflexivity|]. split; [reflexivity|].
  unfold round_ids. simpl. rewrite renumber_ids. exact Hperm.
Qed.

(** C10: in a knockout round [rn > 1] whose previous round is stored (and,
    as the data model requires, mentions each player once), the players of
    a previous pairing that is ONGOING or a DOUBLE_FORFEIT do not appear in
    the new round; every player of the new round is the declared winner of a
    decided pairing (white for WHITE_WIN/FORFEIT_WHITE, black for
    BLACK_WIN/FORFEIT_BLACK) or a player of a drawn pairing. *)
Theorem knockout_advancing (e : Env) (t : Tournament) (rn : Z) (k : nat) (prev : Round) :
  1 < rn ->
  find (fun r => Z.eqb (number r) (rn - 1)) (rounds t) = Some prev ->
  NoDup (round_ids prev) ->
  exists r k', knockout_generate_pairings e t rn k = Generated r k' /\
    (forall p x, In p (pairings prev) ->
       (result p = ONGOING \/ result p = DOUBLE_FORFEIT) ->
       In x (pairing_ids p) -> ~ In x (round_ids r)) /\
    (forall x, In x (round_ids r) -> exists p, In p (pairings prev) /\
       ((result p = WHITE_WIN \/ result p = FORFEIT_WHITE) /\ white_id p = Some x \/
        (result p = BLACK_WIN \/ result p = FORFEIT_BLACK) /\ black_id p = Some x \/
        result p = DRAW /\ In x (pairing_ids p))).
Proof.
  intros Hrn Hfind Hnd.
  destruct (knockout_later_round e t rn k prev ltac:(lia) Hfind)
    as [ws [k1 [r [k' (Hw & Hgen & Hperm)]]]].
  destruct (ko_winners_spec e (pairings prev) k ws k1 Hw) as [Hin _].
  exists r, k'. split; [exact Hgen|]. split.
  - intros p x Hp Hres Hx Hxr.
    apply (Permutation_in _ Hperm) in Hxr.
    destruct (Hin x Hxr) as [q (Hq & Hxq & Hcase)].
    assert (p = q) by (eapply flat_map_unique; eauto).
    subst q. destruct Hres as [Hres|Hres]; rewrite Hres in Hcase;
      destruct Hcase as [[[H|H] _]|[[[H|H] _]|H]]; discriminate.
  - intros x Hx. apply (Permutation_in _ Hperm) in Hx.
    destruct (Hin x Hx) as [q (Hq & Hxq & Hcase)].
    exists q. split; [exact Hq|]. destruct Hcase as [H|[H|H]]; auto.
Qed.

Lemma knockout_advancing_witness :
  exists r k', knockout_generate_pairings (env_at "T"%string) ko_after_round1 2 0 = Generated r k' /\
    ~ In "p7"%string (round_ids r) /\ ~ In "p5"%string (round_ids r).
Proof.
  destruct (knockout_advancing (env_at "T"%string) ko_after_round1 2 0
              (hd (mkRound 0 [] None None) (rounds ko_after_round1)))
    as [r [k' (Hg & Hout & _)]].
  - lia.
  - reflexivity.
  - vm_compute.
    repeat constructor; simpl; intros H; repeat destruct H as [H|H];
      try discriminate H; exact H.
  - exists r, k'. split; [exact Hg|]. split.
    + apply (Hout (mkPairing (Some "p2"%string) (Some "p7"%string) (Some 2) ONGOING)).
      * simpl. tauto.
      * now left.
      * simpl. tauto.
    + apply (Hout (mkPairing (Some "p4"%string) (Some "p5"%string) (Some 4) DOUBLE_FORFEIT)).
      * simpl. tauto.
      * now right.
      * simpl. tauto.
Defined.

(* ------------------------------------------------------------------ *)
(** ** Each player at most once per round *)

Lemma nth_opt_inj (L : list (option Id)) (i j : nat) (x : Id) :
  NoDup (flat_map opt_list L) -> (i < List.length L)%nat -> (j < List.length L)%nat ->
  nth i L None = Some x -> nth j L None = Some x -> i = j.
Proof.
  revert i j. induction L as [|o L IH]; intros i j Hnd Hi Hj Hxi Hxj; simpl in *; [lia|].
  destruct i as [|i], j as [|j]; try reflexivity.
  - subst o. simpl in Hnd. inversion Hnd as [|? ? Hn]; subst. exfalso. apply Hn.
    apply in_flat_map. exists (Some x). split; [|now left].
    rewrite <- Hxj. apply nth_In. lia.
  - subst o. simpl in Hnd. inversion Hnd as [|? ? Hn]; subst. exfalso. apply Hn.
    apply in_flat_map. exists (Some x). split; [|now left].
    rewrite <- Hxi. apply nth_In. lia.
  - f_equal. apply IH; auto; [|lia|lia].
    eapply NoDup_app_remove_l. exact Hnd.
Qed.

Lemma select_nodup (L : list (option Id)) (J : list nat) :
  NoDup (flat_map opt_list L) -> NoDup J -> (forall j, In j J -> (j < List.length L)%nat) ->
  NoDup (flat_map (fun j => opt_list (nth j L None)) J).
Proof.
  intros HL. induction J as [|j J IH]; intros HJ Hlt; simpl; [constructor|].
  inversion HJ as [|? ? Hj HJ']; subst.
  apply NoDup_app.
  - destruct (nth j L None); simpl; repeat constructor; auto.
  - apply IH; auto. intros j' Hj'. apply Hlt. now right.
  - intros x Hx Hx'. apply in_flat_map in Hx'. destruct Hx' as [j' [Hj'J Hx']].
    destruct (nth j L None) eqn:E1; simpl in Hx; [|contradiction].
    destruct Hx as [<-|[]].
    destruct (nth j' L None) eqn:E2; simpl in Hx'; [|contradiction].
    destruct Hx' as [<-|[]].
    assert (j = j') by (eapply nth_opt_inj; eauto; apply Hlt; [now left|now right]).
    subst. contradiction.
Qed.

Lemma slot_indices_nodup (n s m : nat) :
  (2 * (s + m) <= n)%nat ->
  NoDup (flat_map (fun i => [i; (n - 1 - i)%nat]) (seq s m)) /\
  (forall j, In j (flat_map (fun i => [i; (n - 1 - i)%nat]) (seq s m)) ->
     (s <= j < s + m)%nat \/ (n - s - m <= j < n - s)%nat).
Proof.
  revert s. induction m as [|m IH]; intros s Hle.
  - split; [constructor|]. intros j [].
  - destruct (IH (S s) ltac:(lia)) as [Hnd Hin].
    simpl. split.
    + constructor; [|constructor].
      * intros [H|H]; [lia|]. apply Hin in H. lia.
      * intros H. apply Hin in H. lia.
      * exact Hnd.
    + intros j [<-|[<-|H]]; [lia|lia|]. apply Hin in H. lia.
Qed.

(** Seating [i] against [n - 1 - i] for [i < n / 2] uses each player at most
    once. *)
Lemma slots_nodup (L : list (option Id)) (n : nat) :
  n = List.length L -> NoDup (flat_map opt_list L) ->
  NoDup (flat_map (slot_ids L n) (seq 0 (n / 2))).
Proof.
  intros Hn HL.
  assert (Heq : flat_map (slot_ids L n) (seq 0 (n / 2)) =
                flat_map (fun j => opt_list (nth j L None))
                  (flat_map (fun i => [i; (n - 1 - i)%nat]) (seq 0 (n / 2)))).
  { induction (seq 0 (n / 2)) as [|i l IH]; simpl; [reflexivity|].
    rewrite IH. unfold slot_ids. simpl. rewrite ?app_nil_r. now rewrite app_assoc. }
  rewrite Heq.
  assert (H2 : (2 * (0 + n / 2) <= n)%nat) by (pose proof (Nat.Div0.mul_div_le n 2); lia).
  destruct (slot_indices_nodup n 0 (n / 2) H2) as [Hnd Hin].
  apply select_nodup; auto.
  intros j Hj. apply Hin in Hj. lia.
Qed.

Lemma slot_pairing_perm (w b : option Id) (swap : bool) (bd : option Z) (res : Result) :
  Permutation
    (match w, b with
     | Some _, Some _ =>
         pairing_ids (mkPairing (if swap then b else w) (if swap then w else b) bd res)
     | _, _ => pairing_ids (bye_pairing (match w with Some _ => w | None => b end))
     end)
    (opt_list w ++ opt_list b).
Proof.
  destruct w as [x|], b as [y|]; unfold pairing_ids; simpl; try reflexivity.
  destruct swap; simpl; [apply perm_swap|reflexivity].
Qed.

Lemma rr_loop_ids (rotated : list (option Id)) (n : nat) (adj : Z) (idx : list nat)
    (board : Z) :
  Permutation (flat_map pairing_ids (rr_loop rotated n adj idx board))
              (flat_map (slot_ids rotated n) idx).
Proof.
  revert board. induction idx as [|i idx IH]; intros board; simpl; [reflexivity|].
  unfold slot_ids at 1.
  destruct (nth i rotated None) as [x|], (nth (n - 1 - i) rotated None) as [y|];
    simpl; try (apply perm_skip; apply IH); try apply IH.
  destruct (Z.eqb ((Z.of_nat i + adj) mod 2) 0); simpl; unfold pairing_ids; simpl.
  - eapply perm_trans; [apply perm_swap|]. do 2 apply perm_skip. apply IH.
  - do 2 apply perm_skip. apply IH.
Qed.

Lemma ko_loop1_ids (e : Env) (padded : list (option Id)) (n : nat) (idx : list nat)
    (board : Z) (k : nat) :
  Permutation (flat_map pairing_ids (fst (ko_loop1 e padded n idx board k)))
              (flat_map (slot_ids padded n) idx).
Proof.
  revert board k. induction idx as [|i idx IH]; intros board k; simpl; [reflexivity|].
  unfold slot_ids at 1.
  pose proof (slot_pairing_perm (nth i padded None) (nth (n - 1 - i) padded None)
                (rand_lt (rnd e k) 1 2) (Some board) ONGOING) as Hs.
  destruct (nth i padded None) as [x|], (nth (n - 1 - i) padded None) as [y|];
    simpl in *.
  - destruct (ko_loop1 e padded n idx (board + 1) (S k)) as [rest k2] eqn:Hrec.
    specialize (IH (board + 1) (S k)). rewrite Hrec in IH. simpl in IH.
    destruct (rand_lt (rnd e k) 1 2); simpl in *; apply (Permutation_app Hs IH).
  - destruct (ko_loop1 e padded n idx board k) as [rest k2] eqn:Hrec.
    specialize (IH board k). rewrite Hrec in IH. simpl in *. apply (Permutation_app Hs IH).
  - destruct (ko_loop1 e padded n idx board k) as [rest k2] eqn:Hrec.
    specialize (IH board k). rewrite Hrec in IH. simpl in *. apply (Permutation_app Hs IH).
  - destruct (ko_loop1 e padded n idx board k) as [rest k2] eqn:Hrec.
    specialize (IH board k). rewrite Hrec in IH. simpl in *. apply (Permutation_app Hs IH).
Qed.

Lemma remove_first_perm (x : Id) (l : list Id) :
  In x l -> Permutation l (x :: remove_first x l).
Proof.
  induction l as [|y l IH]; simpl; intros Hx; [contradiction|].
  destruct (String.eqb_spec x y) as [->|Hne]; [reflexivity|].
  destruct Hx as [->|Hx]; [contradiction|].
  eapply perm_trans; [apply perm_skip, IH, Hx|apply perm_swap].
Qed.

Lemma choose_opponent_in (prev : list Id) (ps : list (Id * Z)) (cur : Id)
    (l : list Id) (b : Id) :
  choose_opponent prev ps cur l = Some b -> In b l.
Proof.
  intros Hc. destruct l as [|u us].
  - unfold choose_opponent in Hc. simpl in Hc. discriminate.
  - destruct (choose_opponent_spec prev ps cur (u :: us) ltac:(discriminate))
      as [b' (Hb' & Hin & _)].
    rewrite Hc in Hb'. inversion Hb'. now subst.
Qed.

(** The Swiss loop keeps the IDs of the pairings built so far and of the
    players still unpaired pairwise distinct. *)
Lemma swiss_loop_nodup (e : Env) (t : Tournament) (ps : list (Id * Z)) (fuel : nat) :
  forall unpaired board k acc,
  NoDup (flat_map pairing_ids acc ++ unpaired) ->
  let '(acc', unpaired', _) := swiss_loop e t ps fuel unpaired board k acc in
  NoDup (flat_map pairing_ids acc' ++ unpaired').
Proof.
  induction fuel as [|fuel IH]; intros unpaired board k acc Hnd; cbn [swiss_loop];
    [exact Hnd|].
  destruct unpaired as [|cur [|c1 rest1]]; try exact Hnd.
  set (rest := c1 :: rest1) in *.
  destruct (choose_opponent (get_player_opponents t cur) ps cur rest) as [b|] eqn:Hch.
  2: { apply IH. eapply NoDup_remove_1. exact Hnd. }
  destruct (truthy (Some b)).
  2: { apply IH. eapply NoDup_remove_1. exact Hnd. }
  destruct (swiss_ratings e cur b) as [rc ro].
  destruct (random e k) as [x k'].
  apply choose_opponent_in in Hch.
  assert (Hp : Permutation (flat_map pairing_ids acc ++ cur :: rest)
                 (flat_map pairing_ids acc ++ cur :: b :: remove_first b rest)).
  { apply Permutation_app_head, perm_skip, remove_first_perm, Hch. }
  apply (Permutation_NoDup Hp) in Hnd.
  destruct (if rc <? ro then rand_lt x 55 100 else rand_lt x 45 100);
    apply IH; rewrite flat_map_app, <- app_assoc; cbn [flat_map pairing_ids opt_list
      white_id black_id app]; rewrite ?app_nil_r.
  - eapply Permutation_NoDup; [|exact Hnd].
    apply Permutation_app_head. apply perm_swap.
  - exact Hnd.
Qed.

Lemma remove_first_nodup (x : Id) (l : list Id) :
  NoDup l -> NoDup (x :: remove_first x l).
Proof.
  intros Hnd. destruct (in_dec String.string_dec x l) as [Hx|Hx].
  - eapply Permutation_NoDup; [apply remove_first_perm, Hx|exact Hnd].
  - assert (remove_first x l = l) as ->.
    { clear Hnd. induction l as [|y l IH]; simpl; [reflexivity|].
      destruct (String.eqb_spec x y) as [->|_]; [exfalso; apply Hx; now left|].
      rewrite IH; [reflexivity|]. intros H; apply Hx; now right. }
    now constructor.
Qed.

Lemma bye_pairings_ids (l : list Id) :
  flat_map pairing_ids (map (fun pid => bye_pairing (Some pid)) l) = l.
Proof. induction l as [|x l IH]; simpl; [reflexivity|]. now rewrite IH. Qed.

Lemma swiss_table_ids (t : Tournament) :
  Permutation (map fst (swiss_table t)) (players t).
Proof.
  unfold swiss_table. eapply perm_trans; [apply Permutation_map, sort_desc_perm|].
  rewrite map_map. simpl. rewrite map_id. reflexivity.
Qed.

Lemma swiss_round_nodup (e : Env) (t : Tournament) (rn : Z) (k : nat) :
  NoDup (players t) ->
  exists r k', swiss_generate_pairings e t rn k = Generated r k' /\ NoDup (round_ids r).
Proof.
  intros Hnd. unfold swiss_generate_pairings.
  assert (H0 : NoDup (map fst (swiss_table t))).
  { eapply Permutation_NoDup; [apply Permutation_sym, swiss_table_ids|exact Hnd]. }
  set (players0 := map fst (swiss_table t)) in *.
  assert (Hstart : forall byes players1,
    NoDup (flat_map pairing_ids byes ++ players1) ->
    exists r k', (let '(acc, unpaired, k') :=
       swiss_loop e t (swiss_table t) (List.length players1) players1 1 k byes in
     Generated (mkRound rn (renumber 1 (acc ++ map (fun pid => bye_pairing (Some pid)) unpaired))
       (Some (now e)) None) k') = Generated r k' /\ NoDup (round_ids r)).
  { intros byes players1 Hb.
    pose proof (swiss_loop_nodup e t (swiss_table t) (List.length players1) players1 1 k byes Hb)
      as Hl.
    destruct (swiss_loop e t (swiss_table t) (List.length players1) players1 1 k byes)
      as [[acc unpaired] k'].
    eexists _, k'. split; [reflexivity|].
    unfold round_ids. simpl. rewrite renumber_ids, flat_map_app, bye_pairings_ids.
    exact Hl. }
  destruct (Nat.odd (List.length players0)); [|apply Hstart; exact H0].
  destruct (truthy (swiss_bye_player t (swiss_table t))); [|apply Hstart; exact H0].
  destruct (swiss_bye_player t (swiss_table t)) as [b|]; [|apply Hstart; exact H0].
  apply Hstart. simpl. unfold pairing_ids. simpl. apply remove_first_nodup, H0.
Qed.

(** Rotating to the right permutes the list and keeps its length. *)
Lemma rotate_right_perm {A} (l l' : list A) :
  rotate_right l = Some l' -> Permutation l l'.
Proof.
  unfold rotate_right. intros H.
  destruct (rev l) as [|x r] eqn:Hr; [discriminate|]. inversion H; subst.
  rewrite <- (rev_involutive l), Hr. simpl.
  apply Permutation_sym, Permutation_cons_append.
Qed.

Lemma rotate_times_perm {A} (n : nat) (l l' : list A) :
  rotate_times n l = Some l' -> Permutation l l'.
Proof.
  revert l. induction n as [|n IH]; intros l H; simpl in H.
  - inversion H. reflexivity.
  - destruct (rotate_right l) as [l1|] eqn:Hr; [|discriminate].
    eapply perm_trans; [apply rotate_right_perm, Hr|apply IH, H].
Qed.

Lemma flat_map_opt_list_some (l : list Id) : flat_map opt_list (map Some l) = l.
Proof. induction l as [|x l IH]; simpl; [reflexivity|]. now rewrite IH. Qed.

Lemma flat_map_opt_list_app_none (l : list (option Id)) :
  flat_map opt_list (l ++ [None]) = flat_map opt_list l.
Proof. rewrite flat_map_app. simpl. apply app_nil_r. Qed.

Lemma rr_round_nodup (e : Env) (t : Tournament) (rn : Z) (k : nat) (r : Round) (k' : nat) :
  NoDup (players t) ->
  round_robin_generate_pairings e t rn k = Generated r k' -> NoDup (round_ids r).
Proof.
  intros Hnd Hgen. unfold round_robin_generate_pairings in Hgen.
  set (pl := if Nat.odd (List.length (map Some (players t)))
             then map Some (players t) ++ [None] else map Some (players t)) in *.
  assert (Hpl : NoDup (flat_map opt_list pl)).
  { unfold pl. destruct (Nat.odd _);
      rewrite ?flat_map_opt_list_app_none, flat_map_opt_list_some; exact Hnd. }
  destruct pl as [|p0 rest] eqn:Hpl0; [discriminate|].
  destruct (rotate_times (Z.to_nat (rn - 1)) rest) as [rotation|] eqn:Hrot; [|discriminate].
  injection Hgen as <- <-.
  unfold round_ids. simpl. rewrite renumber_ids.
  apply rotate_times_perm in Hrot.
  eapply Permutation_NoDup; [apply Permutation_sym, rr_loop_ids|].
  apply slots_nodup.
  - simpl. f_equal. now apply Permutation_length.
  - simpl in Hpl |- *. eapply Permutation_NoDup; [|exact Hpl].
    apply Permutation_app_head, Permutation_flat_map, Hrot.
Qed.

(** Padding appends only [None]s. *)
Lemma ko_pad_ids (fuel : nat) (l : list (option Id)) :
  flat_map opt_list (ko_pad fuel l) = flat_map opt_list l.
Proof.
  revert l. induction fuel as [|fuel IH]; intros l; simpl;
    destruct (negb _); try reflexivity.
  rewrite IH. apply flat_map_opt_list_app_none.
Qed.

Lemma ko_round1_nodup (e : Env) (t : Tournament) (k : nat) (r : Round) (k' : nat) :
  NoDup (players t) ->
  knockout_generate_pairings e t 1 k = Generated r k' -> NoDup (round_ids r).
Proof.
  intros Hnd Hgen. unfold knockout_generate_pairings in Hgen.
  change (Z.eqb 1 1) with true in Hgen. cbv beta iota zeta in Hgen.
  set (pl := map (fun x => Some (fst x))
               (sort_desc snd (map (fun pid => (pid, ko_rating e pid)) (players t)))) in *.
  set (padded := ko_pad (List.length pl) pl) in *.
  pose proof (ko_loop1_ids e padded (List.length padded) (seq 0 (List.length padded / 2)) 1 k)
    as Hp.
  destruct (ko_loop1 e padded (List.length padded) (seq 0 (List.length padded / 2)) 1 k)
    as [ps k2].
  injection Hgen as <- <-.
  unfold round_ids. simpl. rewrite renumber_ids.
  eapply Permutation_NoDup; [apply Permutation_sym, Hp|].
  apply slots_nodup; [reflexivity|].
  unfold padded. rewrite ko_pad_ids. unfold pl.
  rewrite <- map_map with (g := Some), flat_map_opt_list_some.
  eapply Permutation_NoDup; [|exact Hnd]. apply Permutation_sym.
  eapply perm_trans; [apply Permutation_map, sort_desc_perm|].
  rewrite map_map. simpl. rewrite map_id. reflexivity.
Qed.

(** C2: when the registered players are distinct and every stored round
    mentions each player at most once, every round returned by the Swiss,
    Round Robin or Knockout strategy mentions each player ID at most once,
    as white or as black, across all its pairings. *)
Theorem pairings_distinct_players (tt : TournamentType) (e : Env) (t : Tournament)
    (rn : Z) (k : nat) (r : Round) (k' : nat) :
  NoDup (players t) ->
  (forall r0, In r0 (rounds t) -> NoDup (round_ids r0)) ->
  get_pairing_strategy tt e t rn k = Generated r k' ->
  NoDup (round_ids r).
Proof.
  intros Hp Hr Hgen. destruct tt; simpl in Hgen.
  - destruct (swiss_round_nodup e t rn k Hp) as [r1 [k1 [Hg Hnd]]].
    rewrite Hg in Hgen. injection Hgen as <- _. exact Hnd.
  - eapply rr_round_nodup; eauto.
  - destruct (Z.eqb_spec rn 1) as [->|Hne]; [eapply ko_round1_nodup; eauto|].
    destruct (find (fun r0 => Z.eqb (number r0) (rn - 1)) (rounds t)) as [prev|] eqn:Hf.
    + destruct (knockout_later_round e t rn k prev Hne Hf)
        as [ws [k1 [r1 [k2 (Hw & Hg & Hperm)]]]].
      rewrite Hg in Hgen. injection Hgen as <- _.
      destruct (ko_winners_spec e (pairings prev) k ws k1 Hw) as [_ Hnd].
      eapply Permutation_NoDup; [apply Permutation_sym, Hperm|].
      apply Hnd, Hr. eapply find_some. exact Hf.
    + unfold knockout_generate_pairings in Hgen.
      destruct (Z.eqb_spec rn 1); [contradiction|]. rewrite Hf in Hgen. discriminate.
Qed.

Lemma pairings_distinct_players_witness :
  exists r k', get_pairing_strategy KNOCKOUT (env_at "T"%string) ko_after_round1 2 0
                 = Generated r k' /\ NoDup (round_ids r).
Proof.
  destruct (get_pairing_strategy KNOCKOUT (env_at "T"%string) ko_after_round1 2 0)
    as [r k'|err] eqn:Hg.
  - exists r, k'. split; [reflexivity|].
    apply (pairings_distinct_players KNOCKOUT (env_at "T"%string) ko_after_round1 2 0 r k').
    + vm_compute. repeat constructor; simpl; intros H; repeat destruct H as [H|H];
        try discriminate H; exact H.
    + intros r0 Hr0. vm_compute in Hr0. destruct Hr0 as [<-|[]]. vm_compute.
      repeat constructor; simpl; intros H; repeat destruct H as [H|H];
        try discriminate H; exact H.
    + exact Hg.
  - vm_compute in Hg. discriminate Hg.
Defined.

(* ------------------------------------------------------------------ *)
(** ** Number of games and byes in a first round *)

Lemma count_real_app (a b : list Pairing) :
  count_real (a ++ b) = (count_real a + count_real b)%nat.
Proof. unfold count_real. now rewrite filter_app, length_app. Qed.

Lemma count_byes_app (a b : list Pairing) :
  count_byes (a ++ b) = (count_byes a + count_byes b)%nat.
Proof. unfold count_byes. now rewrite filter_app, length_app. Qed.

Lemma renumber_counts (i : Z) (ps : list Pairing) :
  count_real (renumber i ps) = count_real ps /\ count_byes (renumber i ps) = count_byes ps.
Proof.
  revert i. induction ps as [|p ps IH]; intros i; [split; reflexivity|].
  assert (Hr : is_real (mkPairing (white_id p) (black_id p) (Some i) (result p)) = is_real p /\
               is_bye (mkPairing (white_id p) (black_id p) (Some i) (result p)) = is_bye p)
    by (split; reflexivity).
  unfold count_real, count_byes in *. cbn [renumber].
  destruct (black_id p) eqn:Hb.
  - destruct (IH (i + 1)) as [H1 H2]. cbn [filter].
    destruct Hr as [-> ->].
    destruct (is_real p), (is_bye p); cbn [List.length]; rewrite ?H1, ?H2; split; reflexivity.
  - destruct (IH i) as [H1 H2]. cbn [filter].
    destruct (is_real p), (is_bye p); cbn [List.length]; rewrite ?H1, ?H2; split; reflexivity.
Qed.

Lemma bye_pairings_counts (l : list Id) :
  count_real (map (fun pid => bye_pairing (Some pid)) l) = 0%nat /\
  count_byes (map (fun pid => bye_pairing (Some pid)) l) = List.length l.
Proof.
  induction l as [|x l [H1 H2]]; [split; reflexivity|].
  unfold count_real, count_byes in *. simpl. now rewrite H1, H2.
Qed.

Lemma count_cons (p : Pairing) (ps : list Pairing) :
  count_real (p :: ps) = ((if is_real p then 1 else 0) + count_real ps)%nat /\
  count_byes (p :: ps) = ((if is_bye p then 1 else 0) + count_byes ps)%nat.
Proof. unfold count_real, count_byes. simpl. destruct (is_real p), (is_bye p); auto. Qed.

Lemma length_filter_cons {A} (f : A -> bool) (a : A) (l : list A) :
  List.length (filter f (a :: l)) = ((if f a then 1 else 0) + List.length (filter f l))%nat.
Proof. simpl. destruct (f a); reflexivity. Qed.

Lemma rr_loop_counts (L : list (option Id)) (n : nat) (adj : Z) (idx : list nat) (board : Z) :
  count_real (rr_loop L n adj idx board) = List.length (filter (slot_real L n) idx) /\
  count_byes (rr_loop L n adj idx board) =
    List.length (filter (fun i => negb (slot_real L n i)) idx).
Proof.
  revert board. induction idx as [|i idx IH]; intros board; [split; reflexivity|].
  rewrite !length_filter_cons.
  assert (Hs : slot_real L n i = has_id (nth i L None) && has_id (nth (n - 1 - i) L None))
    by reflexivity.
  rewrite Hs. cbn [rr_loop].
  destruct (nth i L None) as [x|], (nth (n - 1 - i) L None) as [y|];
    [destruct (IH (board + 1)) as [H1 H2]|destruct (IH board) as [H1 H2]..];
    [destruct (Z.eqb ((Z.of_nat i + adj) mod 2) 0)| | |];
    edestruct count_cons as [C1 C2]; rewrite C1, C2, H1, H2; split; reflexivity.
Qed.

Lemma ko_loop1_counts (e : Env) (L : list (option Id)) (n : nat) (idx : list nat)
    (board : Z) (k : nat) :
  count_real (fst (ko_loop1 e L n idx board k)) = List.length (filter (slot_real L n) idx) /\
  count_byes (fst (ko_loop1 e L n idx board k)) =
    List.length (filter (fun i => negb (slot_real L n i)) idx).
Proof.
  revert board k. induction idx as [|i idx IH]; intros board k; [split; reflexivity|].
  rewrite !length_filter_cons.
  assert (Hs : slot_real L n i = has_id (nth i L None) && has_id (nth (n - 1 - i) L None))
    by reflexivity.
  rewrite Hs. cbn [ko_loop1].
  destruct (nth i L None) as [x|], (nth (n - 1 - i) L None) as [y|].
  - destruct (random e k) as [r k1].
    specialize (IH (board + 1) k1).
    destruct (ko_loop1 e L n idx (board + 1) k1) as [rest k2]. destruct IH as [H1 H2].
    destruct (rand_lt r 1 2); cbn [fst] in *; edestruct count_cons as [C1 C2];
      rewrite C1, C2, H1, H2; split; reflexivity.
  - specialize (IH board k). destruct (ko_loop1 e L n idx board k) as [rest k2].
    destruct IH as [H1 H2]. cbn [fst] in *; edestruct count_cons as [C1 C2];
      rewrite C1, C2, H1, H2; split; reflexivity.
  - specialize (IH board k). destruct (ko_loop1 e L n idx board k) as [rest k2].
    destruct IH as [H1 H2]. cbn [fst] in *; edestruct count_cons as [C1 C2];
      rewrite C1, C2, H1, H2; split; reflexivity.
  - specialize (IH board k). destruct (ko_loop1 e L n idx board k) as [rest k2].
    destruct IH as [H1 H2]. cbn [fst] in *; edestruct count_cons as [C1 C2];
      rewrite C1, C2, H1, H2; split; reflexivity.
Qed.

Lemma has_id_padded (l : list Id) (m i : nat) :
  has_id (nth i (map Some l ++ repeat None m) None) = (i <? List.length l)%nat.
Proof.
  revert i. induction l as [|x l IH]; intros i.
  - simpl. rewrite nth_repeat. destruct i; reflexivity.
  - destruct i as [|i]; [reflexivity|]. simpl. rewrite IH. reflexivity.
Qed.

Lemma count_ge (c h : nat) :
  List.length (filter (fun i => (c <=? i)%nat) (seq 0 h)) = (h - c)%nat.
Proof.
  induction h as [|h IH]; [reflexivity|].
  rewrite seq_S, filter_app, length_app, IH. cbn [filter Nat.add].
  destruct (Nat.leb_spec c h); cbn [List.length]; lia.
Qed.

Lemma count_lt (c h : nat) :
  List.length (filter (fun i => (i <? c)%nat) (seq 0 h)) = Nat.min c h.
Proof.
  induction h as [|h IH]; [simpl; lia|].
  rewrite seq_S, filter_app, length_app, IH. cbn [filter Nat.add].
  destruct (Nat.ltb_spec h c); cbn [List.length]; lia.
Qed.

(** Seating [l] followed by [m] empty seats, [i] against [n - 1 - i] for
    [i < n / 2]: the first [m] slots are byes, the others real games. *)
Lemma padded_slot_counts (l : list Id) (m : nat) :
  let L := map Some l ++ repeat None m in
  let n := List.length L in
  (n / 2 <= List.length l)%nat ->
  List.length (filter (slot_real L n) (seq 0 (n / 2))) = (n / 2 - m)%nat /\
  List.length (filter (fun i => negb (slot_real L n i)) (seq 0 (n / 2))) = Nat.min m (n / 2).
Proof.
  intros L n Hle.
  assert (Hn : n = (List.length l + m)%nat)
    by (unfold n, L; now rewrite length_app, length_map, repeat_length).
  assert (Hs : forall i, In i (seq 0 (n / 2)) -> slot_real L n i = (m <=? i)%nat).
  { intros i Hi. apply in_seq in Hi. unfold slot_real, L.
    rewrite !has_id_padded.
    pose proof (Nat.Div0.mul_div_le n 2).
    destruct (Nat.ltb_spec i (List.length l)); [|lia].
    destruct (Nat.ltb_spec (n - 1 - i) (List.length l)), (Nat.leb_spec m i); simpl; lia. }
  split.
  - rewrite (filter_ext_in _ _ _ Hs). apply count_ge.
  - rewrite (filter_ext_in (fun i => negb (slot_real L n i)) (fun i => (i <? m)%nat)).
    + apply count_lt.
    + intros i Hi. rewrite (Hs i Hi). destruct (Nat.leb_spec m i), (Nat.ltb_spec i m);
        reflexivity || lia.
Qed.

(** [n & (n - 1)] vanishes on a power of two ... *)
Lemma land_pred_pow (p : Z) : 0 <= p -> Z.land (2 ^ p) (2 ^ p - 1) = 0.
Proof.
  intros Hp. replace (2 ^ p - 1) with (Z.ones p) by (rewrite Z.ones_equiv; lia).
  rewrite Z.land_ones by exact Hp. apply Z.mod_same.
  pose proof (Z.pow_pos_nonneg 2 p ltac:(lia) Hp). lia.
Qed.

(** ... and not strictly between two consecutive powers of two. *)
Lemma land_pred_between (q m : Z) :
  0 <= q -> 2 ^ q < m < 2 ^ (q + 1) -> Z.land m (m - 1) <> 0.
Proof.
  intros Hq Hm Hland.
  pose proof (Z.pow_pos_nonneg 2 q ltac:(lia) Hq) as Hpos.
  assert (Hl1 : Z.log2 m = q) by (apply Z.log2_unique; [exact Hq|rewrite <- Z.add_1_r; lia]).
  assert (Hl2 : Z.log2 (m - 1) = q)
    by (apply Z.log2_unique; [exact Hq|rewrite <- Z.add_1_r; lia]).
  pose proof (Z.bit_log2 m ltac:(lia)) as B1. rewrite Hl1 in B1.
  pose proof (Z.bit_log2 (m - 1) ltac:(lia)) as B2. rewrite Hl2 in B2.
  assert (H : Z.testbit (Z.land m (m - 1)) q = true) by (rewrite Z.land_spec, B1, B2; reflexivity).
  rewrite Hland, Z.bits_0 in H. discriminate.
Qed.

Lemma ko_pad_eq (fuel : nat) (l : list (option Id)) :
  ko_pad fuel l =
  if negb (Z.eqb (Z.land (Z.of_nat (List.length l)) (Z.of_nat (List.length l) - 1)) 0) then
    match fuel with O => l | S fuel' => ko_pad fuel' (l ++ [None]) end
  else l.
Proof. destruct fuel; reflexivity. Qed.

(** The padding loop stops at the first power of two [2 ^ p] not below the
    number of players. *)
Lemma ko_pad_pow (p : nat) (fuel : nat) (l : list (option Id)) :
  (2 ^ p / 2 < List.length l <= 2 ^ p)%nat -> (2 ^ p - List.length l <= fuel)%nat ->
  ko_pad fuel l = l ++ repeat None (2 ^ p - List.length l).
Proof.
  revert l. induction fuel as [|fuel IH]; intros l Hl Hf; rewrite ko_pad_eq.
  - assert (List.length l = 2 ^ p)%nat as E by lia. rewrite E, Nat.sub_diag, app_nil_r.
    rewrite Nat2Z.inj_pow, land_pred_pow by lia. reflexivity.
  - destruct (Nat.eq_dec (List.length l) (2 ^ p)) as [E|Hne].
    + rewrite E, Nat.sub_diag, app_nil_r, Nat2Z.inj_pow, land_pred_pow by lia. reflexivity.
    + destruct p as [|q]; [cbn in Hl, Hne; lia|].
      assert (Hq : (2 ^ S q / 2 = 2 ^ q)%nat).
      { rewrite Nat.pow_succ_r'. rewrite Nat.mul_comm. apply Nat.div_mul. lia. }
      rewrite Hq in Hl.
      assert (Hb : Z.land (Z.of_nat (List.length l)) (Z.of_nat (List.length l) - 1) <> 0).
      { apply (land_pred_between (Z.of_nat q)); [lia|].
        pose proof (Nat2Z.inj_pow 2 q) as P1. pose proof (Nat2Z.inj_pow 2 (S q)) as P2.
        change (Z.of_nat 2) with 2 in P1, P2. rewrite Nat2Z.inj_succ, <- Z.add_1_r in P2.
        lia. }
      apply Z.eqb_neq in Hb. rewrite Hb. simpl negb. cbv iota.
      rewrite IH; rewrite ?length_app; simpl List.length; rewrite ?Hq; try lia.
      rewrite <- app_assoc. f_equal.
      replace (2 ^ S q - List.length l)%nat with (S (2 ^ S q - (List.length l + 1)))
        by lia. reflexivity.
Qed.

Ltac div2_facts x :=
  pose proof (Nat.div_mod_eq x 2); pose proof (Nat.mod_upper_bound x 2 ltac:(discriminate)).

Lemma odd_mod2 (n : nat) : Nat.odd n = (n mod 2 =? 1)%nat.
Proof.
  destruct (Nat.Even_or_Odd n) as [[m Hm]|[m Hm]]; subst n.
  - destruct (Nat.odd (2 * m)) eqn:Ho.
    + apply Nat.odd_spec in Ho. exfalso. eapply Nat.Even_Odd_False; [|exact Ho].
      exists m. reflexivity.
    + div2_facts (2 * m)%nat. symmetry. apply Nat.eqb_neq. lia.
  - replace (Nat.odd (2 * m + 1)) with true by (symmetry; apply Nat.odd_spec; now exists m).
    div2_facts (2 * m + 1)%nat. symmetry. apply Nat.eqb_eq. lia.
Qed.

Lemma remove_first_length (x : Id) (l : list Id) :
  In x l -> List.length l = S (List.length (remove_first x l)).
Proof. intros H. apply (Permutation_length (remove_first_perm x l H)). Qed.

Lemma remove_first_incl (x y : Id) (l : list Id) : In y (remove_first x l) -> In y l.
Proof.
  induction l as [|z l IH]; simpl; [tauto|].
  destruct (String.eqb x z); [now right|]. intros [H|H]; [now left|right; auto].
Qed.

(** Each pass of the Swiss loop pairs two players (IDs are non-empty, so
    truthy); at the end fewer than two remain. *)
Lemma swiss_loop_counts (e : Env) (t : Tournament) (ps : list (Id * Z)) (fuel : nat) :
  forall unpaired board k acc,
  (forall x, In x unpaired -> x <> ""%string) ->
  (List.length unpaired <= 2 * fuel + 1)%nat ->
  let '(acc', u', _) := swiss_loop e t ps fuel unpaired board k acc in
  count_real acc' = (count_real acc + List.length unpaired / 2)%nat /\
  count_byes acc' = count_byes acc /\
  List.length u' = (List.length unpaired mod 2)%nat.
Proof.
  induction fuel as [|fuel IH]; intros unpaired board k acc Hne Hlen; cbn [swiss_loop].
  - destruct unpaired as [|x [|y u]]; cbn [List.length] in *; try lia;
      change (0 / 2)%nat with 0%nat; change (1 / 2)%nat with 0%nat;
      change (0 mod 2)%nat with 0%nat; change (1 mod 2)%nat with 1%nat;
      repeat split; lia.
  - destruct unpaired as [|cur [|c1 rest1]].
    + cbv beta iota. cbn [List.length].
      change (0 / 2)%nat with 0%nat. change (0 mod 2)%nat with 0%nat. repeat split; lia.
    + cbv beta iota. cbn [List.length].
      change (1 / 2)%nat with 0%nat. change (1 mod 2)%nat with 1%nat. repeat split; lia.
    + set (rest := c1 :: rest1). change (c1 :: rest1) with rest in Hlen, Hne.
      assert (Hr1 : rest <> []) by discriminate. clearbody rest.
      destruct (choose_opponent_spec (get_player_opponents t cur) ps cur rest Hr1)
        as [b (Hch & Hb & _)].
      rewrite Hch.
      assert (Ht : truthy (Some b) = true).
      { unfold truthy. destruct (String.eqb_spec b ""); [|reflexivity].
        exfalso. apply (Hne b); [now right|assumption]. }
      rewrite Ht.
      destruct (swiss_ratings e cur b) as [rc ro].
      destruct (random e k) as [x k'].
      pose proof (remove_first_length b rest Hb) as Hrl.
      assert (Hne' : forall y, In y (remove_first b rest) -> y <> ""%string).
      { intros y Hy. apply Hne. right. eapply remove_first_incl. exact Hy. }
      unfold Id in *.
      destruct (if rc <? ro then rand_lt x 55 100 else rand_lt x 45 100);
        match goal with
        | |- context [swiss_loop e t ps fuel ?u ?bd ?kk ?a] =>
            specialize (IH u bd kk a Hne');
            destruct (swiss_loop e t ps fuel u bd kk a) as [[a' u'] k2]
        end;
        (destruct IH as (H1 & H2 & H3); [cbn [List.length] in Hlen; lia|]);
        rewrite count_real_app in H1; rewrite count_byes_app in H2;
        cbn [List.length] in Hlen |- *;
        div2_facts (List.length (remove_first b rest)); div2_facts (S (List.length rest));
        change (count_real [_]) with 1%nat in H1; change (count_byes [_]) with 0%nat in H2;
        unfold Id in *; repeat split; lia.
Qed.

Lemma swiss_bye_player_in (t : Tournament) (ps : list (Id * Z)) (b : Id) :
  swiss_bye_player t ps = Some b -> In b (map fst ps).
Proof.
  unfold swiss_bye_player.
  remember (sort_asc snd ps) as c eqn:Ec.
  assert (Hc : forall y, In y c -> In (fst y) (map fst ps)).
  { intros y Hy. apply in_map. eapply Permutation_in; [|exact Hy]. subst c. apply sort_asc_perm. }
  destruct (find (fun q => negb (mem (fst q) (players_with_byes t))) c) as [[pid s]|] eqn:Hf.
  - assert (Hin : In (pid, s) c) by (eapply find_some; exact Hf).
    destruct (negb (truthy (Some pid))).
    + destruct c as [|[q s'] c']; [destruct Hin|].
      intros H. inversion H; subst. apply (Hc (b, s')). now left.
    + intros H. inversion H; subst. apply (Hc (b, s) Hin).
  - destruct (negb (truthy None)); [|discriminate].
    destruct c as [|[q s'] c']; [discriminate|].
    intros H. inversion H; subst. apply (Hc (b, s')). now left.
Qed.

Lemma swiss_round_counts (e : Env) (t : Tournament) (rn : Z) (k : nat) :
  (forall x, In x (players t) -> x <> ""%string) ->
  exists r k', swiss_generate_pairings e t rn k = Generated r k' /\
    count_real (pairings r) = (List.length (players t) / 2)%nat /\
    count_byes (pairings r) = (List.length (players t) mod 2)%nat.
Proof.
  intros Hne. unfold swiss_generate_pairings. cbv zeta.
  assert (Hlen0 : List.length (map fst (swiss_table t)) = List.length (players t))
    by apply (Permutation_length (swiss_table_ids t)).
  assert (Hne0 : forall x, In x (map fst (swiss_table t)) -> x <> ""%string).
  { intros x Hx. apply Hne. eapply Permutation_in; [apply swiss_table_ids|exact Hx]. }
  assert (Hstart : forall byes players1,
    (forall x, In x players1 -> x <> ""%string) -> count_real byes = 0%nat ->
    exists r k', (let '(acc, unpaired, k') :=
       swiss_loop e t (swiss_table t) (List.length players1) players1 1 k byes in
     Generated (mkRound rn (renumber 1 (acc ++ map (fun pid => bye_pairing (Some pid)) unpaired))
       (Some (now e)) None) k') = Generated r k' /\
     count_real (pairings r) = (List.length players1 / 2)%nat /\
     count_byes (pairings r) = (count_byes byes + List.length players1 mod 2)%nat).
  { intros byes players1 Hn Hb.
    pose proof (swiss_loop_counts e t (swiss_table t) (List.length players1) players1 1 k byes
                  Hn ltac:(lia)) as Hl.
    destruct (swiss_loop e t (swiss_table t) (List.length players1) players1 1 k byes)
      as [[acc unpaired] k'].
    destruct Hl as (H1 & H2 & H3).
    destruct (bye_pairings_counts unpaired) as [B1 B2].
    eexists _, k'. split; [reflexivity|]. cbn [pairings].
    destruct (renumber_counts 1 (acc ++ map (fun pid => bye_pairing (Some pid)) unpaired))
      as [R1 R2].
    rewrite R1, R2, count_real_app, count_byes_app. lia. }
  rewrite odd_mod2, Hlen0.
  div2_facts (List.length (players t)).
  destruct (Nat.eqb_spec (List.length (players t) mod 2) 1) as [Hodd|Heven].
  - destruct (swiss_bye_player t (swiss_table t)) as [b|] eqn:Hbp.
    + destruct (truthy (Some b)).
      * apply swiss_bye_player_in in Hbp.
        pose proof (remove_first_length b _ Hbp) as Hrl.
        destruct (Hstart [bye_pairing (Some b)] (remove_first b (map fst (swiss_table t))))
          as [r [k' (Hg & H1 & H2)]]; [|reflexivity|].
        { intros x Hx. apply Hne0. eapply remove_first_incl. exact Hx. }
        exists r, k'. split; [exact Hg|]. rewrite H1, H2.
        change (count_byes [bye_pairing (Some b)]) with 1%nat.
        div2_facts (List.length (remove_first b (map fst (swiss_table t)))).
        unfold Id in *. lia.
      * destruct (Hstart [] (map fst (swiss_table t)) Hne0 eq_refl) as [r [k' (Hg & H1 & H2)]].
        exists r, k'. split; [exact Hg|].
        change (count_byes []) with 0%nat in H2. unfold Id in *. rewrite Hlen0 in H1, H2. lia.
    + destruct (Hstart [] (map fst (swiss_table t)) Hne0 eq_refl) as [r [k' (Hg & H1 & H2)]].
      exists r, k'. split; [exact Hg|].
        change (count_byes []) with 0%nat in H2. unfold Id in *. rewrite Hlen0 in H1, H2. lia.
  - destruct (Hstart [] (map fst (swiss_table t)) Hne0 eq_refl) as [r [k' (Hg & H1 & H2)]].
    exists r, k'. split; [exact Hg|].
        change (count_byes []) with 0%nat in H2. unfold Id in *. rewrite Hlen0 in H1, H2. lia.
Qed.

Lemma rr_round1_counts (e : Env) (t : Tournament) (k : nat) :
  (1 <= List.length (players t))%nat ->
  exists r k', round_robin_generate_pairings e t 1 k = Generated r k' /\
    count_real (pairings r) = (List.length (players t) / 2)%nat /\
    count_byes (pairings r) = (List.length (players t) mod 2)%nat.
Proof.
  intros HN. unfold round_robin_generate_pairings. cbv zeta.
  set (m := if Nat.odd (List.length (players t)) then 1%nat else 0%nat).
  assert (Hpl : (if Nat.odd (List.length (map Some (players t)))
                 then map Some (players t) ++ [None] else map Some (players t)) =
                map Some (players t) ++ repeat None m).
  { unfold m. rewrite length_map. destruct (Nat.odd _); [reflexivity|].
    symmetry. apply app_nil_r. }
  rewrite Hpl.
  pose proof (padded_slot_counts (players t) m) as Hc. cbv zeta in Hc.
  assert (HL : List.length (map Some (players t) ++ repeat None m) =
               (List.length (players t) + m)%nat)
    by (now rewrite length_app, length_map, repeat_length).
  div2_facts (List.length (players t)).
  assert (Hm : m = (List.length (players t) mod 2)%nat).
  { unfold m. rewrite odd_mod2. destruct (Nat.eqb_spec (List.length (players t) mod 2) 1); lia. }
  clearbody m. subst m.
  rewrite HL in Hc. div2_facts (List.length (players t) + List.length (players t) mod 2)%nat.
  destruct Hc as [C1 C2]; [lia|].
  destruct (map Some (players t) ++ repeat None (List.length (players t) mod 2))
    as [|p0 rest] eqn:E; [cbn in HL; lia|].
  change (Z.to_nat (1 - 1)) with 0%nat. cbn [rotate_times].
  eexists _, k. split; [reflexivity|]. cbn [pairings].
  destruct (renumber_counts 1 (rr_loop (p0 :: rest) (List.length (p0 :: rest)) (1 - 1)
              (seq 0 (List.length (p0 :: rest) / 2)) 1)) as [R1 R2].
  destruct (rr_loop_counts (p0 :: rest) (List.length (p0 :: rest)) (1 - 1)
              (seq 0 (List.length (p0 :: rest) / 2)) 1) as [L1 L2].
  rewrite R1, R2, L1, L2, HL, C1, C2. lia.
Qed.

Lemma ko_round1_counts (e : Env) (t : Tournament) (k p : nat) :
  (2 ^ p / 2 < List.length (players t) <= 2 ^ p)%nat ->
  exists r k', knockout_generate_pairings e t 1 k = Generated r k' /\
    count_real (pairings r) = (List.length (players t) + 2 ^ p / 2 - 2 ^ p)%nat /\
    count_byes (pairings r) = (2 ^ p - List.length (players t))%nat.
Proof.
  intros Hp. unfold knockout_generate_pairings.
  change (Z.eqb 1 1) with true. cbv beta iota zeta.
  set (sorted := sort_desc snd (map (fun pid => (pid, ko_rating e pid)) (players t))).
  assert (Hs : List.length (map fst sorted) = List.length (players t)).
  { rewrite length_map. unfold sorted. rewrite (Permutation_length (sort_desc_perm _ _)).
    apply length_map. }
  assert (Hpl : map (fun x => Some (fst x)) sorted = map Some (map fst sorted))
    by (now rewrite map_map).
  rewrite Hpl.
  rewrite (ko_pad_pow p)
    by (rewrite length_map, Hs; div2_facts (2 ^ p)%nat; lia).
  rewrite length_map, Hs.
  set (L := map Some (map fst sorted) ++ repeat None (2 ^ p - List.length (players t))).
  pose proof (ko_loop1_counts e L (List.length L) (seq 0 (List.length L / 2)) 1 k) as [L1 L2].
  destruct (ko_loop1 e L (List.length L) (seq 0 (List.length L / 2)) 1 k) as [ps k2].
  cbn [fst] in L1, L2.
  eexists _, k2. split; [reflexivity|]. cbn [pairings].
  destruct (renumber_counts 1 ps) as [R1 R2]. rewrite R1, R2, L1, L2.
  pose proof (padded_slot_counts (map fst sorted) (2 ^ p - List.length (players t))) as Hc.
  cbv zeta in Hc. fold L in Hc.
  assert (HL : List.length L = (2 ^ p)%nat)
    by (unfold L; rewrite length_app, length_map, repeat_length, Hs; lia).
  rewrite HL in Hc |- *. rewrite Hs in Hc.
  assert (HP : (2 ^ p = 1 /\ 2 ^ p / 2 = 0 \/ 2 ^ p = 2 * (2 ^ p / 2))%nat).
  { destruct p as [|q]; [left; split; reflexivity|right].
    rewrite Nat.pow_succ_r', Nat.mul_comm, Nat.div_mul by discriminate. lia. }
  destruct Hc as [C1 C2]; [lia|]. rewrite C1, C2. lia.
Qed.

(** C1 fails for the knockout strategy: with six players the first round is
    padded to eight seats, giving two real games and two byes although six is
    even and [6 / 2 = 3]. *)
Lemma knockout_round1_counts_fail :
  exists r k', get_pairing_strategy KNOCKOUT (env_at "T"%string) ko_six 1 0 = Generated r k' /\
    List.length (players ko_six) = 6%nat /\
    count_real (pairings r) = 2%nat /\ count_byes (pairings r) = 2%nat.
Proof. eexists _, _. split; [reflexivity|]. vm_compute. repeat split. Qed.

(** C1 (amended): for a first round over [N >= 1] players with non-empty
    IDs, the Swiss and Round Robin strategies produce [N / 2] real pairings
    and [N mod 2] byes (a bye exactly when [N] is odd); the knockout strategy
    seats the players in [2 ^ p] slots, [2 ^ p] the least power of two not
    below [N], and produces [N - 2 ^ p / 2] real pairings and [2 ^ p - N]
    byes (none at all when [N = 1]). *)
Theorem round1_pairing_counts (e : Env) (t : Tournament) (k : nat) :
  (1 <= List.length (players t))%nat ->
  (forall x, In x (players t) -> x <> ""%string) ->
  (forall tt, tt <> KNOCKOUT ->
     exists r k', get_pairing_strategy tt e t 1 k = Generated r k' /\
       count_real (pairings r) = (List.length (players t) / 2)%nat /\
       count_byes (pairings r) = (List.length (players t) mod 2)%nat) /\
  (forall p, (2 ^ p / 2 < List.length (players t) <= 2 ^ p)%nat ->
     exists r k', get_pairing_strategy KNOCKOUT e t 1 k = Generated r k' /\
       count_real (pairings r) = (List.length (players t) + 2 ^ p / 2 - 2 ^ p)%nat /\
       count_byes (pairings r) = (2 ^ p - List.length (players t))%nat).
Proof.
  intros HN Hne. split.
  - intros tt Htt. destruct tt; [apply swiss_round_counts, Hne|apply rr_round1_counts, HN|].
    contradiction.
  - intros p Hp. apply ko_round1_counts, Hp.
Qed.

Lemma round1_pairing_counts_witness :
  exists r k', get_pairing_strategy KNOCKOUT (env_at "T"%string) ko_six 1 0 = Generated r k' /\
    count_real (pairings r) = 2%nat /\ count_byes (pairings r) = 2%nat.
Proof.
  destruct (round1_pairing_counts (env_at "T"%string) ko_six 0) as [_ Hko].
  - vm_compute. lia.
  - intros x Hx. vm_compute in Hx.
    repeat destruct Hx as [<-|Hx]; try discriminate; destruct Hx.
  - destruct (Hko 3%nat ltac:(vm_compute; lia)) as [r [k' (Hg & H1 & H2)]].
    exists r, k'. split; [exact Hg|]. split; [exact H1|exact H2].
Defined.

(* ------------------------------------------------------------------ *)
(** ** The round-robin schedule *)

Lemma mod_affine_inj (m g c s1 s2 : nat) :
  (0 < m)%nat -> (g = 1 \/ g = 2 /\ Nat.odd m = true)%nat -> (s1 < m)%nat -> (s2 < m)%nat ->
  ((c + g * s1) mod m = (c + g * s2) mod m)%nat -> s1 = s2.
Proof.
  intros Hm Hg H1 H2 Heq.
  pose proof (Nat.div_mod_eq (c + g * s1) m) as D1.
  pose proof (Nat.div_mod_eq (c + g * s2) m) as D2.
  set (q1 := ((c + g * s1) / m)%nat) in *. set (q2 := ((c + g * s2) / m)%nat) in *.
  clearbody q1 q2. rewrite Heq in D1.
  assert (Hd : Z.of_nat g * (Z.of_nat s1 - Z.of_nat s2) =
               Z.of_nat m * (Z.of_nat q1 - Z.of_nat q2)) by lia.
  destruct (Z.lt_trichotomy (Z.of_nat q1 - Z.of_nat q2) 0) as [Hlt|[Heq0|Hgt]].
  - assert (Z.of_nat m * (Z.of_nat q1 - Z.of_nat q2) <= - Z.of_nat m) by nia.
    destruct Hg as [->|[-> Ho]]; [lia|].
    assert (Z.of_nat q1 - Z.of_nat q2 = -1 \/ Z.of_nat q1 - Z.of_nat q2 <= -2) as [E|E] by lia.
    + rewrite E in Hd. apply Nat.odd_spec in Ho. destruct Ho as [j Hj]. lia.
    + assert (Z.of_nat m * (Z.of_nat q1 - Z.of_nat q2) <= - (2 * Z.of_nat m)) by nia. lia.
  - rewrite Heq0 in Hd. destruct Hg as [->|[-> Ho]]; lia.
  - assert (Z.of_nat m * (Z.of_nat q1 - Z.of_nat q2) >= Z.of_nat m) by nia.
    destruct Hg as [->|[-> Ho]]; [lia|].
    assert (Z.of_nat q1 - Z.of_nat q2 = 1 \/ Z.of_nat q1 - Z.of_nat q2 >= 2) as [E|E] by lia.
    + rewrite E in Hd. apply Nat.odd_spec in Ho. destruct Ho as [j Hj]. lia.
    + assert (Z.of_nat m * (Z.of_nat q1 - Z.of_nat q2) >= 2 * Z.of_nat m) by nia. lia.
Qed.

Lemma filter_single {A} (P : A -> bool) (l : list A) (a : A) :
  NoDup l -> In a l -> P a = true -> (forall b, In b l -> P b = true -> b = a) ->
  List.length (filter P l) = 1%nat.
Proof.
  intros Hnd Ha Hp Hu.
  assert (Hin : In a (filter P l)) by (apply filter_In; auto).
  assert (Hle : (List.length (filter P l) <= List.length [a])%nat).
  { apply NoDup_incl_length; [apply NoDup_filter, Hnd|].
    intros b Hb. apply filter_In in Hb. destruct Hb as [Hb Hpb]. left. symmetry. auto. }
  destruct (filter P l) as [|x r]; [destruct Hin|]. simpl in Hle |- *. lia.
Qed.

Lemma filter_none {A} (P : A -> bool) (l : list A) :
  (forall b, In b l -> P b = false) -> List.length (filter P l) = 0%nat.
Proof.
  induction l as [|a l IH]; intros H; [reflexivity|]. simpl.
  rewrite (H a (or_introl eq_refl)). apply IH. intros b Hb. apply H. now right.
Qed.

(** [s |-> (c + g * s) mod m] hits [0] exactly once on [0 .. m - 1] when [g]
    is invertible modulo [m]. *)
Lemma mod_affine_zero_once (m g c : nat) :
  (0 < m)%nat -> (g = 1 \/ g = 2 /\ Nat.odd m = true)%nat ->
  List.length (filter (fun s => ((c + g * s) mod m =? 0)%nat) (seq 0 m)) = 1%nat.
Proof.
  intros Hm Hg.
  assert (Hnd : NoDup (map (fun s => ((c + g * s) mod m)%nat) (seq 0 m))).
  { apply NoDup_map_NoDup_ForallPairs; [|apply seq_NoDup].
    intros s1 s2 H1 H2 Heq. apply in_seq in H1, H2.
    eapply mod_affine_inj; eauto; lia. }
  assert (Hincl : incl (seq 0 m) (map (fun s => ((c + g * s) mod m)%nat) (seq 0 m))).
  { apply NoDup_length_incl; [exact Hnd|rewrite length_map; lia|].
    intros y Hy. apply in_map_iff in Hy. destruct Hy as [s [<- _]].
    apply in_seq. pose proof (Nat.mod_upper_bound (c + g * s) m ltac:(lia)). lia. }
  destruct (in_map_iff (fun s => ((c + g * s) mod m)%nat) (seq 0 m) 0%nat) as [Hex _].
  destruct (Hex (Hincl 0%nat ltac:(apply in_seq; lia))) as [s0 [Hs0 Hin0]].
  apply (filter_single _ _ s0); [apply seq_NoDup|exact Hin0|now rewrite Hs0|].
  intros s Hs Hp. apply Nat.eqb_eq in Hp. apply in_seq in Hs, Hin0.
  eapply mod_affine_inj; eauto; [lia|lia|]. now rewrite Hp, Hs0.
Qed.

Lemma list_sum_indicator {A} (P : A -> bool) (l : list A) :
  list_sum (map (fun a => if P a then 1%nat else 0%nat) l) = List.length (filter P l).
Proof. induction l as [|a l IH]; [reflexivity|]. simpl. rewrite IH. now destruct (P a). Qed.

Lemma rotate_right_nth {A} (l l' : list A) (d : A) (a : nat) :
  rotate_right l = Some l' -> (a < List.length l)%nat ->
  List.length l' = List.length l /\
  nth ((a + 1) mod List.length l) l' d = nth a l d.
Proof.
  unfold rotate_right. intros H Ha.
  destruct (rev l) as [|x r] eqn:Hr; [discriminate|]. injection H as <-.
  assert (Hl : l = rev r ++ [x]) by (rewrite <- (rev_involutive l), Hr; reflexivity).
  subst l. rewrite length_app, length_rev in *. simpl List.length in *.
  split; [simpl; rewrite length_rev; lia|].
  destruct (Nat.eq_dec a (List.length r)) as [->|Hne].
  - replace ((List.length r + 1) mod (List.length r + 1))%nat with 0%nat
      by (symmetry; apply Nat.Div0.mod_same).
    rewrite app_nth2 by (rewrite length_rev; lia).
    rewrite length_rev, Nat.sub_diag. reflexivity.
  - rewrite Nat.mod_small by lia. rewrite Nat.add_1_r. simpl.
    rewrite app_nth1 by (rewrite length_rev; lia). reflexivity.
Qed.

Lemma rotate_times_nth {A} (s : nat) (l : list A) (d : A) :
  l <> [] ->
  exists l', rotate_times s l = Some l' /\ List.length l' = List.length l /\
    forall a, (a < List.length l)%nat -> nth ((a + s) mod List.length l) l' d = nth a l d.
Proof.
  revert l. induction s as [|s IH]; intros l Hl.
  - exists l. split; [reflexivity|]. split; [reflexivity|].
    intros a Ha. rewrite Nat.add_0_r, Nat.mod_small by exact Ha. reflexivity.
  - assert (Hlen : (0 < List.length l)%nat) by (destruct l; [contradiction|simpl; lia]).
    destruct (rotate_right l) as [l1|] eqn:Hr.
    2: { exfalso. unfold rotate_right in Hr. destruct (rev l) eqn:E; [|discriminate].
         apply Hl. rewrite <- (rev_involutive l), E. reflexivity. }
    destruct (rotate_right_nth l l1 d 0 Hr Hlen) as [Hl1 _].
    destruct (IH l1) as [l' (Hrot & Hl' & Hnth)].
    { intros ->. simpl in Hl1. lia. }
    exists l'. split; [simpl; rewrite Hr; exact Hrot|]. split; [lia|].
    intros a Ha.
    destruct (rotate_right_nth l l1 d a Hr Ha) as [_ Ha1].
    rewrite <- Ha1, <- Hnth by (rewrite Hl1; apply Nat.mod_upper_bound; lia).
    rewrite Hl1, Nat.Div0.add_mod_idemp_l. f_equal. f_equal. lia.
Qed.

Lemma oeqb_spec (o1 o2 : option Id) : oeqb o1 o2 = true <-> o1 = o2.
Proof.
  destruct o1 as [a|], o2 as [b|]; simpl; split; intros H; try discriminate; try reflexivity.
  - apply String.eqb_eq in H. now subst.
  - injection H as ->. apply String.eqb_refl.
Qed.

Lemma oeqb_nth (L : list (option Id)) (i j : nat) :
  NoDup L -> (i < List.length L)%nat -> (j < List.length L)%nat ->
  oeqb (nth i L None) (nth j L None) = (i =? j)%nat.
Proof.
  intros Hnd Hi Hj. destruct (Nat.eqb_spec i j) as [->|Hne].
  - apply oeqb_spec. reflexivity.
  - destruct (oeqb (nth i L None) (nth j L None)) eqn:E; [|reflexivity].
    apply oeqb_spec in E. exfalso. apply Hne.
    eapply NoDup_nth; eauto.
Qed.

(** In a seating list without repetitions, the two seats [ju] and [jv] face
    each other exactly when [ju + jv = n - 1]. *)
Lemma slot_is_count (L : list (option Id)) (n ju jv : nat) :
  NoDup L -> List.length L = n -> (ju < n)%nat -> (jv < n)%nat -> ju <> jv ->
  List.length (filter (fun i => slot_is (nth ju L None) (nth jv L None)
                                  (nth i L None) (nth (n - 1 - i) L None))
                 (seq 0 (n / 2))) =
  if (ju + jv =? n - 1)%nat then 1%nat else 0%nat.
Proof.
  intros Hnd Hn Hju Hjv Hne. subst n.
  set (n := List.length L).
  assert (Hpred : forall i, In i (seq 0 (n / 2)) ->
            slot_is (nth ju L None) (nth jv L None) (nth i L None) (nth (n - 1 - i) L None) =
            ((i =? ju) && (n - 1 - i =? jv) || (i =? jv) && (n - 1 - i =? ju))%nat).
  { intros i Hi. apply in_seq in Hi. pose proof (Nat.Div0.mul_div_le n 2).
    unfold slot_is. rewrite !oeqb_nth by (auto; lia). reflexivity. }
  rewrite (filter_ext_in _ _ _ Hpred).
  pose proof (Nat.Div0.mul_div_le n 2). div2_facts n.
  destruct (Nat.eqb_spec (ju + jv) (n - 1)) as [Hs|Hs].
  - apply (filter_single _ _ (Nat.min ju jv)); [apply seq_NoDup| | |].
    + apply in_seq. lia.
    + destruct (Nat.le_gt_cases ju jv).
      * rewrite Nat.min_l by lia. rewrite Nat.eqb_refl.
        replace (n - 1 - ju)%nat with jv by lia. rewrite Nat.eqb_refl. reflexivity.
      * rewrite Nat.min_r by lia. rewrite Nat.eqb_refl.
        replace (n - 1 - jv)%nat with ju by lia. rewrite Nat.eqb_refl.
        apply orb_true_r.
    + intros b Hb Hp. apply in_seq in Hb.
      apply orb_true_iff in Hp. rewrite !andb_true_iff, !Nat.eqb_eq in Hp. lia.
  - apply filter_none. intros b Hb. apply in_seq in Hb.
    apply not_true_is_false. intros Hp.
    apply orb_true_iff in Hp. rewrite !andb_true_iff, !Nat.eqb_eq in Hp. lia.
Qed.

Lemma renumber_filter (f : Pairing -> bool) (i : Z) (ps : list Pairing) :
  (forall p q, white_id p = white_id q -> black_id p = black_id q -> f p = f q) ->
  List.length (filter f (renumber i ps)) = List.length (filter f ps).
Proof.
  intros Hf. revert i. induction ps as [|p ps IH]; intros i; [reflexivity|].
  cbn [renumber]. destruct (black_id p) eqn:Hb.
  - rewrite !length_filter_cons, IH.
    rewrite (Hf (mkPairing (white_id p) (Some i0) (Some i) (result p)) p); auto.
  - rewrite !length_filter_cons, IH. reflexivity.
Qed.

(** Counting the pairings of the round-robin loop that satisfy [f], where [f]
    only depends on the seats as [g] does. *)
Lemma rr_loop_filter (f : Pairing -> bool) (g : option Id -> option Id -> bool)
    (L : list (option Id)) (n : nat) (adj : Z) (idx : list nat) (board : Z) :
  (forall x y bd res, f (mkPairing (Some x) (Some y) bd res) = g (Some x) (Some y) /\
                      f (mkPairing (Some y) (Some x) bd res) = g (Some x) (Some y)) ->
  (forall w b, match w, b with Some _, Some _ => False | _, _ => True end ->
     f (bye_pairing (match w with Some _ => w | None => b end)) = g w b) ->
  List.length (filter f (rr_loop L n adj idx board)) =
  List.length (filter (fun i => g (nth i L None) (nth (n - 1 - i) L None)) idx).
Proof.
  intros Hs Hb. revert board. induction idx as [|i idx IH]; intros board; [reflexivity|].
  cbn [rr_loop]. rewrite length_filter_cons.
  destruct (nth i L None) as [x|] eqn:Ew, (nth (n - 1 - i) L None) as [y|] eqn:Eb.
  - destruct (Z.eqb ((Z.of_nat i + adj) mod 2) 0); rewrite length_filter_cons, IH;
      destruct (Hs x y (Some board) ONGOING) as [H1 H2]; [rewrite H2|rewrite H1]; reflexivity.
  - rewrite length_filter_cons, IH, <- (Hb (Some x) None I). reflexivity.
  - rewrite length_filter_cons, IH, <- (Hb None (Some y) I). reflexivity.
  - rewrite length_filter_cons, IH, <- (Hb None None I). reflexivity.
Qed.

Lemma mod_eq0_small (m x : nat) :
  (0 < m)%nat -> (0 < x)%nat -> (x < 2 * m)%nat -> ((x mod m =? 0) = (x =? m))%nat.
Proof.
  intros Hm Hx0 Hx.
  destruct (Nat.lt_ge_cases x m) as [Hlt|Hge].
  - rewrite Nat.mod_small by exact Hlt.
    destruct (Nat.eqb_spec x 0), (Nat.eqb_spec x m); reflexivity || lia.
  - replace x with ((x - m) + 1 * m)%nat at 1 by lia.
    rewrite Nat.Div0.mod_add, Nat.mod_small by lia.
    destruct (Nat.eqb_spec (x - m) 0), (Nat.eqb_spec x m); reflexivity || lia.
Qed.

(** Two distinct entries of the initial seating list face each other in
    round [s + 1] exactly when an affine function of [s] vanishes modulo [m]. *)
Lemma rr_seat_cond (m ja jb : nat) :
  (0 < m)%nat -> Nat.odd m = true -> (ja <= m)%nat -> (jb <= m)%nat -> ja <> jb ->
  exists c g, (g = 1 \/ g = 2 /\ Nat.odd m = true)%nat /\
    forall s, ((rr_seat m s ja + rr_seat m s jb =? m) = ((c + g * s) mod m =? 0))%nat.
Proof.
  intros Hm Hodd Ha Hb Hne.
  assert (Hone : forall b s, (b < m)%nat ->
            ((S ((b + s) mod m) =? m) = ((S b + 1 * s) mod m =? 0))%nat).
  { intros b s Hb'. pose proof (Nat.mod_upper_bound (b + s) m ltac:(lia)).
    replace (S b + 1 * s)%nat with ((b + s) + 1)%nat by lia.
    rewrite <- (Nat.Div0.add_mod_idemp_l (b + s) 1 m).
    set (r := ((b + s) mod m)%nat) in *.
    rewrite mod_eq0_small by lia. f_equal. lia. }
  destruct ja as [|a], jb as [|b]; [contradiction| | |].
  - exists (S b), 1%nat. split; [now left|]. intros s. apply Hone. lia.
  - exists (S a), 1%nat. split; [now left|]. intros s. cbn [rr_seat].
    rewrite Nat.add_0_r. apply Hone. lia.
  - exists (a + b + 2)%nat, 2%nat. split; [right; now split|]. intros s.
    cbn [rr_seat].
    set (ra := ((a + s) mod m)%nat). set (rb := ((b + s) mod m)%nat).
    assert (Hra : (ra < m)%nat) by (apply Nat.mod_upper_bound; lia).
    assert (Hrb : (rb < m)%nat) by (apply Nat.mod_upper_bound; lia).
    assert (Hsum : ((a + b + 2 + 2 * s) mod m = (ra + rb + 2) mod m)%nat).
    { unfold ra, rb.
      replace (a + b + 2 + 2 * s)%nat with ((a + s) + ((b + s) + 2))%nat by lia.
      rewrite <- (Nat.Div0.add_mod_idemp_l (a + s) (b + s + 2) m).
      replace ((a + s) mod m + (b + s + 2))%nat with ((b + s) + ((a + s) mod m + 2))%nat by lia.
      rewrite <- (Nat.Div0.add_mod_idemp_l (b + s) ((a + s) mod m + 2) m). f_equal. lia. }
    rewrite Hsum.
    destruct (Nat.eq_dec (ra + rb + 2) (2 * m)) as [Heq|Hlt].
    + exfalso. assert (Hab : a = b).
      { apply (mod_affine_inj m 1 s a b Hm (or_introl eq_refl)); [lia|lia|].
        fold (ra) (rb). replace (s + 1 * a)%nat with (a + s)%nat by lia.
        replace (s + 1 * b)%nat with (b + s)%nat by lia. fold ra rb. lia. }
      congruence.
    + clearbody ra rb. rewrite mod_eq0_small by lia. f_equal. lia.
Qed.

(** The seating list of the round-robin strategy: the players, with one
    [None] appended when their number is odd. *)
Lemma rr_pl_eq (P : list Id) :
  (if Nat.odd (List.length (map Some P)) then map Some P ++ [None] else map Some P) =
  map Some P ++ (if Nat.odd (List.length P) then [None] else []).
Proof. rewrite length_map. destruct (Nat.odd _); [reflexivity|symmetry; apply app_nil_r]. Qed.

Lemma rr_pl_nodup (P : list Id) :
  NoDup P -> NoDup (map Some P ++ (if Nat.odd (List.length P) then [None] else [])).
Proof.
  intros Hnd. apply NoDup_app.
  - apply NoDup_map_NoDup_ForallPairs; [intros a b _ _ H; now injection H|exact Hnd].
  - destruct (Nat.odd _); [apply NoDup_cons; [intros []|constructor]|constructor].
  - intros o Ho1 Ho2. destruct (Nat.odd _); [|destruct Ho2].
    destruct Ho2 as [<-|[]]. apply in_map_iff in Ho1. destruct Ho1 as [? [? _]]; discriminate.
Qed.

Lemma rr_pl_length (P : list Id) :
  List.length (map Some P ++ (if Nat.odd (List.length P) then [None] else [])) =
  (List.length P + if Nat.odd (List.length P) then 1 else 0)%nat.
Proof. rewrite length_app, length_map. destruct (Nat.odd _); reflexivity. Qed.

Lemma rr_pl_even (P : list Id) :
  Nat.even (List.length P + if Nat.odd (List.length P) then 1 else 0)%nat = true.
Proof.
  destruct (Nat.odd (List.length P)) eqn:Ho.
  - rewrite Nat.add_1_r, Nat.even_succ. exact Ho.
  - rewrite Nat.add_0_r, <- Nat.negb_odd, Ho. reflexivity.
Qed.

(** Round [s + 1] of the round-robin strategy, with the rotated seating list
    written out. *)
Lemma rr_round_at (e : Env) (t : Tournament) (k s : nat) (p0 : option Id) (rest : list (option Id)) :
  map Some (players t) ++ (if Nat.odd (List.length (players t)) then [None] else []) = p0 :: rest ->
  rest <> [] ->
  exists rot,
    round_robin_generate_pairings e t (Z.of_nat (S s)) k =
      Generated (mkRound (Z.of_nat (S s))
        (renumber 1 (rr_loop (p0 :: rot) (List.length (p0 :: rest)) (Z.of_nat (S s) - 1)
                       (seq 0 (List.length (p0 :: rest) / 2)) 1))
        (Some (now e)) None) k /\
    Permutation (p0 :: rest) (p0 :: rot) /\
    List.length rot = List.length rest /\
    forall j, (j < List.length (p0 :: rest))%nat ->
      nth (rr_seat (List.length rest) s j) (p0 :: rot) None = nth j (p0 :: rest) None.
Proof.
  intros Hpl Hne. unfold round_robin_generate_pairings. cbv zeta.
  rewrite rr_pl_eq, Hpl.
  replace (Z.to_nat (Z.of_nat (S s) - 1)) with s by lia.
  destruct (rotate_times_nth s rest None Hne) as [rot (Hrot & Hlen & Hnth)].
  rewrite Hrot. exists rot. split; [reflexivity|]. split.
  { apply perm_skip. apply (rotate_times_perm s). exact Hrot. }
  split; [exact Hlen|].
  intros [|a] Ha; [reflexivity|]. cbn [rr_seat nth]. apply Hnth. cbn [List.length] in Ha. lia.
Qed.

(** Two distinct seats of the initial list face each other in exactly one of
    the rounds [1 .. n - 1], for any observation [f] of a pairing that reads
    the two seats as [slot_is u v] does. *)
Lemma rr_count_slot (f : Pairing -> bool) (e : Env) (t : Tournament) (k ju jv : nat)
    (u v : option Id) :
  NoDup (players t) ->
  let pl := map Some (players t) ++ (if Nat.odd (List.length (players t)) then [None] else []) in
  (ju < List.length pl)%nat -> (jv < List.length pl)%nat -> ju <> jv ->
  nth ju pl None = u -> nth jv pl None = v ->
  (forall p q, white_id p = white_id q -> black_id p = black_id q -> f p = f q) ->
  (forall x y bd res, f (mkPairing (Some x) (Some y) bd res) = slot_is u v (Some x) (Some y) /\
                      f (mkPairing (Some y) (Some x) bd res) = slot_is u v (Some x) (Some y)) ->
  (forall w b, match w, b with Some _, Some _ => False | _, _ => True end ->
     f (bye_pairing (match w with Some _ => w | None => b end)) = slot_is u v w b) ->
  rr_count f e t k (List.length pl - 1) = 1%nat.
Proof.
  intros Hnd pl Hju Hjv Hne Hu Hv Hren Hs Hb.
  pose proof (rr_pl_nodup _ Hnd) as Hndpl. fold pl in Hndpl.
  pose proof (rr_pl_length (players t)) as Hlen. fold pl in Hlen.
  pose proof (rr_pl_even (players t)) as Hev. rewrite <- Hlen in Hev.
  destruct pl as [|p0 rest] eqn:Hpl; [cbn in Hju; lia|].
  assert (Hne' : rest <> []).
  { intros ->. cbn in Hev. discriminate. }
  set (m := List.length rest).
  assert (Hm : (0 < m)%nat) by (unfold m; destruct rest; [contradiction|cbn; lia]).
  assert (Hodd : Nat.odd m = true).
  { cbn [List.length] in Hev. rewrite Nat.even_succ in Hev. exact Hev. }
  cbn [List.length] in Hju, Hjv |- *. fold m in Hju, Hjv |- *.
  replace (S m - 1)%nat with m by lia.
  unfold rr_count. rewrite <- seq_shift, map_map.
  rewrite (map_ext_in _ (fun s => if (rr_seat m s ju + rr_seat m s jv =? m)%nat then 1%nat else 0%nat)).
  2: {
    intros s _.
    destruct (rr_round_at e t k s p0 rest Hpl Hne') as [rot (Hgen & Hperm & Hrl & Hnth)].
    rewrite Hgen. cbn [pairings].
    rewrite renumber_filter by exact Hren.
    rewrite (rr_loop_filter f (slot_is u v)) by assumption.
    fold m in Hnth.
    rewrite <- Hu, <- Hv, <- (Hnth ju), <- (Hnth jv) by (cbn; lia).
    assert (Hseat : forall j, (j < S m)%nat -> (rr_seat m s j < S m)%nat).
    { intros [|a] Ha; cbn [rr_seat]; [lia|].
      pose proof (Nat.mod_upper_bound (a + s) m ltac:(lia)). lia. }
    assert (Hsne : rr_seat m s ju <> rr_seat m s jv).
    { destruct ju as [|a], jv as [|b]; cbn [rr_seat]; try discriminate; [contradiction|].
      intros Heq. injection Heq as Heq. apply Hne. f_equal.
      apply (mod_affine_inj m 1 s a b Hm (or_introl eq_refl)); [lia|lia|].
      replace (s + 1 * a)%nat with (a + s)%nat by lia.
      replace (s + 1 * b)%nat with (b + s)%nat by lia. exact Heq. }
    rewrite (slot_is_count (p0 :: rot) (List.length (p0 :: rest))).
    - cbn [List.length]. fold m. replace (S m - 1)%nat with m by lia. reflexivity.
    - eapply Permutation_NoDup; [exact Hperm|exact Hndpl].
    - cbn [List.length]. rewrite Hrl. reflexivity.
    - apply Hseat. exact Hju.
    - apply Hseat. exact Hjv.
    - exact Hsne. }
  rewrite list_sum_indicator.
  destruct (rr_seat_cond m ju jv Hm Hodd ltac:(lia) ltac:(lia) Hne) as [c [g [Hg Heq]]].
  rewrite (filter_ext_in _ (fun s => ((c + g * s) mod m =? 0)%nat)) by (intros s _; apply Heq).
  apply mod_affine_zero_once; assumption.
Qed.

Lemma rr_pl_index (P : list Id) (x : Id) :
  In x P -> exists j, (j < List.length P)%nat /\
    nth j (map Some P ++ (if Nat.odd (List.length P) then [None] else [])) None = Some x.
Proof.
  intros Hx. destruct (In_nth P x ""%string Hx) as [j [Hj Hnth]].
  exists j. split; [exact Hj|].
  rewrite app_nth1 by (rewrite length_map; exact Hj).
  rewrite (nth_indep _ None (Some ""%string)) by (rewrite length_map; exact Hj).
  rewrite map_nth, Hnth. reflexivity.
Qed.

Lemma meets_slot (x y : Id) :
  (forall p q, white_id p = white_id q -> black_id p = black_id q -> meets x y p = meets x y q) /\
  (forall a b bd res,
     meets x y (mkPairing (Some a) (Some b) bd res) = slot_is (Some x) (Some y) (Some a) (Some b) /\
     meets x y (mkPairing (Some b) (Some a) bd res) = slot_is (Some x) (Some y) (Some a) (Some b)) /\
  (forall w b, match w, b with Some _, Some _ => False | _, _ => True end ->
     meets x y (bye_pairing (match w with Some _ => w | None => b end)) =
     slot_is (Some x) (Some y) w b).
Proof.
  split; [|split].
  - intros p q Hw Hb. unfold meets. now rewrite Hw, Hb.
  - intros a b bd res. unfold meets, slot_is. cbn [white_id black_id opt_eqb oeqb].
    split; [reflexivity|].
    destruct (String.eqb a x), (String.eqb a y), (String.eqb b x), (String.eqb b y); reflexivity.
  - intros [w|] [b|] H; try contradiction; unfold meets, slot_is, bye_pairing;
      cbn [white_id black_id opt_eqb oeqb];
      rewrite ?andb_false_r, ?andb_false_l; reflexivity.
Qed.

Lemma has_bye_slot (x : Id) :
  (forall p q, white_id p = white_id q -> black_id p = black_id q ->
     has_bye_of x p = has_bye_of x q) /\
  (forall a b bd res,
     has_bye_of x (mkPairing (Some a) (Some b) bd res) = slot_is (Some x) None (Some a) (Some b) /\
     has_bye_of x (mkPairing (Some b) (Some a) bd res) = slot_is (Some x) None (Some a) (Some b)) /\
  (forall w b, match w, b with Some _, Some _ => False | _, _ => True end ->
     has_bye_of x (bye_pairing (match w with Some _ => w | None => b end)) =
     slot_is (Some x) None w b).
Proof.
  split; [|split].
  - intros p q Hw Hb. unfold has_bye_of. now rewrite Hw, Hb.
  - intros a b bd res. unfold has_bye_of, slot_is. cbn [white_id black_id opt_eqb oeqb has_id negb].
    rewrite !andb_false_r. split; reflexivity.
  - intros [w|] [b|] H; try contradiction; unfold has_bye_of, slot_is, bye_pairing;
      cbn [white_id black_id opt_eqb oeqb has_id negb];
      rewrite ?andb_true_r, ?andb_false_r, ?andb_false_l, ?andb_true_l, ?orb_false_r; reflexivity.
Qed.

(** C5: for a duplicate-free player list of length [N], the rounds
    [1 .. N - 1] (even [N]) or [1 .. N] (odd [N]) generated by
    [RoundRobinPairingStrategy.generate_pairings] contain exactly one real game
    between any two distinct players, in either colour; for odd [N] they also
    contain exactly one bye for each player. *)
Theorem round_robin_complete (e : Env) (t : Tournament) (k : nat) :
  NoDup (players t) ->
  (Nat.even (List.length (players t)) = true ->
   forall x y, In x (players t) -> In y (players t) -> x <> y ->
     rr_count (meets x y) e t k (List.length (players t) - 1) = 1%nat) /\
  (Nat.odd (List.length (players t)) = true ->
   (forall x y, In x (players t) -> In y (players t) -> x <> y ->
      rr_count (meets x y) e t k (List.length (players t)) = 1%nat) /\
   (forall x, In x (players t) ->
      rr_count (has_bye_of x) e t k (List.length (players t)) = 1%nat)).
Proof.
  intros Hnd.
  pose proof (rr_pl_length (players t)) as Hlen.
  assert (Hmeet : forall x y, In x (players t) -> In y (players t) -> x <> y ->
    rr_count (meets x y) e t k
      (List.length (map Some (players t) ++
         (if Nat.odd (List.length (players t)) then [None] else [])) - 1) = 1%nat).
  { intros x y Hx Hy Hxy.
    destruct (rr_pl_index _ _ Hx) as [jx [Hjx Hnx]].
    destruct (rr_pl_index _ _ Hy) as [jy [Hjy Hny]].
    destruct (meets_slot x y) as (H1 & H2 & H3).
    apply (rr_count_slot (meets x y) e t k jx jy (Some x) (Some y) Hnd);
      try (rewrite Hlen; lia); try assumption.
    intros ->. rewrite Hnx in Hny. injection Hny as Hny. contradiction. }
  split.
  - intros Hev x y Hx Hy Hxy. specialize (Hmeet x y Hx Hy Hxy).
    rewrite Hlen, <- Nat.negb_even, Hev, Nat.add_0_r in Hmeet. exact Hmeet.
  - intros Hodd. rewrite Hlen, Hodd, Nat.add_sub in Hmeet. split; [exact Hmeet|].
    intros x Hx.
    destruct (rr_pl_index _ _ Hx) as [jx [Hjx Hnx]].
    rewrite Hodd in Hnx.
    destruct (has_bye_slot x) as (H1 & H2 & H3).
    pose proof (rr_count_slot (has_bye_of x) e t k jx (List.length (players t)) (Some x) None
                  Hnd) as Hc.
    cbv zeta in Hc. rewrite Hlen, Hodd, Nat.add_sub in Hc.
    apply Hc; try lia; try assumption.
    rewrite app_nth2 by (rewrite length_map; lia).
    rewrite length_map, Nat.sub_diag. reflexivity.
Qed.

Lemma round_robin_complete_witness :
  NoDup (players rr_five) /\
  rr_count (meets "p1"%string "p4"%string) (env_at ""%string) rr_five 0 5 = 1%nat /\
  rr_count (has_bye_of "p3"%string) (env_at ""%string) rr_five 0 5 = 1%nat.
Proof.
  assert (Hnd : NoDup (players rr_five)).
  { cbn. repeat constructor; cbn; intuition discriminate. }
  destruct (round_robin_complete (env_at ""%string) rr_five 0 Hnd) as [_ Hodd].
  destruct (Hodd eq_refl) as [Hm Hb].
  split; [exact Hnd|]. split.
  - apply (Hm "p1"%string "p4"%string); [cbn; tauto|cbn; tauto|discriminate].
  - apply (Hb "p3"%string). cbn; tauto.
Defined.

(* ------------------------------------------------------------------ *)
(** ** Further properties of the code *)

(** *** Serialisation *)

Lemma result_of_string_value (r : Result) : result_of_string (result_value r) = Some r.
Proof. destruct r; reflexivity. Qed.

Lemma tt_of_string_value (ty : TournamentType) : tt_of_string (tt_value ty) = Some ty.
Proof. destruct ty; reflexivity. Qed.

Lemma opt_str_jopt (o : option string) : opt_str (jopt_str o) = Some o.
Proof. destruct o; reflexivity. Qed.

Lemma opt_int_jopt (o : option Z) : opt_int (jopt_int o) = Some o.
Proof. destruct o; reflexivity. Qed.

Lemma pairing_round_trip (p : Pairing) : pairing_from_dict (pairing_to_dict p) = Some p.
Proof.
  destruct p as [w b bn res]. unfold pairing_to_dict, pairing_from_dict, jget_or, jget.
  cbn -[result_value opt_str opt_int jopt_str jopt_int].
  rewrite !opt_str_jopt, opt_int_jopt, result_of_string_value. reflexivity.
Qed.

Lemma map_opt_round_trip {A B} (f : A -> B) (g : B -> option A) (l : list A) :
  (forall x, g (f x) = Some x) -> map_opt g (map f l) = Some l.
Proof. intros H. induction l as [|x l IH]; [reflexivity|]. simpl. now rewrite H, IH. Qed.

Lemma round_round_trip (r : Round) : round_from_dict (round_to_dict r) = Some r.
Proof.
  destruct r as [n ps st en]. unfold round_to_dict, round_from_dict, jget_or, jget.
  cbn -[opt_str jopt_str map_opt pairing_to_dict pairing_from_dict].
  rewrite !opt_str_jopt, (map_opt_round_trip _ _ _ pairing_round_trip). reflexivity.
Qed.

(** X1: Reading back what [Tournament.to_dict] wrote gives the tournament again,
    except that an empty [tournament_id] is replaced by a fresh UUID and an
    empty [start_date] by the current time (the constructor's [or]
    defaults). *)
Theorem tournament_round_trip (now0 uuid0 : string) (t : Tournament) :
  tournament_from_dict now0 uuid0 (tournament_to_dict t) =
  Some (mkTournament
          (if String.eqb (tournament_id t) "" then uuid0 else tournament_id t)
          (name t) (tournament_type t) (num_rounds t) (location t)
          (if String.eqb (start_date t) "" then now0 else start_date t)
          (end_date t) (description t) (created_at t) (updated_at t)
          (players t) (rounds t) (current_round t) (is_finished t)).
Proof.
  destruct t. unfold tournament_to_dict, tournament_from_dict, jget_or, jget.
  cbn -[opt_str jopt_str map_opt round_to_dict round_from_dict tt_value tt_of_string str_of].
  rewrite tt_of_string_value, opt_str_jopt.
  rewrite (map_opt_round_trip _ _ _ round_round_trip).
  rewrite (map_opt_round_trip JStr str_of _ (fun _ => eq_refl)).
  reflexivity.
Qed.

(** *** Standings, report and CSV export *)

Lemma standings_loop_eq (w : World) (pids : list Id) :
  standings_loop w pids = if existsb (has_record w) pids then None else Some [].
Proof.
  induction pids as [|pid pids IH]; [reflexivity|].
  simpl. unfold has_record. destruct (player_file w pid); [reflexivity|exact IH].
Qed.

Lemma report_players_eq (w : World) (pids : list Id) :
  report_players w pids = if existsb (has_record w) pids then None else Some [].
Proof.
  induction pids as [|pid pids IH]; [reflexivity|].
  simpl. unfold has_record. destruct (player_file w pid); [reflexivity|exact IH].
Qed.

Lemma existsb_has_record (w : World) (pids : list Id) :
  existsb (has_record w) pids = true <-> exists pid, In pid pids /\ player_file w pid <> None.
Proof.
  rewrite existsb_exists. unfold has_record. split.
  - intros [pid [Hin Hr]]. exists pid. split; [exact Hin|].
    destruct (player_file w pid); [discriminate|discriminate].
  - intros [pid [Hin Hr]]. exists pid. split; [exact Hin|].
    destruct (player_file w pid); [reflexivity|contradiction].
Qed.

(** X2: [Tournament.get_standings] raises [AttributeError] as soon as one
    player of the tournament has a stored record; otherwise it returns an
    empty table. *)
Theorem get_standings_outcome (w : World) (t : Tournament) :
  (get_standings w t = None <-> exists pid, In pid (players t) /\ player_file w pid <> None) /\
  (get_standings w t <> None -> get_standings w t = Some []).
Proof.
  unfold get_standings. rewrite standings_loop_eq, <- existsb_has_record.
  destruct (existsb (has_record w) (players t)).
  - split; [tauto|]. intros H. contradiction.
  - split; [split; discriminate|]. intros _. reflexivity.
Qed.

(** X3: [get_tournament_report] returns [None] for a stored tournament exactly
    when one of its players has a stored record; otherwise the report counts
    no player, has empty standings, and lists for each round only its
    two-sided games, with both names ["Unknown"]. *)
Theorem tournament_report_outcome (w : World) (tid : string) (t : Tournament) :
  tournament_file w tid = Some t ->
  (get_tournament_report w tid = None <->
     exists pid, In pid (players t) /\ player_file w pid <> None) /\
  ((forall pid, In pid (players t) -> player_file w pid = None) ->
   get_tournament_report w tid =
     Some (mkReport (report_info t) 0 []
       (map (fun r => mkReportRound (number r)
               (map (fun p => mkReportGame (board_number p) "Unknown" "Unknown"
                                (result_value (result p)))
                  (filter (fun p => truthy (white_id p) && truthy (black_id p)) (pairings r)))
               (start_time r) (end_time r)) (rounds t)))).
Proof.
  intros Ht. unfold get_tournament_report, get_standings. rewrite Ht.
  rewrite report_players_eq, standings_loop_eq.
  destruct (existsb (has_record w) (players t)) eqn:He.
  - split.
    + split; [intros _; apply existsb_has_record; exact He|reflexivity].
    + intros Hnone. exfalso. apply existsb_has_record in He.
      destruct He as [pid [Hin Hr]]. apply Hr, Hnone, Hin.
  - split.
    + split; [discriminate|]. intros Hex. apply existsb_has_record in Hex. congruence.
    + intros _. cbn. f_equal. f_equal. apply map_ext. intros r.
      unfold report_round. f_equal. apply map_ext. intros p.
      unfold report_name. destruct (white_id p), (black_id p); reflexivity.
Qed.

(** X4: [export_tournament_to_csv] never produces a file: the report is either
    missing or has empty standings, and both make it return [None]. *)
Theorem export_csv_always_none (w : World) (tid : string) (output_path : option string)
    (default_path : string) :
  export_tournament_to_csv w tid output_path default_path = None.
Proof.
  unfold export_tournament_to_csv, get_tournament_report, get_standings.
  destruct (tournament_file w tid) as [t|]; [|reflexivity].
  rewrite report_players_eq, standings_loop_eq.
  destruct (existsb (has_record w) (players t)); reflexivity.
Qed.

(** *** Registering players and starting *)

Lemma nodup_snoc (x : Id) (l : list Id) : NoDup l -> ~ In x l -> NoDup (l ++ [x]).
Proof.
  intros Hnd Hx. apply (Permutation_NoDup (Permutation_cons_append l x)).
  constructor; assumption.
Qed.

Lemma upd_same {A} (f : string -> option A) (k : string) (v : option A) : upd f k v k = v.
Proof. unfold upd. now rewrite String.eqb_refl. Qed.

Lemma upd_other {A} (f : string -> option A) (k k' : string) (v : option A) :
  k' <> k -> upd f k v k' = f k'.
Proof. intros H. unfold upd. destruct (String.eqb_spec k' k); [contradiction|reflexivity]. Qed.

(** X5: [Tournament.add_player] adds a player only when absent, at the end of
    the list, and writes the tournament file; the list stays duplicate-free;
    the player's stored history then records the tournament, once. *)
Theorem tournament_add_player_spec (e : Env) (w : World) (t : Tournament) (pid : Id) :
  let '(b, w', t') := tournament_add_player e w t pid in
  b = negb (mem pid (players t)) /\
  (b = false -> w' = w /\ t' = t) /\
  (b = true -> players t' = players t ++ [pid] /\
               tournament_file w' (tournament_id t) = Some t') /\
  (NoDup (players t) -> NoDup (players t')) /\
  (b = true -> forall p, player_file w pid = Some p -> player_id p = pid ->
     exists p', player_file w' pid = Some p' /\ In (tournament_id t) (tournaments p') /\
       (NoDup (tournaments p) -> NoDup (tournaments p'))).
Proof.
  unfold tournament_add_player.
  destruct (mem pid (players t)) eqn:Hm.
  - split; [reflexivity|]. split; [tauto|]. split; [discriminate|].
    split; [tauto|discriminate].
  - apply mem_notin in Hm. cbn [negb].
    split; [reflexivity|]. split; [discriminate|].
    split; [|split].
    + intros _. split; [reflexivity|]. cbn. apply upd_same.
    + intros Hnd. cbn. apply nodup_snoc; assumption.
    + intros _ p Hp Hid. rewrite Hp. cbn [tournament_save player_file].
      unfold player_add_tournament. cbn [tournament_id set_players].
      destruct (mem (tournament_id t) (tournaments p)) eqn:Ht.
      * exists p. split; [exact Hp|]. split; [apply mem_In, Ht|tauto].
      * unfold player_save, set_tournaments. cbn [player_file player_id tournaments].
        rewrite Hid, upd_same.
        eexists. split; [reflexivity|]. cbn [tournaments].
        apply mem_notin in Ht. split; [apply in_or_app; right; now left|].
        intros Hnd. apply nodup_snoc; assumption.
Qed.

(** X6: [Tournament.remove_player] removes only a registered player; on a
    duplicate-free list the player is then gone and the list stays
    duplicate-free; otherwise nothing changes. *)
Theorem tournament_remove_player_spec (e : Env) (w : World) (t : Tournament) (pid : Id) :
  let '(b, w', t') := tournament_remove_player e w t pid in
  b = mem pid (players t) /\
  (b = false -> w' = w /\ t' = t) /\
  (b = true -> players t' = remove_first pid (players t) /\
               tournament_file w' (tournament_id t) = Some t') /\
  (NoDup (players t) -> ~ In pid (players t') /\ NoDup (players t')).
Proof.
  unfold tournament_remove_player.
  destruct (mem pid (players t)) eqn:Hm.
  - cbn. split; [reflexivity|]. split; [discriminate|]. split.
    + intros _. split; [reflexivity|]. apply upd_same.
    + intros Hnd. pose proof (remove_first_nodup pid _ Hnd) as H. inversion H; subst. tauto.
  - split; [reflexivity|]. split; [tauto|]. split; [discriminate|].
    intros Hnd. split; [apply mem_notin, Hm|exact Hnd].
Qed.

(** X7: [start_tournament] succeeds only on an unfinished tournament still at
    round 0, and then stores it at round 1; a tournament can therefore be
    started at most once: a second call fails and changes nothing. *)
Theorem start_tournament_once (e e' : Env) (w : World) (tid : string) (t : Tournament) :
  tournament_file w tid = Some t -> tournament_id t = tid ->
  let '(b, w') := start_tournament_ctl e w tid in
  b = negb (is_finished t) && Z.eqb (current_round t) 0 /\
  (b = false -> w' = w) /\
  (b = true -> (exists t', tournament_file w' tid = Some t' /\ current_round t' = 1) /\
               start_tournament_ctl e' w' tid = (false, w')).
Proof.
  intros Hf Hid. unfold start_tournament_ctl. rewrite Hf. unfold tournament_start.
  destruct (negb (is_finished t) && Z.eqb (current_round t) 0) eqn:Hc.
  - cbn. split; [reflexivity|]. split; [discriminate|]. intros _.
    rewrite Hid, upd_same. split; [eexists; split; reflexivity|].
    unfold start_tournament_ctl. cbn [tournament_file]. try rewrite upd_same.
    unfold tournament_start. cbn [save set_updated_at set_current_round is_finished current_round].
    change (Z.eqb 1 0) with false. rewrite andb_false_r. reflexivity.
  - split; [reflexivity|]. split; [reflexivity|discriminate].
Qed.

(** X8: Once a tournament has started ([current_round > 0]) players can be
    neither added nor removed; a player without a stored record cannot be
    added either.  A refused call changes nothing. *)
Theorem roster_locked (e : Env) (w : World) (tid : string) (t : Tournament) (pid : Id) :
  tournament_file w tid = Some t ->
  (0 < current_round t ->
     add_player_to_tournament e w tid pid = (false, w) /\
     remove_player_from_tournament e w tid pid = (false, w)) /\
  (player_file w pid = None -> add_player_to_tournament e w tid pid = (false, w)).
Proof.
  intros Hf. unfold add_player_to_tournament, remove_player_from_tournament. rewrite Hf.
  split.
  - intros Hc. apply Z.ltb_lt in Hc. rewrite Hc. split; reflexivity.
  - intros Hp. rewrite Hp. destruct (0 <? current_round t); reflexivity.
Qed.

(** *** Shape of the generated rounds *)

Ltac split_outcome H :=
  repeat match type of H with
         | context [match ?X with _ => _ end] => destruct X
         end.

Lemma strategy_shape (tt : TournamentType) (e : Env) (t : Tournament) (rn : Z) (k : nat)
    (r : Round) (k' : nat) :
  get_pairing_strategy tt e t rn k = Generated r k' ->
  number r = rn /\ exists ps, pairings r = renumber 1 ps.
Proof.
  intros H. destruct tt; cbn [get_pairing_strategy] in H.
  - unfold swiss_generate_pairings in H. cbv zeta in H. split_outcome H.
    all: injection H as <- _; split; [reflexivity|eexists; reflexivity].
  - unfold round_robin_generate_pairings in H. cbv zeta in H. split_outcome H;
      try discriminate H.
    injection H as <- _; split; [reflexivity|eexists; reflexivity].
  - unfold knockout_generate_pairings in H. cbv zeta in H. split_outcome H;
      try discriminate H.
    all: injection H as <- _; split; [reflexivity|eexists; reflexivity].
Qed.

Lemma renumber_boards (i : Z) (ps : list Pairing) :
  map board_number (filter has_black (renumber i ps)) =
  map (fun j => Some (i + Z.of_nat j)) (seq 0 (List.length (filter has_black ps))).
Proof.
  revert i. induction ps as [|p ps IH]; intros i; [reflexivity|].
  cbn [renumber]. unfold has_black at 2. cbn [filter].
  destruct (black_id p) as [b|] eqn:Hb; cbn [has_id].
  - cbn [filter has_black black_id has_id map board_number List.length].
    rewrite IH. cbn [seq map]. rewrite <- seq_shift, map_map.
    f_equal; [f_equal; lia|]. apply map_ext. intros j. f_equal. lia.
  - unfold has_black at 1. cbn [filter]. rewrite Hb. cbn [has_id]. apply IH.
Qed.

(** X9: Every round a pairing strategy returns numbers its boards [1, 2, ...]:
    the pairings that have a black player carry the board numbers
    [1 .. k] in order, so [update_result] can address each of them. *)
Theorem generated_boards (tt : TournamentType) (e : Env) (t : Tournament) (rn : Z) (k : nat)
    (r : Round) (k' : nat) :
  get_pairing_strategy tt e t rn k = Generated r k' ->
  map board_number (filter has_black (pairings r)) =
  map (fun j => Some (Z.of_nat j)) (seq 1 (List.length (filter has_black (pairings r)))).
Proof.
  intros H. destruct (strategy_shape tt e t rn k r k' H) as [_ [ps Hps]].
  rewrite Hps, renumber_boards.
  rewrite (renumber_filter has_black 1 ps) by (intros p q _ Hb; unfold has_black; now rewrite Hb).
  rewrite <- seq_shift, map_map. apply map_ext. intros j. f_equal. lia.
Qed.

Lemma generate_pairings_effect (e : Env) (t : Tournament) (rn : option Z) (k : nat) :
  let n := match rn with Some n => n | None => current_round t end in
  let '(b, t', k') := generate_pairings e t rn k in
  (b = false -> t' = t) /\
  (b = true -> ~ In n (map number (rounds t)) /\
     exists r, t' = add_round e t r /\ number r = n).
Proof.
  cbv zeta. unfold generate_pairings.
  set (n := match rn with Some n => n | None => current_round t end).
  destruct (existsb (fun r => Z.eqb (number r) n) (rounds t)) eqn:Hex.
  - split; [reflexivity|discriminate].
  - destruct (get_pairing_strategy (tournament_type t) e t n k) as [r k1|err] eqn:Hg.
    + split; [discriminate|]. intros _. split.
      * intros Hin. apply in_map_iff in Hin. destruct Hin as [r0 [Hr0 Hin]].
        assert (Hc : existsb (fun r => Z.eqb (number r) n) (rounds t) = true).
        { apply existsb_exists. exists r0. split; [exact Hin|]. apply Z.eqb_eq, Hr0. }
        congruence.
      * exists r. split; [reflexivity|]. apply (strategy_shape _ _ _ _ _ _ _ Hg).
    + split; [reflexivity|discriminate].
Qed.

(** X10: [generate_pairings] adds a round only when no stored round has the
    requested number (the current round by default), and then exactly one,
    with that number, at the end; on failure the tournament is unchanged.
    So the stored round numbers stay duplicate-free. *)
Theorem generate_pairings_rounds (e : Env) (t : Tournament) (rn : option Z) (k : nat) :
  let n := match rn with Some n => n | None => current_round t end in
  let '(b, t', k') := generate_pairings e t rn k in
  (b = false -> t' = t) /\
  (b = true -> exists r, rounds t' = rounds t ++ [r] /\ number r = n /\
                         ~ In n (map number (rounds t))) /\
  (NoDup (map number (rounds t)) -> NoDup (map number (rounds t'))).
Proof.
  pose proof (generate_pairings_effect e t rn k) as H. cbv zeta in H |- *.
  destruct (generate_pairings e t rn k) as [[b t'] k'].
  destruct H as [H1 H2]. destruct b.
  - destruct (H2 eq_refl) as [Hn [r [-> Hr]]].
    split; [discriminate|]. split.
    + intros _. exists r. split; [reflexivity|]. split; assumption.
    + intros Hnd. cbn [add_round save set_updated_at set_rounds rounds].
      rewrite map_app. cbn [map]. rewrite Hr.
      apply (Permutation_NoDup (Permutation_cons_append _ _)). constructor; assumption.
  - rewrite (H1 eq_refl). split; [tauto|]. split; [discriminate|tauto].
Qed.

(** *** Advancing rounds *)

Lemma generate_pairings_ctl_saved (e : Env) (w : World) (tid : string) (t : Tournament) (k : nat) :
  tournament_file w tid = Some t -> tournament_id t = tid ->
  let '(b, w', k') := generate_pairings_ctl e w tid None k in
  exists t', tournament_file w' tid = Some t' /\ current_round t' = current_round t /\
    (b = false -> rounds t' = rounds t) /\
    (b = true -> exists r, rounds t' = rounds t ++ [r] /\ number r = current_round t).
Proof.
  intros Hf Hid. unfold generate_pairings_ctl. rewrite Hf.
  pose proof (generate_pairings_effect e t None k) as H. cbv zeta in H.
  destruct (generate_pairings e t None k) as [[b t1] k1]. destruct H as [H1 H2].
  destruct b.
  - destruct (H2 eq_refl) as [_ [r [-> Hr]]].
    cbn [add_round save set_updated_at set_rounds tournament_id tournament_file].
    rewrite Hid, upd_same. eexists. split; [reflexivity|].
    cbn [current_round rounds]. split; [reflexivity|]. split; [discriminate|].
    intros _. exists r. split; [reflexivity|exact Hr].
  - exists t. split; [exact Hf|]. split; [reflexivity|].
    split; [reflexivity|discriminate].
Qed.

(** X11: [start_next_round] refuses a finished tournament; otherwise it moves the
    stored tournament to the next round (round 1 from round 0) before it
    generates the pairings, so the new round number is kept even when no
    round could be generated; on success the added round carries it. *)
Theorem start_next_round_spec (e : Env) (w : World) (tid : string) (t : Tournament) (k : nat) :
  tournament_file w tid = Some t -> tournament_id t = tid ->
  let '(b, w', k') := start_next_round e w tid k in
  (is_finished t = true -> b = false /\ w' = w) /\
  (is_finished t = false ->
   exists t', tournament_file w' tid = Some t' /\
     current_round t' = (if Z.eqb (current_round t) 0 then 1 else current_round t + 1) /\
     (b = false -> rounds t' = rounds t) /\
     (b = true -> exists r, rounds t' = rounds t ++ [r] /\ number r = current_round t')).
Proof.
  intros Hf Hid. unfold start_next_round. rewrite Hf.
  destruct (is_finished t) eqn:Hfin.
  - cbv beta iota. split; [intros _; split; reflexivity|discriminate].
  - destruct (Z.eqb (current_round t) 0) eqn:H0.
    + unfold tournament_start. rewrite Hfin, H0. cbn [negb andb tournament_save].
      set (t1 := save e (set_current_round t 1)).
      pose proof (generate_pairings_ctl_saved e
        (mkWorld (player_file w) (upd (tournament_file w) (tournament_id t) (Some t1)))
        tid t1 k) as Hg.
      cbn [tournament_file] in Hg. rewrite Hid, upd_same in Hg. specialize (Hg eq_refl Hid).
      cbn [set_current_round tournament_id]. rewrite Hid.
      destruct (generate_pairings_ctl e _ tid None k) as [[b w'] k'].
      split; [discriminate|intros _].
      destruct Hg as [t' [Ht' [Hc [Hb1 Hb2]]]].
      assert (Hc1 : current_round t' = 1) by (rewrite Hc; reflexivity).
      exists t'. split; [exact Ht'|]. split; [exact Hc1|]. split.
      * intros Hb. rewrite (Hb1 Hb). reflexivity.
      * intros Hb. destruct (Hb2 Hb) as [r [Hr Hn]]. exists r. split.
        -- rewrite Hr. reflexivity.
        -- rewrite Hn, Hc1. reflexivity.
    + cbn [tournament_save].
      set (t1 := save e (set_current_round t (current_round t + 1))).
      pose proof (generate_pairings_ctl_saved e
        (mkWorld (player_file w) (upd (tournament_file w) (tournament_id t) (Some t1)))
        tid t1 k) as Hg.
      cbn [tournament_file] in Hg. rewrite Hid, upd_same in Hg. specialize (Hg eq_refl Hid).
      cbn [set_current_round tournament_id]. rewrite Hid.
      destruct (generate_pairings_ctl e _ tid None k) as [[b w'] k'].
      split; [discriminate|intros _].
      destruct Hg as [t' [Ht' [Hc [Hb1 Hb2]]]].
      assert (Hc1 : current_round t' = current_round t + 1) by (rewrite Hc; reflexivity).
      exists t'. split; [exact Ht'|]. split; [exact Hc1|]. split.
      * intros Hb. rewrite (Hb1 Hb). reflexivity.
      * intros Hb. destruct (Hb2 Hb) as [r [Hr Hn]]. exists r. split.
        -- rewrite Hr. reflexivity.
        -- rewrite Hn, Hc1. reflexivity.
Qed.

Lemma unlink_player_tfile (e : Env) (tid : string) (w : World) (pid : Id) :
  tournament_file (unlink_player e tid w pid) = tournament_file w.
Proof.
  unfold unlink_player. destruct (player_file w pid) as [p|]; [|reflexivity].
  destruct (mem tid (tournaments p)); reflexivity.
Qed.

Lemma unlink_player_cases (e : Env) (tid : string) (w : World) (pid : Id) :
  unlink_player e tid w pid = w \/
  exists p, player_file w pid = Some p /\
    unlink_player e tid w pid =
      player_save e w (set_tournaments p (remove_first tid (tournaments p))).
Proof.
  unfold unlink_player. destruct (player_file w pid) as [p|]; [|now left].
  destruct (mem tid (tournaments p)); [right; now exists p|now left].
Qed.

(** A player store is well formed when each file holds the player of its
    name and each history is free of duplicates. *)
Lemma unlink_player_inv (e : Env) (tid : string) (w : World) (pid : Id) :
  (forall q p, player_file w q = Some p -> player_id p = q /\ NoDup (tournaments p)) ->
  (forall q p, player_file (unlink_player e tid w pid) q = Some p ->
     player_id p = q /\ NoDup (tournaments p)) /\
  (forall q, q <> pid -> player_file (unlink_player e tid w pid) q = player_file w q) /\
  (forall p, player_file (unlink_player e tid w pid) pid = Some p -> ~ In tid (tournaments p)).
Proof.
  intros Hinv. unfold unlink_player.
  destruct (player_file w pid) as [p|] eqn:Hp.
  2:{ split; [exact Hinv|]. split; [reflexivity|]. intros p' Hp'; congruence. }
  destruct (Hinv pid p Hp) as [Hid Hnd].
  destruct (mem tid (tournaments p)) eqn:Hm.
  2:{ split; [exact Hinv|]. split; [reflexivity|].
      intros p' Hp'. rewrite Hp in Hp'. injection Hp' as <-. now apply mem_notin. }
  pose proof (remove_first_nodup tid _ Hnd) as Hrm. inversion Hrm as [|? ? Hnin Hnd']; subst.
  unfold player_save, set_tournaments; cbn [player_file player_id tournaments].
  split; [|split].
  - intros q p' Hq. destruct (String.eqb_spec q (player_id p)) as [->|Hne].
    + rewrite upd_same in Hq. injection Hq as <-. cbn. now split.
    + rewrite upd_other in Hq by exact Hne. exact (Hinv q p' Hq).
  - intros q Hne. apply upd_other. congruence.
  - intros p' Hq. rewrite upd_same in Hq. injection Hq as <-. exact Hnin.
Qed.

Lemma unlink_fold (e : Env) (tid : string) (l : list Id) : forall (w : World),
  (forall q p, player_file w q = Some p -> player_id p = q /\ NoDup (tournaments p)) ->
  let w' := fold_left (unlink_player e tid) l w in
  (forall q p, player_file w' q = Some p -> player_id p = q /\ NoDup (tournaments p)) /\
  tournament_file w' = tournament_file w /\
  (forall q, ~ In q l -> player_file w' q = player_file w q) /\
  (forall q p, In q l -> player_file w' q = Some p -> ~ In tid (tournaments p)).
Proof.
  induction l as [|a l IH]; intros w Hinv; cbn [fold_left].
  - split; [exact Hinv|]. split; [reflexivity|]. split; [reflexivity|]. intros q p [].
  - destruct (unlink_player_inv e tid w a Hinv) as [Hinv1 [Hoth Hself]].
    destruct (IH _ Hinv1) as [Hinv2 [Ht [Hout Hin]]].
    split; [exact Hinv2|]. split; [rewrite Ht; apply unlink_player_tfile|]. split.
    + intros q Hq. rewrite Hout by (intros H; apply Hq; now right).
      apply Hoth. intros ->. apply Hq. now left.
    + intros q p Hq Hp. destruct (in_dec String.string_dec q l) as [Hql|Hql].
      * exact (Hin q p Hql Hp).
      * rewrite Hout in Hp by exact Hql. destruct Hq as [<-|Hq]; [|contradiction].
        exact (Hself p Hp).
Qed.

(** X12: [delete_tournament] on an existing tournament reports success, removes
    its file and leaves the other tournament files alone; on a well-formed
    player store no player of the tournament still lists it, and players
    outside the tournament are untouched. *)
Theorem delete_tournament_spec (e : Env) (w : World) (tid : string) (t : Tournament) :
  tournament_file w tid = Some t ->
  (forall q p, player_file w q = Some p -> player_id p = q /\ NoDup (tournaments p)) ->
  let '(b, w') := delete_tournament e w tid in
  b = true /\ tournament_file w' tid = None /\
  (forall x, x <> tid -> tournament_file w' x = tournament_file w x) /\
  (forall q, ~ In q (players t) -> player_file w' q = player_file w q) /\
  (forall q p, In q (players t) -> player_file w' q = Some p -> ~ In tid (tournaments p)).
Proof.
  intros Hf Hinv. unfold delete_tournament. rewrite Hf.
  destruct (unlink_fold e tid (players t) w Hinv) as [_ [Ht [Hout Hin]]].
  cbn [player_file tournament_file].
  split; [reflexivity|]. split; [apply upd_same|]. split.
  - intros x Hx. rewrite upd_other by exact Hx. now rewrite Ht.
  - split; [exact Hout|exact Hin].
Qed.

(** *** Python string operations *)

Lemma lower_char_idem (c : Ascii.ascii) : lower_char (lower_char c) = lower_char c.
Proof. destruct c as [[] [] [] [] [] [] [] []]; reflexivity. Qed.


Lemma py_lower_idem (s : string) : py_lower (py_lower s) = py_lower s.
Proof. induction s as [|c s IH]; simpl; [reflexivity|now rewrite lower_char_idem, IH]. Qed.

Lemma py_lower_eqb_empty (s : string) : String.eqb (py_lower s) "" = String.eqb s "".
Proof. destruct s; reflexivity. Qed.

Lemma string_append_assoc (a b c : string) :
  String.append a (String.append b c) = String.append (String.append a b) c.
Proof. induction a as [|x a IH]; simpl; [reflexivity|now rewrite IH]. Qed.

Lemma string_append_empty (a : string) : String.append a "" = a.
Proof. induction a as [|x a IH]; simpl; [reflexivity|now rewrite IH]. Qed.

Lemma prefix_spec (n h : string) :
  String.prefix n h = true <-> exists b, h = String.append n b.
Proof.
  revert h. induction n as [|c n IH]; intros h; simpl.
  - split; [intros _; now exists h|intros _; destruct h; reflexivity].
  - destruct h as [|d h].
    + split; [discriminate|intros [b Hb]; discriminate].
    + cbn [prefix]. destruct (Ascii.ascii_dec c d) as [<-|Hne].
      * rewrite IH. split; intros [b Hb]; exists b; congruence.
      * split; [discriminate|intros [b Hb]; congruence].
Qed.

Lemma contains_spec (n h : string) :
  contains n h = true <-> exists a b, h = String.append a (String.append n b).
Proof.
  induction h as [|d h IH]; cbn [contains]; rewrite orb_true_iff, prefix_spec.
  - split.
    + intros [[b Hb]|H]; [exists ""%string, b; exact Hb|discriminate].
    + intros [a [b Hab]]. left. exists b. destruct a; [exact Hab|discriminate].
  - rewrite IH. split.
    + intros [[b Hb]|[a [b Hab]]].
      * exists ""%string, b; exact Hb.
      * exists (String d a), b. simpl. now rewrite Hab.
    + intros [a [b Hab]]. destruct a as [|x a].
      * left. now exists b.
      * right. injection Hab as -> Hh. now exists a, b.
Qed.

Lemma contains_trans (a b c : string) :
  contains a b = true -> contains b c = true -> contains a c = true.
Proof.
  rewrite !contains_spec. intros [x [y ->]] [u [v ->]].
  exists (String.append u x), (String.append y v).
  now rewrite <- !string_append_assoc.
Qed.

Lemma contains_empty_l (h : string) : contains "" h = true.
Proof. destruct h; reflexivity. Qed.

Lemma contains_empty_r (n : string) : contains n "" = true -> n = ""%string.
Proof. destruct n; simpl; [reflexivity|discriminate]. Qed.

(** *** Player search *)

(** X13: [search_players] is case-insensitive in both its text filters:
    lowering the query or the federation filter changes no result. *)
Theorem search_players_case_insensitive (ps : list Player) (query federation0 : option string)
    (min_rating max_rating : option Z) :
  search_players ps (option_map py_lower query) (option_map py_lower federation0)
    min_rating max_rating =
  search_players ps query federation0 min_rating max_rating.
Proof.
  unfold search_players. f_equal. apply filter_ext. intros p. unfold search_match.
  destruct query as [q|], federation0 as [f|]; cbn [option_map];
    rewrite ?py_lower_eqb_empty, ?py_lower_idem; reflexivity.
Qed.

(** X14: every result of [search_players] is the dictionary of a stored
    player whose rating lies within the given bounds, whose federation is
    non-empty when a federation filter is given, and whose full name
    contains the query, ignoring case. *)
Theorem search_players_sound (ps : list Player) (query federation0 : option string)
    (min_rating max_rating : option Z) (j : json) :
  In j (search_players ps query federation0 min_rating max_rating) ->
  exists p, In p ps /\ j = player_to_dict p /\
    (forall m, min_rating = Some m -> m <= rating p) /\
    (forall m, max_rating = Some m -> rating p <= m) /\
    (forall f, federation0 = Some f -> f <> ""%string -> federation p <> ""%string) /\
    (forall q, query = Some q ->
       contains (py_lower q)
         (py_lower (String.append (first_name p) (String.append " " (last_name p)))) = true).
Proof.
  unfold search_players. rewrite in_map_iff. intros [p [Hj Hin]].
  apply filter_In in Hin as [Hin Hm]. exists p. split; [exact Hin|]. split; [now symmetry|].
  unfold search_match in Hm. rewrite !andb_true_iff in Hm.
  destruct Hm as [[[Hq Hf] Hmin] Hmax]. split; [|split; [|split]].
  - intros m ->. apply negb_true_iff, Z.ltb_ge in Hmin. exact Hmin.
  - intros m ->. apply negb_true_iff, Z.ltb_ge in Hmax. exact Hmax.
  - intros f -> Hne. apply String.eqb_neq in Hne. rewrite Hne in Hf.
    apply andb_true_iff in Hf as [Hf _]. apply negb_true_iff, String.eqb_neq in Hf. exact Hf.
  - intros q0 Hq0. rewrite Hq0 in Hq.
    destruct (String.eqb_spec q0 ""%string) as [Heq|Hne].
    + subst q0. apply contains_empty_l.
    + exact Hq.
Qed.

(** X15: narrowing the query narrows the results: when the lowered first
    query contains the lowered second one, every result for the first is a
    result for the second. *)
Theorem search_players_refine (ps : list Player) (q1 q2 : string) (federation0 : option string)
    (min_rating max_rating : option Z) :
  contains (py_lower q2) (py_lower q1) = true ->
  incl (search_players ps (Some q1) federation0 min_rating max_rating)
       (search_players ps (Some q2) federation0 min_rating max_rating).
Proof.
  intros Hc j. unfold search_players. rewrite !in_map_iff. intros [p [Hj Hin]].
  exists p. split; [exact Hj|]. apply filter_In in Hin as [Hin Hm]. apply filter_In.
  split; [exact Hin|]. unfold search_match in *. rewrite !andb_true_iff in *.
  destruct Hm as [[[Hq Hf] Hmin] Hmax]. split; [split; [split|]|]; try assumption.
  destruct (String.eqb_spec q2 "") as [->|Hne2]; [reflexivity|].
  destruct (String.eqb_spec q1 "") as [->|Hne1].
  - apply contains_empty_r in Hc. exfalso. apply Hne2.
    destruct q2; [reflexivity|discriminate].
  - exact (contains_trans _ _ _ Hc Hq).
Qed.

(** *** Player serialisation *)

Lemma str_or_str (s : string) : str_or (JStr s) "" = Some s.
Proof. simpl. destruct (String.eqb_spec s "") as [->|]; reflexivity. Qed.

(** X16: reading back what [Player.to_dict] wrote gives the player again,
    except that an empty [player_id] is replaced by a fresh UUID. *)
Theorem player_round_trip (now0 uuid0 : string) (p : Player) :
  player_from_dict now0 uuid0 (player_to_dict p) =
  Some (mkPlayer (if String.eqb (player_id p) "" then uuid0 else player_id p)
          (first_name p) (last_name p) (rating p) (federation p) (email p) (phone p)
          (player_created_at p) (player_updated_at p) (tournaments p)).
Proof.
  destruct p as [pid fn ln r fed em ph ca ua ts].
  unfold player_to_dict, player_from_dict, player_names, jhas, jget_or, jget.
  cbn -[str_or map_opt str_of].
  rewrite !str_or_str, (map_opt_round_trip JStr str_of ts (fun _ => eq_refl)).
  cbn. destruct (String.eqb pid ""); reflexivity.
Qed.

Lemma drop_space_spec (s : string) :
  exists w, all_space w = true /\ s = String.append w (drop_space s) /\
    (drop_space s = ""%string \/ starts_word (drop_space s) = true).
Proof.
  induction s as [|c s IH]; simpl.
  - exists ""%string. auto.
  - destruct (is_space c) eqn:Hc.
    + destruct IH as [w (Hw & Hs & Hd)]. exists (String c w). simpl.
      rewrite Hc, Hw, <- Hs. auto.
    + exists ""%string. simpl. rewrite Hc. auto.
Qed.

Lemma take_word_spec (s : string) :
  let '(w, r) := take_word s in
  s = String.append w r /\ no_space w = true /\
  (r = ""%string \/ exists c r', r = String c r' /\ is_space c = true) /\
  (starts_word s = true -> w <> ""%string).
Proof.
  induction s as [|c s IH]; simpl.
  - split; [reflexivity|]. split; [reflexivity|]. split; [now left|discriminate].
  - destruct (is_space c) eqn:Hc.
    + split; [reflexivity|]. split; [reflexivity|]. split; [right; now exists c, s|discriminate].
    + destruct (take_word s) as [w r]. destruct IH as (Hs & Hw & Hr & _).
      split; [simpl; now rewrite Hs|]. split; [simpl; now rewrite Hc, Hw|].
      split; [exact Hr|discriminate].
Qed.

Lemma split1_spec (s : string) :
  match split1 s with
  | [] => all_space s = true
  | [a] => exists w1 w2, all_space w1 = true /\ all_space w2 = true /\
             no_space a = true /\ a <> ""%string /\
             s = String.append w1 (String.append a w2)
  | [a; b] => exists w1 w2, all_space w1 = true /\ all_space w2 = true /\
                no_space a = true /\ a <> ""%string /\ w2 <> ""%string /\
                starts_word b = true /\
                s = String.append w1 (String.append a (String.append w2 b))
  | _ => False
  end.
Proof.
  unfold split1. destruct (drop_space_spec s) as [w1 (Hw1 & Hs & Hd)].
  destruct (drop_space s) as [|c s1] eqn:Hds.
  - rewrite string_append_empty in Hs. now subst s.
  - destruct Hd as [Hd|Hd]; [discriminate|].
    pose proof (take_word_spec (String c s1)) as Ht.
    destruct (take_word (String c s1)) as [a r].
    destruct Ht as (Har & Ha & Hr & Hne). specialize (Hne Hd).
    destruct (drop_space_spec r) as [w2 (Hw2 & Hrs & Hrd)].
    destruct (drop_space r) as [|d r1] eqn:Hdr.
    + rewrite string_append_empty in Hrs. subst r.
      exists w1, w2. repeat split; try assumption. rewrite Hs. now rewrite Har.
    + destruct Hrd as [Hrd|Hrd]; [discriminate|].
      exists w1, w2. repeat split; try assumption.
      * intros ->. simpl in Hrs. subst r. destruct Hr as [Hr|(x & y & Hxy & Hx)]; [discriminate|].
        injection Hxy as -> _. simpl in Hrd. rewrite Hx in Hrd. discriminate.
      * rewrite Hs, Har, Hrs. reflexivity.
Qed.

(** X17: a player file in the old format, with a single [name] and neither
    [first_name] nor [last_name], is read back with the name cut once at
    white space: the name is leading white space, the first name (a word
    without white space), white space, and the last name, which is empty
    unless the first name is not and then starts with a non-space
    character after a non-empty gap. *)
Theorem player_legacy_name (now0 uuid0 : string) (kv : list (string * json)) (s : string)
    (p : Player) :
  jget "name" kv = Some (JStr s) -> jget "first_name" kv = None ->
  jget "last_name" kv = None ->
  player_from_dict now0 uuid0 (JDict kv) = Some p ->
  exists w1 w2, all_space w1 = true /\ all_space w2 = true /\
    no_space (first_name p) = true /\
    s = String.append w1 (String.append (first_name p) (String.append w2 (last_name p))) /\
    (last_name p <> ""%string ->
       first_name p <> ""%string /\ w2 <> ""%string /\ starts_word (last_name p) = true).
Proof.
  intros Hn Hf Hl Hp. unfold player_from_dict in Hp.
  assert (Hnames : player_names kv =
            Some match split1 s with
                 | [] => (""%string, ""%string)
                 | [a] => (a, ""%string)
                 | a :: b :: _ => (a, b)
                 end).
  { unfold player_names, jhas. rewrite Hn, Hf, Hl. cbn.
    destruct (split1 s) as [|a [|b l]]; reflexivity. }
  destruct (player_names kv) as [[a b]|] eqn:Hnm; [|discriminate].
  split_outcome Hp; try discriminate Hp. injection Hp as <-. cbn [first_name last_name].
  pose proof (split1_spec s) as Hs.
  destruct (split1 s) as [|a' [|b' [|xx ll]]]; injection Hnames as Ha1 Hb1; subst a b.
  - exists s, ""%string. split; [exact Hs|]. split; [reflexivity|]. split; [reflexivity|].
    split; [cbn; now rewrite string_append_empty|]. intros Hcon; now contradiction Hcon.
  - destruct Hs as (w1 & w2 & Hw1 & Hw2 & Ha & Hne & ->).
    exists w1, w2. split; [exact Hw1|]. split; [exact Hw2|]. split; [exact Ha|].
    split; [now rewrite string_append_empty|]. intros Hcon; now contradiction Hcon.
  - destruct Hs as (w1 & w2 & Hw1 & Hw2 & Ha & Hne & Hw2ne & Hb & ->).
    exists w1, w2. split; [exact Hw1|]. split; [exact Hw2|]. split; [exact Ha|].
    split; [reflexivity|]. intros _. split; [exact Hne|]. split; [exact Hw2ne|exact Hb].
  - contradiction.
Qed.

(** *** Deleting players *)

(** X18: [delete_player] never touches a tournament file, so tournaments keep
    listing a deleted player; when the stored record carries its own ID the
    call succeeds, removes exactly that player file and keeps the others,
    and a missing player gives [False] with nothing changed. *)
Theorem delete_player_spec (w : World) (pid : Id) :
  let '(b, w') := delete_player w pid in
  tournament_file w' = tournament_file w /\
  (player_file w pid = None -> b = false /\ w' = w) /\
  (forall p, player_file w pid = Some p -> player_id p = pid ->
     b = true /\ player_file w' pid = None /\
     forall q, q <> pid -> player_file w' q = player_file w q).
Proof.
  unfold delete_player. destruct (player_file w pid) as [p|] eqn:Hp.
  - destruct (player_file w (player_id p)) as [p'|] eqn:Hp'.
    + split; [reflexivity|]. split; [discriminate|].
      intros p0 Hp0 Hid. injection Hp0 as <-. rewrite Hid.
      split; [reflexivity|]. cbn [player_file]. split; [apply upd_same|].
      intros q Hq. now apply upd_other.
    + split; [reflexivity|]. split; [discriminate|].
      intros p0 Hp0 Hid. injection Hp0 as <-. congruence.
  - split; [reflexivity|]. split; [intros _; split; reflexivity|discriminate].
Qed.

Lemma unlink_fold_tfile (e : Env) (tid : string) (l : list Id) : forall (w : World),
  tournament_file (fold_left (unlink_player e tid) l w) = tournament_file w.
Proof.
  induction l as [|a l IH]; intros w; [reflexivity|].
  cbn [fold_left]. rewrite IH. apply unlink_player_tfile.
Qed.

(** X19: once a tournament has been deleted, no player's tournament list
    shows it any more, provided each tournament file holds the tournament
    of its own name (whether or not the deletion found the file). *)
Theorem player_tournaments_after_delete (e : Env) (w : World) (tid : string) (pid : Id) :
  (forall k t, tournament_file w k = Some t -> tournament_id t = k) ->
  let '(_, w') := delete_tournament e w tid in
  forall t, In (tournament_summary t) (get_player_tournaments w' pid) -> tournament_id t <> tid.
Proof.
  intros Hgood.
  assert (Hfiles : let '(_, w') := delete_tournament e w tid in
                   forall k t, tournament_file w' k = Some t -> tournament_id t = k /\ k <> tid).
  { unfold delete_tournament. destruct (tournament_file w tid) as [t0|] eqn:Ht0.
    - cbn [tournament_file]. intros k t Hk.
      destruct (String.eqb_spec k tid) as [->|Hne]; [rewrite upd_same in Hk; discriminate|].
      rewrite upd_other, unlink_fold_tfile in Hk by exact Hne.
      split; [exact (Hgood k t Hk)|exact Hne].
    - intros k t Hk. split; [exact (Hgood k t Hk)|]. intros ->. congruence. }
  destruct (delete_tournament e w tid) as [b w']. intros t Hin.
  unfold get_player_tournaments in Hin. destruct (player_file w' pid) as [p|]; [|contradiction].
  apply in_flat_map in Hin as [k [_ Hk]].
  destruct (tournament_file w' k) as [t'|] eqn:Ht'; [|contradiction].
  destruct Hk as [Hk|[]]. destruct (Hfiles k t' Ht') as [Hid Hne].
  unfold tournament_summary in Hk. injection Hk as Heq _ _ _ _. congruence.
Qed.

(** *** Creating tournaments *)

(** X20: [create_tournament] accepts a type name exactly when it equals the
    value of a tournament type up to case, and then picks that type. *)
Theorem resolve_type_spec (s : string) (ty : TournamentType) :
  resolve_type s = Some ty <-> py_lower s = py_lower (tt_value ty).
Proof.
  unfold resolve_type. split.
  - intros Hr. cbn [find] in Hr.
    repeat match type of Hr with
    | context [String.eqb ?a ?b] =>
        destruct (String.eqb_spec a b) as [Heq|];
        [injection Hr as <-; rewrite <- Heq; reflexivity|]
    end.
    discriminate.
  - intros H. rewrite H. destruct ty; reflexivity.
Qed.

(** X21: [create_tournament] fails exactly on an unknown type name; otherwise
    it returns the fresh UUID, writes a tournament with no players, no
    rounds, round 0 and not finished under that name, changes no other
    file, and the new tournament can then be started. *)
Theorem create_tournament_spec (e e' : Env) (uuid0 : string) (w : World) (nm ty_s : string)
    (nr : Z) (loc : string) (sd ed : option string) (desc : string) :
  (create_tournament e uuid0 w nm ty_s nr loc sd ed desc = None <-> resolve_type ty_s = None) /\
  (forall tid w1, create_tournament e uuid0 w nm ty_s nr loc sd ed desc = Some (tid, w1) ->
     tid = uuid0 /\
     (exists t, tournament_file w1 uuid0 = Some t /\ players t = [] /\ rounds t = [] /\
        current_round t = 0 /\ is_finished t = false /\
        resolve_type ty_s = Some (tournament_type t)) /\
     (forall k, k <> uuid0 -> tournament_file w1 k = tournament_file w k) /\
     player_file w1 = player_file w /\
     let '(b, w2) := start_tournament_ctl e' w1 uuid0 in
     b = true /\ exists t2, tournament_file w2 uuid0 = Some t2 /\ current_round t2 = 1).
Proof.
  unfold create_tournament. destruct (resolve_type ty_s) as [ty|] eqn:Hr.
  - cbn [tournament_save]. split; [split; discriminate|].
    intros tid w1 H. injection H as <- <-. cbn [tournament_id].
    split; [reflexivity|]. split; [|split; [|split]].
    + eexists. cbn [tournament_file]. rewrite upd_same. split; [reflexivity|].
      cbn [players rounds current_round is_finished tournament_type]. repeat split.
    + intros k Hk. cbn [tournament_file]. now apply upd_other.
    + reflexivity.
    + unfold start_tournament_ctl. cbn [tournament_file]. rewrite upd_same.
      cbn. rewrite upd_same. split; [reflexivity|]. eexists. split; reflexivity.
  - split; [split; reflexivity|]. intros tid w1 H. discriminate.
Qed.

(** *** JSON export *)






(** *** Pairing edge cases and sizes *)

(** X23: with no registered players, Round Robin refuses to pair (the
    [IndexError] is caught and nothing is stored), while Swiss, and
    Knockout for round 1, store an empty round. *)
Theorem empty_roster_pairings (e : Env) (t : Tournament) (rn : Z) (k : nat) :
  players t = [] ->
  existsb (fun r => Z.eqb (number r) rn) (rounds t) = false ->
  (tournament_type t = ROUND_ROBIN -> generate_pairings e t (Some rn) k = (false, t, k)) /\
  (tournament_type t = SWISS \/ (tournament_type t = KNOCKOUT /\ rn = 1) ->
   generate_pairings e t (Some rn) k =
     (true, add_round e t (mkRound rn [] (Some (now e)) None), k)).
Proof.
  intros Hp Hr. unfold generate_pairings. rewrite Hr. split.
  - intros Hty. rewrite Hty. cbn [get_pairing_strategy].
    unfold round_robin_generate_pairings. rewrite Hp. reflexivity.
  - intros [Hty|[Hty ->]]; rewrite Hty; cbn [get_pairing_strategy].
    + unfold swiss_generate_pairings, swiss_table. rewrite Hp. reflexivity.
    + unfold knockout_generate_pairings. rewrite Hp. reflexivity.
Qed.

Lemma renumber_length (i : Z) (ps : list Pairing) : List.length (renumber i ps) = List.length ps.
Proof.
  revert i. induction ps as [|p ps IH]; intros i; [reflexivity|].
  simpl. destruct (black_id p); simpl; now rewrite IH.
Qed.

Lemma ko_winners_count (e : Env) (ps : list Pairing) (k : nat) :
  let '(ws, k') := ko_winners e ps k in
  List.length ws = List.length (filter ko_decided ps) /\
  k' = (k + List.length (filter is_draw ps))%nat.
Proof.
  revert k. induction ps as [|p ps IH]; intros k; simpl; [split; [reflexivity|lia]|].
  unfold ko_decided at 1, is_draw at 1. destruct (result p).
  all: try (specialize (IH k); destruct (ko_winners e ps k) as [ws k'];
            destruct IH as [H1 H2]; simpl; split; [congruence|lia]).
  specialize (IH (S k)). destruct (ko_winners e ps (S k)) as [ws k'].
  destruct IH as [H1 H2]. simpl. split; [congruence|lia].
Qed.

Lemma div2_step (x : nat) :
  (S (S (x + 1)) / 2 = S ((x + 1) / 2))%nat /\ (S (S x) / 2 = S (x / 2))%nat.
Proof.
  split.
  - replace (S (S (x + 1)))%nat with (x + 1 + 1 * 2)%nat by lia.
    rewrite Nat.div_add by lia. lia.
  - replace (S (S x))%nat with (x + 1 * 2)%nat by lia.
    rewrite Nat.div_add by lia. lia.
Qed.

Lemma ko_pair_winners_count (e : Env) (ws : list (option Id)) (board : Z) (k : nat) :
  let '(ps, k') := ko_pair_winners e ws board k in
  List.length ps = ((List.length ws + 1) / 2)%nat /\ k' = (k + List.length ws / 2)%nat.
Proof.
  assert (H : forall n ws board k, (List.length ws <= n)%nat ->
    let '(ps, k') := ko_pair_winners e ws board k in
    List.length ps = ((List.length ws + 1) / 2)%nat /\ k' = (k + List.length ws / 2)%nat).
  { induction n as [|n IH]; intros ws0 board0 k0 Hlen.
    - destruct ws0; [simpl; split; [reflexivity|lia]|simpl in Hlen; lia].
    - destruct ws0 as [|w1 [|w2 rest]].
      + simpl. split; [reflexivity|lia].
      + simpl. split; [reflexivity|lia].
      + assert (IHr := IH rest (board0 + 1) (S k0) ltac:(simpl in Hlen; lia)).
        cbn -[Nat.div].
        destruct (ko_pair_winners e rest (board0 + 1) (S k0)) as [ps k2].
        destruct IHr as [H1 H2]. destruct (div2_step (List.length rest)) as [E1 E2].
        destruct (rand_lt (rnd e k0) 1 2); cbn -[Nat.div]; rewrite E1, E2, H1, H2; split; lia. }
  apply (H (List.length ws)). lia.
Qed.

(** X24: a knockout round after the first has one pairing for every two
    players sent on by the previous round (rounded up, the odd one out
    getting a bye), and consumes one random draw per drawn game of the
    previous round and one per new pairing of two players. *)
Theorem knockout_round_size (e : Env) (t : Tournament) (rn : Z) (k : nat) (prev : Round) :
  rn <> 1 ->
  find (fun r => Z.eqb (number r) (rn - 1)) (rounds t) = Some prev ->
  exists r k', knockout_generate_pairings e t rn k = Generated r k' /\
    List.length (pairings r) = ((List.length (filter ko_decided (pairings prev)) + 1) / 2)%nat /\
    k' = (k + List.length (filter is_draw (pairings prev))
            + List.length (filter ko_decided (pairings prev)) / 2)%nat.
Proof.
  intros Hrn Hfind. unfold knockout_generate_pairings.
  destruct (Z.eqb_spec rn 1) as [|_]; [contradiction|]. rewrite Hfind.
  pose proof (ko_winners_count e (pairings prev) k) as Hw.
  destruct (ko_winners e (pairings prev) k) as [ws k1]. destruct Hw as [Hw1 Hw2].
  pose proof (ko_pair_winners_count e ws 1 k1) as Hp.
  destruct (ko_pair_winners e ws 1 k1) as [ps k2]. destruct Hp as [Hp1 Hp2].
  eexists _, k2. split; [reflexivity|]. cbn [pairings]. rewrite renumber_length, Hp1, <- Hw1.
  split; [reflexivity|]. rewrite Hp2, Hw2, Hw1. reflexivity.
Qed.

(** *** The Swiss bye *)

Lemma insert_asc_sorted {A} (key : A -> Z) (x : A) (l : list A) :
  StronglySorted (fun a b => key a <= key b) l ->
  StronglySorted (fun a b => key a <= key b) (insert_asc key x l).
Proof.
  induction l as [|y l IH]; intros Hs; simpl.
  - repeat constructor.
  - apply StronglySorted_inv in Hs as [Hl Hy].
    destruct (Z.leb_spec (key y) (key x)) as [Hle|Hlt].
    + constructor; [exact (IH Hl)|]. apply Forall_forall. intros z Hz.
      apply (Permutation_in _ (insert_asc_perm key x l)) in Hz. destruct Hz as [<-|Hz]; [exact Hle|].
      rewrite Forall_forall in Hy. exact (Hy z Hz).
    + constructor; [constructor; assumption|]. constructor; [lia|].
      rewrite Forall_forall in Hy |- *. intros z Hz. specialize (Hy z Hz). lia.
Qed.

Lemma sort_asc_sorted {A} (key : A -> Z) (l : list A) :
  StronglySorted (fun a b => key a <= key b) (sort_asc key l).
Proof.
  unfold sort_asc.
  assert (H : forall acc, StronglySorted (fun a b => key a <= key b) acc ->
    StronglySorted (fun a b => key a <= key b) (fold_left (fun acc x => insert_asc key x acc) l acc)).
  { induction l as [|x l IH]; intros acc Hacc; simpl; [exact Hacc|].
    apply IH, insert_asc_sorted, Hacc. }
  apply H. constructor.
Qed.

Lemma find_sorted_min {A} (key : A -> Z) (f : A -> bool) (l : list A) (x : A) :
  StronglySorted (fun a b => key a <= key b) l -> find f l = Some x ->
  forall y, In y l -> f y = true -> key x <= key y.
Proof.
  induction l as [|a l IH]; intros Hs Hf y Hy Hfy; [discriminate|].
  apply StronglySorted_inv in Hs as [Hl Ha]. simpl in Hf.
  destruct (f a) eqn:Hfa.
  - injection Hf as <-. destruct Hy as [<-|Hy]; [lia|].
    rewrite Forall_forall in Ha. exact (Ha y Hy).
  - destruct Hy as [<-|Hy]; [congruence|]. exact (IH Hl Hf y Hy Hfy).
Qed.

(** X25: with non-empty player IDs, the Swiss bye goes to a player with the
    lowest score among those who never had a bye, when there is one, and
    otherwise to a player with the lowest score of all. *)
Theorem swiss_bye_lowest (t : Tournament) (ps : list (Id * Z)) (b : Id) :
  (forall q, In q ps -> fst q <> ""%string) ->
  swiss_bye_player t ps = Some b ->
  exists sb, In (b, sb) ps /\
    (forall q, In q ps -> ~ In (fst q) (players_with_byes t) ->
       ~ In b (players_with_byes t) /\ sb <= snd q) /\
    ((forall q, In q ps -> In (fst q) (players_with_byes t)) ->
       forall q, In q ps -> sb <= snd q).
Proof.
  intros Hne. unfold swiss_bye_player.
  pose proof (sort_asc_sorted snd ps) as Hsort.
  pose proof (sort_asc_perm snd ps) as Hperm.
  set (c := sort_asc snd ps) in *.
  assert (Hc : forall y, In y c <-> In y ps).
  { intros y. split; apply Permutation_in; [exact Hperm|symmetry; exact Hperm]. }
  set (f := fun q : Id * Z => negb (mem (fst q) (players_with_byes t))).
  assert (Hf_iff : forall q, f q = true <-> ~ In (fst q) (players_with_byes t)).
  { intros q. unfold f. rewrite negb_true_iff. apply mem_notin. }
  destruct (find f c) as [[pid s]|] eqn:Hfind.
  - assert (Hin : In (pid, s) c) by (eapply find_some; exact Hfind).
    assert (Hpid : pid <> ""%string) by exact (Hne (pid, s) (proj1 (Hc _) Hin)).
    cbn [truthy]. apply String.eqb_neq in Hpid. rewrite Hpid. cbn [negb]. intros H. injection H as <-.
    exists s. split; [exact (proj1 (Hc _) Hin)|]. split.
    + intros q Hq Hnb. split.
      * apply (Hf_iff (pid, s)). exact (proj2 (find_some _ _ Hfind)).
      * apply (find_sorted_min snd f c (pid, s) Hsort Hfind q (proj2 (Hc q) Hq)).
        now apply Hf_iff.
    + intros Hall. exfalso. apply (proj1 (Hf_iff (pid, s)) (proj2 (find_some _ _ Hfind))).
      exact (Hall (pid, s) (proj1 (Hc _) Hin)).
  - assert (Hnone : forall q, In q ps -> In (fst q) (players_with_byes t)).
    { intros q Hq. destruct (in_dec String.string_dec (fst q) (players_with_byes t)) as [H|H];
        [exact H|]. exfalso. apply Hf_iff in H.
      pose proof (find_none _ _ Hfind q (proj2 (Hc q) Hq)). congruence. }
    cbn [truthy negb]. destruct c as [|[q0 s0] c'] eqn:Ec; [discriminate|].
    intros H. injection H as <-.
    exists s0. split; [apply Hc; now left|]. split.
    + intros q Hq Hnb. exfalso. exact (Hnb (Hnone q Hq)).
    + intros _ q Hq. apply Hc in Hq. destruct Hq as [<-|Hq]; [cbn; lia|].
      apply StronglySorted_inv in Hsort as [_ Hs]. rewrite Forall_forall in Hs.
      exact (Hs q Hq).
Qed.

(* ------------------------------------------------------------------ *)
(** ** Concrete instances of the stated properties *)

Lemma tournament_report_outcome_witness :
  tournament_file sample_world "t2"%string = Some running_sample /\
  get_tournament_report sample_world "t2"%string = None.
Proof.
  split; [reflexivity|].
  destruct (tournament_report_outcome sample_world "t2"%string running_sample eq_refl)
    as [[_ H] _].
  apply H. exists "p1"%string. split; [simpl; tauto|simpl; discriminate].
Defined.

Lemma start_tournament_once_witness :
  tournament_file sample_world "t4"%string = Some fresh_cup /\
  fst (start_tournament_ctl (env_at "T"%string) sample_world "t4"%string) = true /\
  start_tournament_ctl (env_at "U"%string) (snd (start_tournament_ctl (env_at "T"%string) sample_world "t4"%string))
    "t4"%string = (false, snd (start_tournament_ctl (env_at "T"%string) sample_world "t4"%string)).
Proof.
  pose proof (start_tournament_once (env_at "T"%string) (env_at "U"%string) sample_world
    "t4"%string fresh_cup eq_refl eq_refl) as H.
  split; [reflexivity|]. revert H.
  destruct (start_tournament_ctl (env_at "T"%string) sample_world "t4"%string) as [b w'].
  intros [Hb [_ H2]]. cbn in Hb. subst b. cbn [fst snd].
  split; [reflexivity|]. exact (proj2 (H2 eq_refl)).
Defined.

Lemma roster_locked_witness :
  tournament_file sample_world "t2"%string = Some running_sample /\ 0 < current_round running_sample /\
  add_player_to_tournament (env_at "T"%string) sample_world "t2"%string "p1"%string = (false, sample_world).
Proof.
  split; [reflexivity|]. split; [reflexivity|].
  exact (proj1 (proj1 (roster_locked (env_at "T"%string) sample_world "t2"%string
    running_sample "p1"%string eq_refl) eq_refl)).
Defined.

Lemma generated_boards_witness :
  exists r k', get_pairing_strategy KNOCKOUT (env_at "T"%string) ko_six 1 0 = Generated r k' /\
    map board_number (filter has_black (pairings r)) = [Some 1; Some 2].
Proof.
  exists (mkRound 1
    [mkPairing (Some "p1"%string) None None WHITE_WIN;
     mkPairing (Some "p2"%string) None None WHITE_WIN;
     mkPairing (Some "p6"%string) (Some "p3"%string) (Some 1) ONGOING;
     mkPairing (Some "p5"%string) (Some "p4"%string) (Some 2) ONGOING]
    (Some "T"%string) None), 2%nat.
  assert (H : get_pairing_strategy KNOCKOUT (env_at "T"%string) ko_six 1 0 =
    Generated (mkRound 1
      [mkPairing (Some "p1"%string) None None WHITE_WIN;
       mkPairing (Some "p2"%string) None None WHITE_WIN;
       mkPairing (Some "p6"%string) (Some "p3"%string) (Some 1) ONGOING;
       mkPairing (Some "p5"%string) (Some "p4"%string) (Some 2) ONGOING]
      (Some "T"%string) None) 2).
  { vm_compute. reflexivity. }
  split; [exact H|].
  rewrite (generated_boards KNOCKOUT (env_at "T"%string) ko_six 1 0 _ 2 H). reflexivity.
Defined.

Lemma start_next_round_spec_witness :
  tournament_file sample_world "t2"%string = Some running_sample /\
  tournament_id running_sample = "t2"%string /\
  exists t', tournament_file (snd (fst (start_next_round (env_at "T"%string) sample_world "t2"%string 0)))
               "t2"%string = Some t' /\ current_round t' = 3.
Proof.
  pose proof (start_next_round_spec (env_at "T"%string) sample_world "t2"%string
    running_sample 0 eq_refl eq_refl) as H.
  split; [reflexivity|]. split; [reflexivity|]. revert H.
  destruct (start_next_round (env_at "T"%string) sample_world "t2"%string 0) as [[b w'] k'].
  intros [_ H]. destruct (H eq_refl) as [t' [H1 [H2 _]]].
  exists t'. split; [exact H1|]. rewrite H2. reflexivity.
Defined.

Lemma delete_tournament_spec_witness :
  tournament_file sample_world "t4"%string = Some fresh_cup /\
  (forall q p, player_file sample_world q = Some p -> player_id p = q /\ NoDup (tournaments p)) /\
  tournament_file (snd (delete_tournament (env_at "T"%string) sample_world "t4"%string)) "t4"%string = None /\
  (forall p, player_file (snd (delete_tournament (env_at "T"%string) sample_world "t4"%string)) "p1"%string = Some p ->
     ~ In "t4"%string (tournaments p)).
Proof.
  assert (Hwf : forall q p, player_file sample_world q = Some p ->
                  player_id p = q /\ NoDup (tournaments p)).
  { intros q p Hq. cbn in Hq. destruct (String.eqb_spec q "p1"%string).
    - subst q. injection Hq as <-. split; [reflexivity|].
      constructor; [simpl; tauto|constructor].
    - discriminate Hq. }
  split; [reflexivity|]. split; [exact Hwf|].
  pose proof (delete_tournament_spec (env_at "T"%string) sample_world "t4"%string fresh_cup
    eq_refl Hwf) as H. revert H.
  destruct (delete_tournament (env_at "T"%string) sample_world "t4"%string) as [b w'].
  cbn [snd]. intros (_ & H1 & _ & _ & H5). split; [exact H1|].
  intros p Hp. apply (H5 "p1"%string p); [simpl; tauto|exact Hp].
Defined.

Lemma search_players_sound_witness :
  In (player_to_dict sample_player)
     (search_players [sample_player] (Some "ann"%string) None (Some 1000) None) /\
  exists p, In p [sample_player] /\ 1000 <= rating p.
Proof.
  assert (Hin : In (player_to_dict sample_player)
     (search_players [sample_player] (Some "ann"%string) None (Some 1000) None)).
  { vm_compute. left. reflexivity. }
  split; [exact Hin|].
  destruct (search_players_sound _ _ _ _ _ _ Hin) as (p & Hp & _ & Hmin & _).
  exists p. split; [exact Hp|]. apply Hmin. reflexivity.
Defined.

Lemma search_players_refine_witness :
  contains (py_lower "an"%string) (py_lower "Ann"%string) = true /\
  incl (search_players [sample_player] (Some "Ann"%string) None None None)
       (search_players [sample_player] (Some "an"%string) None None None).
Proof.
  split; [reflexivity|]. apply search_players_refine. reflexivity.
Defined.


Lemma player_legacy_name_witness :
  player_from_dict "N"%string "U"%string (JDict [("name"%string, JStr "Ann  Lee Smith"%string)]) =
    Some legacy_player /\
  exists w1 w2, all_space w1 = true /\ all_space w2 = true /\
    "Ann  Lee Smith"%string =
      String.append w1 (String.append "Ann"%string (String.append w2 "Lee Smith"%string)).
Proof.
  assert (H : player_from_dict "N"%string "U"%string (JDict [("name"%string, JStr "Ann  Lee Smith"%string)]) =
    Some legacy_player) by (vm_compute; reflexivity).
  split; [exact H|].
  destruct (player_legacy_name "N"%string "U"%string [("name"%string, JStr "Ann  Lee Smith"%string)]
    "Ann  Lee Smith"%string legacy_player eq_refl eq_refl eq_refl H)
    as (w1 & w2 & H1 & H2 & _ & H4 & _).
  exists w1, w2. split; [exact H1|]. split; [exact H2|]. exact H4.
Defined.

Lemma player_tournaments_after_delete_witness :
  (forall k t, tournament_file sample_world k = Some t -> tournament_id t = k) /\
  ~ In (tournament_summary fresh_cup)
      (get_player_tournaments (snd (delete_tournament (env_at "T"%string) sample_world "t4"%string)) "p1"%string).
Proof.
  assert (Hwf : forall k t, tournament_file sample_world k = Some t -> tournament_id t = k).
  { intros k t Hk. cbn in Hk. destruct (String.eqb_spec k "t2"%string).
    - subst k. injection Hk as <-. reflexivity.
    - destruct (String.eqb_spec k "t4"%string); [subst k; injection Hk as <-; reflexivity|].
      discriminate Hk. }
  split; [exact Hwf|].
  pose proof (player_tournaments_after_delete (env_at "T"%string) sample_world "t4"%string
    "p1"%string Hwf) as H. revert H.
  destruct (delete_tournament (env_at "T"%string) sample_world "t4"%string) as [b w'].
  cbn [snd]. intros H Hin. exact (H fresh_cup Hin eq_refl).
Defined.



Lemma empty_roster_pairings_witness :
  players empty_open = [] /\
  existsb (fun r => Z.eqb (number r) 1) (rounds empty_open) = false /\
  generate_pairings (env_at "T"%string) empty_open (Some 1) 0 =
    (true, add_round (env_at "T"%string) empty_open (mkRound 1 [] (Some "T"%string) None), 0%nat).
Proof.
  split; [reflexivity|]. split; [reflexivity|].
  apply (proj2 (empty_roster_pairings (env_at "T"%string) empty_open 1 0 eq_refl eq_refl)).
  left. reflexivity.
Defined.

Lemma knockout_round_size_witness :
  2 <> 1 /\
  find (fun r => Z.eqb (number r) (2 - 1)) (rounds ko_after_round1) =
    Some (hd (mkRound 0 [] None None) (rounds ko_after_round1)) /\
  exists r k', knockout_generate_pairings (env_at "T"%string) ko_after_round1 2 0 = Generated r k' /\
    List.length (pairings r) = 1%nat /\ k' = 2%nat.
Proof.
  split; [discriminate|]. split; [reflexivity|].
  destruct (knockout_round_size (env_at "T"%string) ko_after_round1 2 0
    (hd (mkRound 0 [] None None) (rounds ko_after_round1)) ltac:(discriminate) eq_refl)
    as (r & k' & H1 & H2 & H3).
  exists r, k'. split; [exact H1|]. split; [exact H2|exact H3].
Defined.

Lemma swiss_bye_lowest_witness :
  (forall q, In q [("p1"%string, 1); ("p2"%string, 0); ("p3"%string, 1)] ->
     fst q <> ""%string) /\
  swiss_bye_player swiss_history [("p1"%string, 1); ("p2"%string, 0); ("p3"%string, 1)] =
    Some "p2"%string /\
  exists sb, In ("p2"%string, sb) [("p1"%string, 1); ("p2"%string, 0); ("p3"%string, 1)] /\
    forall q, In q [("p1"%string, 1); ("p2"%string, 0); ("p3"%string, 1)] -> sb <= snd q.
Proof.
  assert (Hne : forall q, In q [("p1"%string, 1); ("p2"%string, 0); ("p3"%string, 1)] ->
     fst q <> ""%string).
  { intros q Hq. simpl in Hq. repeat destruct Hq as [<-|Hq]; try discriminate. contradiction. }
  split; [exact Hne|]. split; [reflexivity|].
  destruct (swiss_bye_lowest swiss_history _ "p2"%string Hne eq_refl) as (sb & Hin & H2 & _).
  exists sb. split; [exact Hin|]. intros q Hq. apply (H2 q Hq).
  intros Hb. vm_compute in Hb. exact Hb.
Defined.